(** * pi_view: digit-series (BBP) and sampling (Monte Carlo) evaluation of pi

    A shallow embedding of [bbp_algo.py], [monte_carlo.py] and the
    consistency guard of [main_gui.py].  The decimal arithmetic is that of
    Python's [decimal] module (General Decimal Arithmetic, rounding mode
    ROUND_HALF_EVEN, default traps), written over [Z] coefficients. *)

From Stdlib Require Reals Qreals Lra.
From Stdlib Require Import ZArith QArith Qabs Qpower Lia Lqa.
From Stdlib Require Import String Ascii List Bool.
From stdpp Require Import base option list gmap.

Local Open Scope Z_scope.

(** ** Exceptions and the state-and-error monad *)

Inductive exn : Type :=
| ValueError
| TypeError
| KeyError
| OverflowError
| Overflow
| DivisionByZero
| InvalidOperation.

Inductive result (A : Type) : Type :=
| Ok (a : A)
| Raise (e : exn).
Arguments Ok {A} a.
Arguments Raise {A} e.

Definition is_ok {A} (r : result A) : bool :=
  match r with Ok _ => true | Raise _ => false end.

(** A computation over a mutable state [S] that may raise. *)
Definition M (S A : Type) : Type := S -> result A * S.

Definition ret {S A} (a : A) : M S A := fun s => (Ok a, s).
Definition raise {S A} (e : exn) : M S A := fun s => (Raise e, s).
Definition bind {S A B} (m : M S A) (k : A -> M S B) : M S B :=
  fun s => match m s with
           | (Ok a, s') => k a s'
           | (Raise e, s') => (Raise e, s')
           end.
Definition get {S} : M S S := fun s => (Ok s, s).
Definition put {S} (s : S) : M S unit := fun _ => (Ok tt, s).
Definition lift {S A} (r : result A) : M S A := fun s => (r, s).

Declare Scope monad_scope.
Delimit Scope monad_scope with monad.
Notation "'let*' x := m 'in' k" := (bind m (fun x => k))
  (at level 10, x name, m at level 200, k at level 200) : monad_scope.
Notation "'run*' m 'in' k" := (bind m (fun _ => k))
  (at level 10, m at level 200, k at level 200) : monad_scope.
Local Open Scope monad_scope.

(** [for x in xs: acc = body(acc, x)] *)
Fixpoint for_fold {S A X} (body : A -> X -> M S A) (xs : list X) (acc : A)
  : M S A :=
  match xs with
  | [] => ret acc
  | x :: xs' => let* acc' := body acc x in for_fold body xs' acc'
  end.

(** ** Decimal numbers *)

(** A finite [Decimal]: sign, coefficient and exponent; the value is
    [(-1)^sign * coef * 10^exp]. *)
Record decimal : Type := Dec { dsign : bool; dcoef : Z; dexp : Z }.

(** The arithmetic context.  The source only ever assigns [prec]; the
    exponent limits keep their defaults. *)
Record context : Type := Ctx { prec : Z; Emax : Z; Emin : Z }.

Definition DefaultContext : context := Ctx 28 999999 (-999999).

Definition Etiny (c : context) : Z := Emin c - prec c + 1.
Definition Etop (c : context) : Z := Emax c - prec c + 1.

(** [len(str(c))] for a non-negative integer. *)
Fixpoint ndigits_aux (fuel : nat) (c p n : Z) : Z :=
  match fuel with
  | O => n
  | S f => if c <? p then n else ndigits_aux f c (p * 10) (n + 1)
  end.

Definition ndigits (c : Z) : Z := ndigits_aux (Z.to_nat (Z.log2 c)) c 10 1.

(** Rounding the coefficient [c] after dropping its last [drop] digits,
    ROUND_HALF_EVEN. *)
Definition round_half_even (c drop : Z) : Z :=
  let p := 10 ^ drop in
  let '(q, r) := Z.div_eucl c p in
  if 2 * r <? p then q
  else if p <? 2 * r then q + 1
  else if Z.even q then q else q + 1.

(** [Decimal._fix]: round to the context's precision and exponent range.
    Overflow is trapped in the default context, so it raises. *)
Definition fix_ (c : context) (d : decimal) : result decimal :=
  if dcoef d =? 0 then
    Ok (Dec (dsign d) 0 (Z.min (Z.max (dexp d) (Etiny c)) (Emax c)))
  else
    let exp_min := ndigits (dcoef d) + dexp d - prec c in
    if Etop c <? exp_min then Raise Overflow
    else
      let exp_min := Z.max exp_min (Etiny c) in
      if dexp d <? exp_min then
        let coeff := round_half_even (dcoef d) (exp_min - dexp d) in
        let '(coeff, exp_min) :=
          if prec c <? ndigits coeff then (coeff / 10, exp_min + 1)
          else (coeff, exp_min) in
        if Etop c <? exp_min then Raise Overflow
        else Ok (Dec (dsign d) coeff exp_min)
      else Ok d.

(** [Decimal(n)] for a Python [int]: exact. *)
Definition Decimal (n : Z) : decimal := Dec (n <? 0) (Z.abs n) 0.

Definition copy_negate (d : decimal) : decimal :=
  Dec (negb (dsign d)) (dcoef d) (dexp d).

(** The signed coefficient of [d] written at the exponent [e <= dexp d]. *)
Definition scaled (d : decimal) (e : Z) : Z :=
  (if dsign d then -1 else 1) * dcoef d * 10 ^ (dexp d - e).

(** [Decimal.__add__]: the exact sum at the smaller exponent, then
    [_fix]. *)
Definition dec_add (c : context) (a b : decimal) : result decimal :=
  let e := Z.min (dexp a) (dexp b) in
  if (dcoef a =? 0) && (dcoef b =? 0) then
    fix_ c (Dec (dsign a && dsign b) 0 e)
  else
    let s := scaled a e + scaled b e in
    fix_ c (Dec (s <? 0) (Z.abs s) e).

(** [Decimal.__sub__] *)
Definition dec_sub (c : context) (a b : decimal) : result decimal :=
  dec_add c a (copy_negate b).

(** [Decimal.__mul__] *)
Definition dec_mul (c : context) (a b : decimal) : result decimal :=
  fix_ c (Dec (xorb (dsign a) (dsign b)) (dcoef a * dcoef b)
              (dexp a + dexp b)).

(** The loop of [__truediv__] that strips trailing zeros of an exact
    quotient while the exponent is below the ideal one. *)
Fixpoint strip_zeros (n : nat) (coeff exp : Z) : Z * Z :=
  match n with
  | O => (coeff, exp)
  | S n' => if coeff mod 10 =? 0 then strip_zeros n' (coeff / 10) (exp + 1)
            else (coeff, exp)
  end.

(** [Decimal.__truediv__] *)
Definition dec_div (c : context) (a b : decimal) : result decimal :=
  let sign := xorb (dsign a) (dsign b) in
  if dcoef b =? 0 then
    if dcoef a =? 0 then Raise InvalidOperation else Raise DivisionByZero
  else if dcoef a =? 0 then fix_ c (Dec sign 0 (dexp a - dexp b))
  else
    let shift := ndigits (dcoef b) - ndigits (dcoef a) + prec c + 1 in
    let exp := dexp a - dexp b - shift in
    let '(coeff, remainder) :=
      if 0 <=? shift
      then Z.div_eucl (dcoef a * 10 ^ shift) (dcoef b)
      else Z.div_eucl (dcoef a) (dcoef b * 10 ^ (- shift)) in
    if remainder =? 0 then
      let '(coeff, exp) := strip_zeros (Z.to_nat shift) coeff exp in
      fix_ c (Dec sign coeff exp)
    else
      fix_ c (Dec sign (if coeff mod 5 =? 0 then coeff + 1 else coeff) exp).

(** [Decimal.__pos__] *)
Definition dec_pos (c : context) (d : decimal) : result decimal :=
  fix_ c (if dcoef d =? 0 then Dec false 0 (dexp d) else d).

(** ** Rendering *)

Definition digit_char (d : Z) : ascii :=
  ascii_of_nat (48 + Z.to_nat d).

Fixpoint digits_aux (fuel : nat) (c : Z) (acc : string) : string :=
  match fuel with
  | O => String (digit_char (c mod 10)) acc
  | S f => if c <? 10 then String (digit_char c) acc
           else digits_aux f (c / 10) (String (digit_char (c mod 10)) acc)
  end.

(** [str(c)] for a non-negative integer. *)
Definition str_nat (c : Z) : string :=
  digits_aux (Z.to_nat (Z.log2 c)) c EmptyString.

(** [str(n)] for a Python [int]. *)
Definition str_int (n : Z) : string :=
  if n <? 0 then String "-" (str_nat (- n)) else str_nat n.

(** ["%+d" % n] *)
Definition signed_int (n : Z) : string :=
  if n <? 0 then str_int n else String "+" (str_int n).

Fixpoint zeros (n : nat) : string :=
  match n with O => EmptyString | S n' => String "0" (zeros n') end.

(** [s[:n]] with Python's treatment of a negative bound. *)
Definition slice_to (n : Z) (s : string) : string :=
  let len := Z.of_nat (String.length s) in
  let stop := if n <? 0 then Z.max 0 (len + n) else n in
  String.substring 0 (Z.to_nat stop) s.

(** [s[n:]] for [0 <= n]. *)
Definition slice_from (n : Z) (s : string) : string :=
  String.substring (Z.to_nat n) (String.length s - Z.to_nat n) s.

(** [Decimal.__str__]: scientific notation, capitals. *)
Definition dec_str (d : decimal) : string :=
  let sign := if dsign d then "-"%string else EmptyString in
  let int_ := str_nat (dcoef d) in
  let len := ndigits (dcoef d) in
  let leftdigits := dexp d + len in
  let dotplace :=
    if (dexp d <=? 0) && (-6 <? leftdigits) then leftdigits else 1 in
  let intpart :=
    if dotplace <=? 0 then "0"%string
    else if len <=? dotplace then (int_ ++ zeros (Z.to_nat (dotplace - len)))%string
    else slice_to dotplace int_ in
  let fracpart :=
    if dotplace <=? 0 then ("." ++ zeros (Z.to_nat (- dotplace)) ++ int_)%string
    else if len <=? dotplace then EmptyString
    else ("." ++ slice_from dotplace int_)%string in
  let exp :=
    if leftdigits =? dotplace then EmptyString
    else ("E" ++ signed_int (leftdigits - dotplace))%string in
  (sign ++ intpart ++ fracpart ++ exp)%string.

(** ** The decimal context of a process *)

(** [MAX_PREC] of the [decimal] module, and the largest [ssize_t], on a
    64-bit build. *)
Definition MAX_PREC : Z := 999999999999999999.
Definition SSIZE_MAX : Z := 9223372036854775807.

(** What the setter of [prec] refuses: an [int] that does not fit a
    [ssize_t] is an [OverflowError], one outside [1, MAX_PREC] a
    [ValueError]. *)
Definition prec_check (p : Z) : option exn :=
  if (p <? - SSIZE_MAX - 1) || (SSIZE_MAX <? p) then Some OverflowError
  else if (p <? 1) || (MAX_PREC <? p) then Some ValueError
  else None.

(** [getcontext().prec = p]: a refused value leaves the context as it
    is. *)
Definition set_prec (p : Z) : M context unit :=
  fun c => match prec_check p with
           | Some e => (Raise e, c)
           | None => (Ok tt, Ctx p (Emax c) (Emin c))
           end.

(** Run a decimal operation under the current context. *)
Definition under_ctx {A} (f : context -> result A) : M context A :=
  fun c => (f c, c).

(** ** bbp_algo.py *)

(** [16 ** k] is an [int] only for [k >= 0]; for a negative [k] it is a
    [float], which [Decimal.__truediv__] refuses. *)
Definition bbp_term (k : Z) : M context decimal :=
  if k <? 0 then raise TypeError
  else
    let* p := under_ctx (fun c => dec_div c (Decimal 1) (Decimal (16 ^ k))) in
    let* a1 := under_ctx (fun c => dec_div c (Decimal 4) (Decimal (8 * k + 1))) in
    let* a2 := under_ctx (fun c => dec_div c (Decimal 2) (Decimal (8 * k + 4))) in
    let* s1 := under_ctx (fun c => dec_sub c a1 a2) in
    let* a3 := under_ctx (fun c => dec_div c (Decimal 1) (Decimal (8 * k + 5))) in
    let* s2 := under_ctx (fun c => dec_sub c s1 a3) in
    let* a4 := under_ctx (fun c => dec_div c (Decimal 1) (Decimal (8 * k + 6))) in
    let* s3 := under_ctx (fun c => dec_sub c s2 a4) in
    under_ctx (fun c => dec_mul c p s3).

(** [pi += bbp_term(k)] *)
Definition bbp_step (acc : decimal) (k : Z) : M context decimal :=
  let* t := bbp_term k in
  under_ctx (fun c => dec_add c acc t).

(** [str(+pi)[:digits + 2]] *)
Definition format_pi (digits : Z) (pi : decimal) : M context string :=
  let* r := under_ctx (fun c => dec_pos c pi) in
  ret (slice_to (digits + 2) (dec_str r)).

Definition bbp_serial (digits : Z) : M context string :=
  run* set_prec (digits + 10) in
  let* pi := for_fold bbp_step (seqZ 0 digits) (Decimal 0) in
  format_pi digits pi.

(** ** Python built-ins used by the parallel paths *)

(** [range(start, stop, step)]; a zero step is a [ValueError]. *)
Definition py_range (start stop step : Z) : result (list Z) :=
  if step =? 0 then Raise ValueError
  else
    let n := if 0 <? step then (stop - start + step - 1) / step
             else (start - stop - step - 1) / (- step) in
    Ok ((fun i => start + i * step) <$> seqZ 0 n).

(** A Python number held by [sum]: the [int] it starts from, or a
    [Decimal] once one has been added. *)
Inductive pynum : Type :=
| PInt (n : Z)
| PDec (d : decimal).

(** [a + x] for a [Decimal] [x]: an [int] on the left is converted by
    [Decimal.__radd__], which computes [x + Decimal(a)]. *)
Definition pynum_add_dec (c : context) (a : pynum) (x : decimal)
  : result pynum :=
  match a with
  | PInt n => match dec_add c x (Decimal n) with
              | Ok r => Ok (PDec r) | Raise e => Raise e end
  | PDec d => match dec_add c d x with
              | Ok r => Ok (PDec r) | Raise e => Raise e end
  end.

(** [str(+pi)[:digits + 2]] for the value returned by [sum]. *)
Definition format_num (digits : Z) (pi : pynum) : M context string :=
  match pi with
  | PInt n => ret (slice_to (digits + 2) (str_int n))
  | PDec d => format_pi digits d
  end.

(** [return_dict[idx]]: a missing key is a [KeyError]. *)
Definition dict_get {S V} (d : gmap nat V) (idx : nat) : M S V :=
  match d !! idx with
  | Some v => ret v
  | None => raise KeyError
  end.

(** [enumerate(xs)] *)
Definition enumerate {X} (xs : list X) : list (nat * X) :=
  imap (fun i x => (i, x)) xs.

(** ** Worker processes *)

(** What a child process starts from and whether it dies before writing
    its slot.  [multiprocessing] gives every child its own copy of the
    interpreter state: nothing it assigns reaches the parent except
    through the managed dictionary. *)
Record children (S : Type) : Type :=
  Children { child_state : nat -> S; child_killed : nat -> bool }.
Arguments Children {S} _ _.
Arguments child_state {S} _ _.
Arguments child_killed {S} _ _.

(** [p.start(); ...; p.join()] for the child [idx] running [target] on the
    managed dictionary [d]: a child that is killed or raises leaves the
    dictionary as it found it. *)
Definition run_child {S V} (ch : children S) (idx : nat)
    (target : gmap nat V -> M S (gmap nat V)) (d : gmap nat V)
  : gmap nat V :=
  if child_killed ch idx then d
  else match target d (child_state ch idx) with
       | (Ok d', _) => d'
       | (Raise _, _) => d
       end.

(** ** bbp_algo.py, parallel path *)

Definition _bbp_worker (start end_ digits : Z) (return_dict : gmap nat decimal)
    (idx : nat) : M context (gmap nat decimal) :=
  run* set_prec (digits + 10) in
  let* partial := for_fold bbp_step (seqZ start (end_ - start)) (Decimal 0) in
  ret (<[idx := partial]> return_dict).

Definition bbp_chunks (digits chunk_size : Z) : result (list (Z * Z)) :=
  match py_range 0 digits chunk_size with
  | Ok starts => Ok ((fun i => (i, Z.min (i + chunk_size) digits)) <$> starts)
  | Raise e => Raise e
  end.

(** The dictionary after all children have been started and joined. *)
Definition bbp_jobs (ch : children context) (digits : Z)
    (chunks : list (Z * Z)) : gmap nat decimal :=
  foldl (fun d '(idx, (start, end_)) =>
           run_child ch idx (fun d => _bbp_worker start end_ digits d idx) d)
        ∅ (enumerate chunks).

(** [sum(return_dict[idx] for idx in range(n))] *)
Definition sum_dict (return_dict : gmap nat decimal) (n : nat)
  : M context pynum :=
  for_fold (fun acc idx =>
              let* x := dict_get return_dict idx in
              under_ctx (fun c => pynum_add_dec c acc x))
           (seq 0 n) (PInt 0).

Definition bbp_parallel (ch : children context) (digits chunk_size : Z)
  : M context string :=
  run* set_prec (digits + 10) in
  let* chunks := lift (bbp_chunks digits chunk_size) in
  let return_dict := bbp_jobs ch digits chunks in
  let* pi := sum_dict return_dict (length chunks) in
  format_num digits pi.

(** ** monte_carlo.py *)

Section Sampling.

(** The pseudo-random generator of the [random] module and the float
    operations of the membership test are taken as given. *)
Variable float : Type.
Variable rng : Type.
Variable random : rng -> float * rng.
Variable fmul fadd : float -> float -> float.
Variable fle_one : float -> bool.

(** The state of one process: its decimal context and the state of its
    [random] module. *)
Record process : Type := Process { p_ctx : context; p_rng : rng }.

Definition with_ctx {A} (m : M context A) : M process A :=
  fun s => let '(r, c) := m (p_ctx s) in (r, Process c (p_rng s)).

Definition random_random : M process float :=
  fun s => let '(x, g) := random (p_rng s) in (Ok x, Process (p_ctx s) g).

(** One iteration of the sampling loop. *)
Definition sample_step (inside : Z) (_ : Z) : M process Z :=
  let* x := random_random in
  let* y := random_random in
  if fle_one (fadd (fmul x x) (fmul y y)) then ret (inside + 1)
  else ret inside.

(** [str(+pi)[:digits + 2]] with
    [pi = Decimal(4) * Decimal(inside) / Decimal(total_samples)]. *)
Definition mc_result (digits inside total_samples : Z) : M context string :=
  let* n := under_ctx (fun c => dec_mul c (Decimal 4) (Decimal inside)) in
  let* pi := under_ctx (fun c => dec_div c n (Decimal total_samples)) in
  format_pi digits pi.

Definition monte_carlo_serial (digits samples_per_digit : Z)
  : M process string :=
  run* with_ctx (set_prec (digits + 2)) in
  let total_samples := digits * samples_per_digit in
  let* inside := for_fold sample_step (seqZ 0 total_samples) 0 in
  with_ctx (mc_result digits inside total_samples).

Definition _mc_worker (samples : Z) (return_dict : gmap nat Z) (idx : nat)
  : M process (gmap nat Z) :=
  let* inside := for_fold sample_step (seqZ 0 samples) 0 in
  ret (<[idx := inside]> return_dict).

Definition mc_chunks (total_samples chunk_size : Z) : result (list (Z * Z)) :=
  match py_range 0 total_samples chunk_size with
  | Ok starts =>
      Ok ((fun i => (i, Z.min chunk_size (total_samples - i))) <$> starts)
  | Raise e => Raise e
  end.

Definition mc_jobs (ch : children process) (chunks : list (Z * Z))
  : gmap nat Z :=
  foldl (fun d '(idx, (start, size)) =>
           run_child ch idx (fun d => _mc_worker size d idx) d)
        ∅ (enumerate chunks).

(** [sum(return_dict[idx] for idx in range(n))] over [int]s. *)
Definition sum_hits {S} (return_dict : gmap nat Z) (n : nat) : M S Z :=
  for_fold (fun acc idx =>
              let* x := dict_get return_dict idx in ret (acc + x))
           (seq 0 n) 0.

Definition monte_carlo_parallel (ch : children process)
    (digits samples_per_digit chunk_size : Z) : M process string :=
  run* with_ctx (set_prec (digits + 2)) in
  let total_samples := digits * samples_per_digit in
  let* chunks := lift (mc_chunks total_samples chunk_size) in
  let return_dict := mc_jobs ch chunks in
  let* inside := sum_hits return_dict (length chunks) in
  with_ctx (mc_result digits inside total_samples).

(** ** main_gui.py: [PiCalcWorker.run] *)

Inductive algo : Type := BBP | MonteCarlo.

(** What the worker thread emits. *)
Inductive signal : Type :=
| result_ready (pi_serial pi_parallel : string)
| error (e : exn).

(** The computations of [run]: warm-up, serial run, parallel run and the
    check of the first 102 characters. *)
Definition run_body {W} (serial_func parallel_func : Z -> M W string)
    (digits : Z) : M W (string * string) :=
  run* serial_func 10 in
  run* parallel_func 10 in
  let* pi_serial := serial_func digits in
  let* pi_parallel := parallel_func digits in
  let* pi_parallel :=
    (if String.eqb (slice_to 102 pi_serial) (slice_to 102 pi_parallel)
     then ret pi_parallel
     else parallel_func digits) in
  ret (pi_serial, pi_parallel).

(** [try: ... except Exception as e: self.signals.error.emit(...)] *)
Definition run_with {W} (serial_func parallel_func : Z -> M W string)
    (digits : Z) (w : W) : signal * W :=
  match run_body serial_func parallel_func digits w with
  | (Ok (s, p), w') => (result_ready s p, w')
  | (Raise e, w') => (error e, w')
  end.

(** The state [run] works on: the process of the GUI and the number of
    worker pools it has started so far, which selects the children of the
    next one. *)
Record world : Type := World { w_proc : process; w_pools : nat }.

Definition in_proc {A} (m : M process A) : M world A :=
  fun w => let '(r, p) := m (w_proc w) in (r, World p (w_pools w)).

(** A parallel entry point started from [run]: the pool [w_pools w]. *)
Definition in_pool {A} (m : nat -> M process A) : M world A :=
  fun w => let '(r, p) := m (w_pools w) (w_proc w) in
           (r, World p (S (w_pools w))).

(** The parallel entry points are called with their default chunk sizes
    and sample counts. *)
Definition run (chb : nat -> children context)
    (chm : nat -> children process) (a : algo) (digits : Z)
  : world -> signal * world :=
  match a with
  | BBP =>
      run_with
        (fun n => in_proc (with_ctx (bbp_serial n)))
        (fun n => in_pool (fun i => with_ctx (bbp_parallel (chb i) n 100)))
        digits
  | MonteCarlo =>
      run_with
        (fun n => in_proc (monte_carlo_serial n 2000))
        (fun n => in_pool (fun i => monte_carlo_parallel (chm i) n 2000 250000))
        digits
  end.

End Sampling.

Arguments Process {rng} _ _.
Arguments p_ctx {rng} _.
Arguments p_rng {rng} _.
Arguments with_ctx {rng A} _ _.
Arguments random_random {float rng} _ _.
Arguments sample_step {float rng} _ _ _ _ _ _.
Arguments monte_carlo_serial {float rng} _ _ _ _ _ _.
Arguments _mc_worker {float rng} _ _ _ _ _ _ _.
Arguments mc_jobs {float rng} _ _ _ _ _ _.
Arguments monte_carlo_parallel {float rng} _ _ _ _ _ _ _ _.
Arguments World {rng} _ _.
Arguments w_proc {rng} _.
Arguments w_pools {rng} _.
Arguments in_proc {rng A} _ _.
Arguments in_pool {rng A} _ _.
Arguments run {float rng} _ _ _ _ _ _ _ _ _.

(** ** A generator for the examples

    A small linear congruential generator over fixed-point numbers with 16
    fractional bits, standing for the [random] module where an example has
    to run the sampling code. *)

Module Lcg.
Definition one : Z := 65536.
Definition random (g : Z) : Z * Z :=
  let g' := (g * 75 + 74) mod 65537 in (g' mod one, g').
Definition fmul (x y : Z) : Z := x * y / one.
Definition fadd (x y : Z) : Z := x + y.
Definition fle_one (x : Z) : bool := x <=? one.
End Lcg.

(** ** What the theorems are stated with *)

(** The rational number a [Decimal] stands for. *)
Definition dmag (d : decimal) : Q := (inject_Z (dcoef d) * 10 ^ dexp d)%Q.
Definition dval (d : decimal) : Q :=
  if dsign d then (- dmag d)%Q else dmag d.

(** A [Decimal] the context leaves as it is: the results of all context
    operations are of this kind. *)
Definition canonical (c : context) (d : decimal) : Prop :=
  0 <= dcoef d /\ fix_ c d = Ok d.

(** Contexts the [decimal] module accepts. *)
Definition valid_context (c : context) : Prop :=
  1 <= prec c /\ 0 <= Emax c /\ Emin c <= 0.


(** [m] leaves the part [f] of the state as it found it. *)
Definition keeps {S T A} (f : S -> T) (m : M S A) : Prop :=
  forall s, f (snd (m s)) = f s.

(** What [getcontext().prec = p] followed by context-preserving code
    leaves behind. *)
Definition prec_set (p : Z) (c : context) : context :=
  match prec_check p with
  | Some _ => c
  | None => Ctx p (Emax c) (Emin c)
  end.

(** A target that only ever writes the slot [i]. *)
Definition writes_only {S V} (i : nat) (target : gmap nat V -> M S (gmap nat V))
  : Prop :=
  forall d s d' s', target d s = (Ok d', s') -> exists v, d' = <[i := v]> d.

(** [units] is an ordered sequence of non-empty, contiguous half-open
    ranges that starts at 0 and ends at [total]. *)
Definition contiguous (total : Z) (units : list (Z * Z)) : Prop :=
  (exists e, units !! 0%nat = Some (0, e)) /\
  (forall i s e, units !! i = Some (s, e) -> s < e) /\
  (forall i s e s' e',
      units !! i = Some (s, e) -> units !! S i = Some (s', e') -> s' = e) /\
  (exists s, last units = Some (s, total)).

(** Every index of [0, total) lies in exactly one range of [units], and
    no range reaches outside [0, total). *)
Definition covers_once (total : Z) (units : list (Z * Z)) : Prop :=
  (forall k, 0 <= k < total ->
     exists i s e, units !! i = Some (s, e) /\ s <= k < e /\
       forall j s' e', units !! j = Some (s', e') -> s' <= k < e' -> j = i) /\
  (forall i s e, units !! i = Some (s, e) -> 0 <= s /\ e <= total).

(** ** The exact results the decimal operations round *)

(** The argument [dec_add] hands to [_fix]. *)
Definition add_exact (a b : decimal) : decimal :=
  let e := Z.min (dexp a) (dexp b) in
  if (dcoef a =? 0) && (dcoef b =? 0) then Dec (dsign a && dsign b) 0 e
  else let s := scaled a e + scaled b e in Dec (s <? 0) (Z.abs s) e.

Definition mul_exact (a b : decimal) : decimal :=
  Dec (xorb (dsign a) (dsign b)) (dcoef a * dcoef b) (dexp a + dexp b).

(** The argument [dec_div] hands to [_fix] when the divisor is not zero. *)
Definition div_exact (c : context) (a b : decimal) : decimal :=
  let sign := xorb (dsign a) (dsign b) in
  if dcoef a =? 0 then Dec sign 0 (dexp a - dexp b)
  else
    let shift := ndigits (dcoef b) - ndigits (dcoef a) + prec c + 1 in
    let exp := dexp a - dexp b - shift in
    let '(coeff, remainder) :=
      if 0 <=? shift
      then Z.div_eucl (dcoef a * 10 ^ shift) (dcoef b)
      else Z.div_eucl (dcoef a) (dcoef b * 10 ^ (- shift)) in
    if remainder =? 0 then
      let '(coeff, exp) := strip_zeros (Z.to_nat shift) coeff exp in
      Dec sign coeff exp
    else Dec sign (if coeff mod 5 =? 0 then coeff + 1 else coeff) exp.

(** The operands of the integer division in [__truediv__]. *)
Definition quot_num (ca shift : Z) : Z :=
  if 0 <=? shift then ca * 10 ^ shift else ca.
Definition quot_den (cb shift : Z) : Z :=
  if 0 <=? shift then cb else cb * 10 ^ (- shift).

(** The exponent bound of a term: [-k] while that is within the exponent
    range, else [0]. *)
Definition term_scale (c : context) (k : Z) : Z :=
  if Etiny c <=? - k then k else 0.

Definition pi_expansion : string :=
  "3.14159265358979323846264338327950288419716939937510".

Definition result_is (r : result string) (s : string) : bool :=
  match r with Ok r => String.eqb r s | Raise _ => false end.

(** Bounds of the sum of the first [n] terms: [1.8 + 5 * 10^-n] and
    [3.8 - 5 * 10^-n], as decimals of [n + 1] digits. *)
Definition sum_lo (n : Z) : decimal := Dec false (18 * 10 ^ (n - 1) + 5) (- n).
Definition sum_hi (n : Z) : decimal := Dec false (38 * 10 ^ (n - 1) - 5) (- n).

(** Children that all run to the end, in contexts with the exponent
    limits of the parent's. *)
Definition healthy (c : context) (ch : children context) : Prop :=
  forall idx,
    child_killed ch idx = false /\
    Emax (child_state ch idx) = Emax c /\ Emin (child_state ch idx) = Emin c.

(** [pi = Decimal(4) * Decimal(inside) / Decimal(total_samples)], the
    estimate of both sampling paths before it is rendered. *)
Definition mc_estimate (c : context) (inside total_samples : Z)
  : result decimal :=
  match dec_mul c (Decimal 4) (Decimal inside) with
  | Ok n => dec_div c n (Decimal total_samples)
  | Raise e => Raise e
  end.

(** An integer the context holds without rounding. *)
Definition exact_at (c : context) (v : Z) : Prop :=
  exists m e, v = m * 10 ^ e /\ 0 <= e /\ canonical c (Dec false m e).

(** The relative rounding unit [10^(1 - prec)] of a context and the
    spacing [10^Etiny] of its smallest numbers. *)
Definition rel_unit (c : context) : Q := (10 ^ (1 - prec c))%Q.
Definition abs_unit (c : context) : Q := (10 ^ Etiny c)%Q.

(** The summand of the series as the specification writes it:
    [16^-k * (4/(8k+1) - 2/(8k+4) - 1/(8k+5) - 1/(8k+6))], a rational
    number. *)
Definition bbp_term_exact (k : Z) : Q :=
  (1 / inject_Z (16 ^ k)
   * (4 / inject_Z (8 * k + 1) - 2 / inject_Z (8 * k + 4)
      - 1 / inject_Z (8 * k + 5) - 1 / inject_Z (8 * k + 6)))%Q.

(** The sum of the first [n] summands of the series, a rational number. *)
Fixpoint bbp_sum_exact (n : nat) : Q :=
  match n with
  | O => 0
  | S m => bbp_sum_exact m + bbp_term_exact (Z.of_nat m)
  end.

(** ** The series over the real numbers *)

Section RealDefs.
Import Reals.
Local Open Scope R_scope.

(** The summand as a function of [y]: at [y = 1] it is the summand of the
    series. *)
Definition bbp_R (k : nat) (y : R) : R :=
  (/ 16) ^ k *
  (4 * (y ^ S (8 * k) / INR (S (8 * k)))
   - 2 * (y ^ S (8 * k + 3) / INR (S (8 * k + 3)))
   - y ^ S (8 * k + 4) / INR (S (8 * k + 4))
   - y ^ S (8 * k + 5) / INR (S (8 * k + 5))).

Definition bbp_R' (k : nat) (y : R) : R :=
  (/ 16) ^ k *
  (4 * y ^ (8 * k) - 2 * y ^ (8 * k + 3) - y ^ (8 * k + 4) - y ^ (8 * k + 5)).

Definition bbp_sum_R (N : nat) (y : R) : R := sum_f_R0 (fun k => bbp_R k y) N.
Definition bbp_sum_R' (N : nat) (y : R) : R :=
  sum_f_R0 (fun k => bbp_R' k y) N.

(** A primitive of the limit of the derivatives: it is [- PI] at 0 and 0
    at 1. *)
Definition bbp_H (y : R) : R :=
  2 * ln (2 - y ^ 2) - 2 * ln (y ^ 2 - 2 * y + 2) + 4 * atan (y - 1).

Definition bbp_H' (y : R) : R :=
  2 * (/ (2 - y ^ 2) * (- (2 * y)))
  - 2 * (/ (y ^ 2 - 2 * y + 2) * (2 * y - 2))
  + 4 * (/ (1 + (y - 1) ^ 2) * 1).

(** The distance from pi that [bbp_serial digits] guarantees: one unit of
    the last decimal for the truncation, the rounding of the loop, and the
    rest of the series. *)
Definition serial_bound (digits : Z) : R :=
  (/ 10) ^ Z.to_nat digits
  + (107 + 105 * IZR digits) * (/ 10) ^ (Z.to_nat digits + 9)
  + 4 * (/ 16) ^ Z.to_nat digits.

End RealDefs.

(** * Properties *)

(** ** The task partitioner *)

Lemma py_range_forward (total step : Z) :
  0 < step ->
  py_range 0 total step
  = Ok ((fun i => 0 + i * step) <$> seqZ 0 ((total + step - 1) / step)).
Proof.
  intros Hs. unfold py_range.
  destruct (Z.eqb_spec step 0) as [->|_]; [lia|].
  destruct (Z.ltb_spec 0 step); [|lia].
  now rewrite Z.sub_0_r.
Qed.

Lemma bbp_chunks_forward (total c : Z) :
  0 < c ->
  bbp_chunks total c
  = Ok ((fun i => (i * c, Z.min (i * c + c) total))
          <$> seqZ 0 ((total + c - 1) / c)).
Proof.
  intros Hc. unfold bbp_chunks. rewrite py_range_forward by done.
  f_equal. rewrite <- list_fmap_compose. apply list_fmap_ext.
  intros i x _. simpl. now rewrite !Z.add_0_l.
Qed.

Lemma mc_chunks_forward (total c : Z) :
  0 < c ->
  mc_chunks total c
  = Ok ((fun i => (i * c, Z.min c (total - i * c)))
          <$> seqZ 0 ((total + c - 1) / c)).
Proof.
  intros Hc. unfold mc_chunks. rewrite py_range_forward by done.
  f_equal. rewrite <- list_fmap_compose. apply list_fmap_ext.
  intros i x _. simpl. now rewrite !Z.add_0_l.
Qed.

(** The number of units is the ceiling of [total / c]. *)
Lemma ceil_div_spec (total c : Z) :
  1 <= total -> 1 <= c ->
  let n := (total + c - 1) / c in
  1 <= n /\ (n - 1) * c < total <= n * c.
Proof.
  intros Ht Hc n.
  pose proof (Z.div_mod (total + c - 1) c ltac:(lia)) as Hd.
  pose proof (Z.mod_pos_bound (total + c - 1) c ltac:(lia)) as Hm.
  fold n in Hd. nia.
Qed.

Lemma unit_lookup (total c : Z) (i : nat) (s e : Z) :
  ((fun i => (i * c, Z.min (i * c + c) total))
     <$> seqZ 0 ((total + c - 1) / c)) !! i = Some (s, e) <->
  Z.of_nat i < (total + c - 1) / c /\
  s = Z.of_nat i * c /\ e = Z.min (Z.of_nat i * c + c) total.
Proof.
  rewrite list_lookup_fmap. split.
  - destruct (seqZ _ _ !! i) as [x|] eqn:E; [|done].
    apply lookup_seqZ in E as [-> ?]. simpl. intros [= <- <-].
    rewrite Z.add_0_l. auto.
  - intros (Hi & -> & ->). rewrite lookup_seqZ_lt by done.
    simpl. now rewrite Z.add_0_l.
Qed.

(** C5.  For [total_work >= 1] and [chunk_size >= 1] both parallel paths
    build the same work units (the digit series as [(start, end)], the
    sampling path as [(start, size)]): an ordered sequence of contiguous
    half-open ranges covering [0, total_work) exactly once, with
    [ceil(total_work / chunk_size)] units, each of length [chunk_size]
    except possibly the last, and a single unit when
    [chunk_size >= total_work]. *)
Theorem partition_covers (total chunk_size : Z) :
  1 <= total -> 1 <= chunk_size ->
  exists units : list (Z * Z),
    bbp_chunks total chunk_size = Ok units /\
    mc_chunks total chunk_size = Ok ((fun '(s, e) => (s, e - s)) <$> units) /\
    contiguous total units /\
    covers_once total units /\
    (let n := Z.of_nat (length units) in
     (n - 1) * chunk_size < total <= n * chunk_size) /\
    (forall i s e, units !! i = Some (s, e) ->
       (S i < length units)%nat -> e - s = chunk_size) /\
    (forall s e, last units = Some (s, e) -> 0 < e - s <= chunk_size) /\
    (total <= chunk_size -> length units = 1%nat).
Proof.
  intros Ht Hc.
  destruct (ceil_div_spec total chunk_size Ht Hc) as (Hn1 & Hlo & Hhi).
  set (n := (total + chunk_size - 1) / chunk_size) in *.
  set (units := (fun i => (i * chunk_size, Z.min (i * chunk_size + chunk_size) total))
                  <$> seqZ 0 n).
  assert (Hlen : Z.of_nat (length units) = n).
  { unfold units. rewrite length_fmap, length_seqZ. lia. }
  assert (Hlk : forall i s e, units !! i = Some (s, e) <->
            Z.of_nat i < n /\ s = Z.of_nat i * chunk_size /\
            e = Z.min (Z.of_nat i * chunk_size + chunk_size) total).
  { intros. apply unit_lookup. }
  assert (Hlast : forall s e, last units = Some (s, e) ->
            s = (n - 1) * chunk_size /\ e = total).
  { intros s e. rewrite last_lookup. intros H%Hlk.
    replace (Z.of_nat (Nat.pred (length units))) with (n - 1) in H by lia.
    destruct H as (_ & -> & ->). split; [done|]. lia. }
  exists units. repeat split.
  - apply bbp_chunks_forward. lia.
  - rewrite mc_chunks_forward by lia. f_equal. unfold units.
    rewrite <- list_fmap_compose. apply list_fmap_ext.
    intros i x _. simpl. f_equal. lia.
  - exists (Z.min (0 * chunk_size + chunk_size) total).
    apply (Hlk 0%nat). simpl. lia.
  - intros i s e (Hi & -> & ->)%Hlk. nia.
  - intros i s e s' e' (Hi & -> & ->)%Hlk (Hi' & -> & ->)%Hlk. nia.
  - exists ((n - 1) * chunk_size). rewrite last_lookup.
    apply Hlk. split; [lia|]. split; [f_equal; lia|]. nia.
  - intros k Hk.
    exists (Z.to_nat (k / chunk_size)), (k / chunk_size * chunk_size),
      (Z.min (k / chunk_size * chunk_size + chunk_size) total).
    pose proof (Z.div_mod k chunk_size ltac:(lia)) as Hd.
    pose proof (Z.mod_pos_bound k chunk_size ltac:(lia)) as Hm.
    assert (0 <= k / chunk_size) by (apply Z.div_pos; lia).
    assert (k / chunk_size < n) by nia.
    split; [|split].
    + apply Hlk. rewrite Z2Nat.id by lia. auto.
    + nia.
    + intros j s' e' (Hj & -> & ->)%Hlk Hin.
      assert (Z.of_nat j = k / chunk_size) by nia. lia.
  - apply Hlk in H as (Hi & -> & _). nia.
  - apply Hlk in H as (Hi & _ & ->). nia.
  - rewrite Hlen. lia.
  - rewrite Hlen. lia.
  - intros i s e (Hi & -> & ->)%Hlk Hlt. nia.
  - apply Hlast in H as [-> ->]. nia.
  - apply Hlast in H as [-> ->]. nia.
  - intros Hle. assert (n = 1) by nia. lia.
Qed.

(** The partition of a request of 7 terms in chunks of 3. *)
Lemma partition_covers_witness :
  1 <= 7 /\ 1 <= 3 /\
  exists units : list (Z * Z),
    bbp_chunks 7 3 = Ok units /\
    mc_chunks 7 3 = Ok ((fun '(s, e) => (s, e - s)) <$> units) /\
    contiguous 7 units /\
    covers_once 7 units /\
    (let n := Z.of_nat (length units) in (n - 1) * 3 < 7 <= n * 3) /\
    (forall i s e, units !! i = Some (s, e) ->
       (S i < length units)%nat -> e - s = 3) /\
    (forall s e, last units = Some (s, e) -> 0 < e - s <= 3) /\
    (7 <= 3 -> length units = 1%nat).
Proof.
  split; [lia|]. split; [lia|]. apply (partition_covers 7 3); lia.
Defined.

(** ** The monad and the loops *)

Lemma keeps_ret {S T A} (f : S -> T) (a : A) : keeps f (ret a).
Proof. now intros s. Qed.

Lemma keeps_raise {S T A} (f : S -> T) (e : exn) : keeps f (@raise S A e).
Proof. now intros s. Qed.

Lemma keeps_lift {S T A} (f : S -> T) (r : result A) : keeps f (lift r).
Proof. now intros s. Qed.

Lemma keeps_bind {S T A B} (f : S -> T) (m : M S A) (k : A -> M S B) :
  keeps f m -> (forall a, keeps f (k a)) -> keeps f (bind m k).
Proof.
  intros Hm Hk s. unfold bind. specialize (Hm s).
  destruct (m s) as [[a|e] s']; simpl in *.
  - now rewrite Hk.
  - done.
Qed.

Lemma keeps_for_fold {S T A X} (f : S -> T) (body : A -> X -> M S A) xs acc :
  (forall a x, keeps f (body a x)) -> keeps f (for_fold body xs acc).
Proof.
  intros Hb. revert acc. induction xs as [|x xs IH]; intros acc; simpl.
  - apply keeps_ret.
  - apply keeps_bind; auto.
Qed.

Lemma keeps_under_ctx {A} (g : context -> result A) : keeps id (under_ctx g).
Proof. now intros s. Qed.

Lemma keeps_dict_get {S T V} (f : S -> T) (d : gmap nat V) idx :
  keeps f (dict_get d idx).
Proof. unfold dict_get. destruct (d !! idx); [apply keeps_ret|apply keeps_raise]. Qed.

Create HintDb keeps.
#[export] Hint Resolve keeps_ret keeps_raise keeps_lift keeps_under_ctx
  keeps_dict_get : keeps.

Ltac keeps_tac :=
  repeat first
    [ apply keeps_bind; [|intros ?]
    | apply keeps_for_fold; intros ? ?
    | progress auto with keeps
    | match goal with |- keeps _ (if ?b then _ else _) => destruct b end
    | match goal with |- keeps _ (match ?x with _ => _ end) => destruct x end ].

Lemma keeps_bbp_term k : keeps id (bbp_term k).
Proof. unfold bbp_term. keeps_tac. Qed.

Lemma keeps_bbp_step acc k : keeps id (bbp_step acc k).
Proof. unfold bbp_step. keeps_tac. apply keeps_bbp_term. Qed.

Lemma keeps_format_pi digits pi : keeps id (format_pi digits pi).
Proof. unfold format_pi. keeps_tac. Qed.

Lemma keeps_format_num digits pi : keeps id (format_num digits pi).
Proof. destruct pi; simpl; [apply keeps_ret|apply keeps_format_pi]. Qed.

Lemma keeps_sum_dict d n : keeps id (sum_dict d n).
Proof. unfold sum_dict. keeps_tac. Qed.

#[export] Hint Resolve keeps_bbp_term keeps_bbp_step keeps_format_pi
  keeps_format_num keeps_sum_dict : keeps.

Ltac prec_cases :=
  unfold prec_check;
  repeat match goal with
         | |- context [?a <? ?b] => destruct (Z.ltb_spec a b)
         end;
  cbn [orb]; unfold MAX_PREC, SSIZE_MAX in *; try done; try lia.

Lemma prec_check_ok (p : Z) : 1 <= p <= MAX_PREC -> prec_check p = None.
Proof. intros H. prec_cases. Qed.

Lemma prec_check_inv (p : Z) : prec_check p = None -> 1 <= p <= MAX_PREC.
Proof. prec_cases. Qed.

Lemma prec_check_big (p : Z) :
  MAX_PREC < p <= SSIZE_MAX -> prec_check p = Some ValueError.
Proof. intros H. prec_cases. Qed.

Lemma set_prec_then {A} (p : Z) (k : M context A) (c : context) :
  keeps id k ->
  snd (bind (set_prec p) (fun _ => k) c) = prec_set p c /\
  (forall e, prec_check p = Some e ->
             fst (bind (set_prec p) (fun _ => k) c) = Raise e) /\
  (prec_check p = None ->
   fst (bind (set_prec p) (fun _ => k) c) = fst (k (Ctx p (Emax c) (Emin c)))).
Proof.
  intros Hk. unfold bind, set_prec, prec_set.
  destruct (prec_check p) as [e|]; simpl.
  - repeat split; try done. now intros e' [= ->].
  - specialize (Hk (Ctx p (Emax c) (Emin c))).
    destruct (k _) as [[a|e] s']; simpl in *; repeat split; done.
Qed.

Lemma bbp_serial_body_keeps digits :
  keeps id (let* pi := for_fold bbp_step (seqZ 0 digits) (Decimal 0) in
            format_pi digits pi).
Proof. keeps_tac. Qed.

Lemma bbp_parallel_body_keeps ch digits chunk_size :
  keeps id (let* chunks := lift (bbp_chunks digits chunk_size) in
            let return_dict := bbp_jobs ch digits chunks in
            let* pi := sum_dict return_dict (length chunks) in
            format_num digits pi).
Proof. keeps_tac. Qed.

Lemma bbp_serial_ctx digits c :
  snd (bbp_serial digits c) = prec_set (digits + 10) c.
Proof. apply set_prec_then, bbp_serial_body_keeps. Qed.

Lemma bbp_parallel_ctx ch digits chunk_size c :
  snd (bbp_parallel ch digits chunk_size c) = prec_set (digits + 10) c.
Proof. apply (set_prec_then _ _ c (bbp_parallel_body_keeps ch digits chunk_size)). Qed.

Lemma set_prec_returns {A} (p : Z) (k : M context A) (c : context) a c' :
  keeps id k ->
  bind (set_prec p) (fun _ => k) c = (Ok a, c') ->
  1 <= p <= MAX_PREC /\ c' = Ctx p (Emax c) (Emin c).
Proof.
  intros Hk E. destruct (set_prec_then p k c Hk) as (Hs & Hlt & _).
  rewrite E in Hs, Hlt. simpl in *. unfold prec_set in Hs.
  destruct (prec_check p) as [e|] eqn:Hp; [now specialize (Hlt e eq_refl)|].
  split; [now apply prec_check_inv|done].
Qed.

(** The sampling code by its own names, for the sections that abbreviate
    it. *)
Ltac unfold_sample_step := unfold sample_step.
Ltac unfold_mc_worker := unfold _mc_worker.
Ltac unfold_mc_jobs := unfold mc_jobs.
Ltac unfold_mc_serial := unfold monte_carlo_serial.
Ltac unfold_mc_parallel := unfold monte_carlo_parallel.

Section SamplingFacts.

Context {float rng : Type}.
Variable random : rng -> float * rng.
Variable fmul fadd : float -> float -> float.
Variable fle_one : float -> bool.

Abbreviation sample_step := (sample_step random fmul fadd fle_one).
Abbreviation monte_carlo_serial := (monte_carlo_serial random fmul fadd fle_one).
Abbreviation _mc_worker := (_mc_worker random fmul fadd fle_one).
Abbreviation mc_jobs := (mc_jobs random fmul fadd fle_one).
Abbreviation monte_carlo_parallel :=
  (monte_carlo_parallel random fmul fadd fle_one).

Lemma keeps_with_ctx {A} (m : M context A) :
  keeps id m -> keeps (@p_ctx rng) (with_ctx m).
Proof.
  intros Hm s. unfold with_ctx. specialize (Hm (p_ctx s)).
  destruct (m (p_ctx s)) as [r c]. simpl in *. done.
Qed.

Lemma keeps_rng_with_ctx {A} (m : M context A) :
  keeps (@p_rng rng) (with_ctx m).
Proof. intros s. unfold with_ctx. now destruct (m (p_ctx s)). Qed.

Lemma keeps_random_random : keeps (@p_ctx rng) (random_random random).
Proof. intros s. unfold random_random. now destruct (random (p_rng s)). Qed.

Lemma keeps_sample_step inside i : keeps (@p_ctx rng) (sample_step inside i).
Proof.
  unfold_sample_step.
  repeat (apply keeps_bind; [apply keeps_random_random|intros ?]).
  destruct (fle_one _); apply keeps_ret.
Qed.

Lemma keeps_mc_result digits inside total :
  keeps id (mc_result digits inside total).
Proof. unfold mc_result. keeps_tac. Qed.

Lemma keeps_sum_hits {S T} (f : S -> T) (d : gmap nat Z) n :
  keeps f (sum_hits d n).
Proof. unfold sum_hits. keeps_tac. Qed.

(** The sampling worker never touches the decimal context of its
    process. *)
Lemma keeps_mc_worker samples d idx : keeps (@p_ctx rng) (_mc_worker samples d idx).
Proof.
  unfold_mc_worker. apply keeps_bind.
  - apply keeps_for_fold. intros. apply keeps_sample_step.
  - intros. apply keeps_ret.
Qed.

Lemma with_set_prec_then {A} (p : Z) (k : M (process rng) A) (s : process rng) :
  keeps (@p_ctx rng) k ->
  p_ctx (snd (bind (with_ctx (set_prec p)) (fun _ => k) s))
  = prec_set p (p_ctx s) /\
  (forall e, prec_check p = Some e ->
   fst (bind (with_ctx (set_prec p)) (fun _ => k) s) = Raise e) /\
  (prec_check p = None ->
   bind (with_ctx (set_prec p)) (fun _ => k) s
   = k (Process (Ctx p (Emax (p_ctx s)) (Emin (p_ctx s))) (p_rng s))).
Proof.
  intros Hk. unfold bind, with_ctx, set_prec, prec_set.
  destruct (prec_check p) as [e|]; simpl.
  - repeat split; try done. now intros e' [= ->].
  - rewrite Hk. repeat split; done.
Qed.

Lemma mc_serial_body_keeps digits spd :
  keeps (@p_ctx rng)
    (let total_samples := digits * spd in
     let* inside := for_fold sample_step (seqZ 0 total_samples) 0 in
     with_ctx (mc_result digits inside total_samples)).
Proof.
  simpl. apply keeps_bind.
  - apply keeps_for_fold. intros. apply keeps_sample_step.
  - intros. apply keeps_with_ctx, keeps_mc_result.
Qed.

Lemma mc_parallel_body_keeps ch digits spd chunk_size :
  keeps (@p_ctx rng)
    (let total_samples := digits * spd in
     let* chunks := lift (mc_chunks total_samples chunk_size) in
     let return_dict := mc_jobs ch chunks in
     let* inside := sum_hits return_dict (length chunks) in
     with_ctx (mc_result digits inside total_samples)).
Proof.
  simpl. apply keeps_bind; [apply keeps_lift|intros chunks].
  apply keeps_bind; [apply keeps_sum_hits|intros inside].
  apply keeps_with_ctx, keeps_mc_result.
Qed.

Lemma mc_serial_ctx digits spd s :
  p_ctx (snd (monte_carlo_serial digits spd s))
  = prec_set (digits + 2) (p_ctx s).
Proof. apply with_set_prec_then, mc_serial_body_keeps. Qed.

Lemma mc_parallel_ctx ch digits spd chunk_size s :
  p_ctx (snd (monte_carlo_parallel ch digits spd chunk_size s))
  = prec_set (digits + 2) (p_ctx s).
Proof.
  apply (with_set_prec_then _ _ s
           (mc_parallel_body_keeps ch digits spd chunk_size)).
Qed.

Lemma with_set_prec_returns {A} (p : Z) (k : M (process rng) A) s a s' :
  keeps (@p_ctx rng) k ->
  bind (with_ctx (set_prec p)) (fun _ => k) s = (Ok a, s') ->
  1 <= p <= MAX_PREC /\ p_ctx s' = Ctx p (Emax (p_ctx s)) (Emin (p_ctx s)).
Proof.
  intros Hk E. destruct (with_set_prec_then p k s Hk) as (Hs & Hlt & _).
  rewrite E in Hs, Hlt. simpl in *. unfold prec_set in Hs.
  destruct (prec_check p) as [e|] eqn:Hp; [now specialize (Hlt e eq_refl)|].
  split; [now apply prec_check_inv|done].
Qed.

(** C9.  Each of the four entry points leaves the decimal context of the
    calling process changed: once [bbp_serial(digits)] or
    [bbp_parallel(digits)] has returned its precision is [digits + 10],
    and once [monte_carlo_serial(digits)] or [monte_carlo_parallel(digits)]
    has returned it is [digits + 2], whatever it was before the call. *)
Theorem entry_points_change_context
    (chb : children context) (chm : children (process rng))
    (digits chunk_size spd : Z) :
  (forall c r c', bbp_serial digits c = (Ok r, c') ->
                  prec c' = digits + 10) /\
  (forall c r c', bbp_parallel chb digits chunk_size c = (Ok r, c') ->
                  prec c' = digits + 10) /\
  (forall s r s', monte_carlo_serial digits spd s = (Ok r, s') ->
                  prec (p_ctx s') = digits + 2) /\
  (forall s r s',
      monte_carlo_parallel chm digits spd chunk_size s = (Ok r, s') ->
      prec (p_ctx s') = digits + 2).
Proof.
  repeat split.
  - intros c r c' E.
    apply set_prec_returns in E as [_ ->]; [done|].
    apply bbp_serial_body_keeps.
  - intros c r c' E.
    apply set_prec_returns in E as [_ ->]; [done|].
    apply bbp_parallel_body_keeps.
  - intros s r s' E.
    apply with_set_prec_returns in E as [_ ->]; [done|].
    apply mc_serial_body_keeps.
  - intros s r s' E.
    apply with_set_prec_returns in E as [_ ->]; [done|].
    apply mc_parallel_body_keeps.
Qed.

End SamplingFacts.

(** ** Worker failure *)

Lemma bind_raise {S A B} (m : M S A) (k : A -> M S B) s e :
  fst (m s) = Raise e -> fst (bind m k s) = Raise e.
Proof. unfold bind. destruct (m s) as [[a|e'] s']; simpl; congruence. Qed.

Lemma bind_ok {S A B} (m : M S A) (k : A -> M S B) s a s' :
  m s = (Ok a, s') -> bind m k s = k a s'.
Proof. unfold bind. now intros ->. Qed.

Lemma bind_cases {S A B} (m : M S A) (k : A -> M S B) s :
  (exists a s', m s = (Ok a, s') /\ bind m k s = k a s') \/
  (exists e s', m s = (Raise e, s') /\ bind m k s = (Raise e, s')).
Proof.
  unfold bind. destruct (m s) as [[a|e] s']; [left|right]; eauto.
Qed.

(** A loop whose body raises at one of its elements raises. *)
Lemma for_fold_raises {S A X} (body : A -> X -> M S A) (xs : list X) x :
  x ∈ xs ->
  (forall acc s, exists e, fst (body acc x s) = Raise e) ->
  forall acc s, exists e, fst (for_fold body xs acc s) = Raise e.
Proof.
  intros Hin Hx. induction xs as [|y xs IH]; [now apply elem_of_nil in Hin|].
  intros acc s. simpl. unfold bind.
  destruct (body acc y s) as [[a|e] s'] eqn:E; [|simpl; eauto].
  apply elem_of_cons in Hin as [->|Hin].
  - destruct (Hx acc s) as [e He]. rewrite E in He. done.
  - now apply IH.
Qed.

Lemma sum_dict_missing (d : gmap nat decimal) (n idx : nat) c :
  (idx < n)%nat -> d !! idx = None ->
  exists e, fst (sum_dict d n c) = Raise e.
Proof.
  intros Hlt Hnone. unfold sum_dict.
  apply for_fold_raises with (x := idx).
  - apply elem_of_seq. lia.
  - intros acc s. exists KeyError. apply bind_raise.
    unfold dict_get. now rewrite Hnone.
Qed.

Lemma sum_hits_missing {S} (d : gmap nat Z) (n idx : nat) (s : S) :
  (idx < n)%nat -> d !! idx = None ->
  exists e, fst (sum_hits d n s) = Raise e.
Proof.
  intros Hlt Hnone. unfold sum_hits.
  apply for_fold_raises with (x := idx).
  - apply elem_of_seq. lia.
  - intros acc s0. exists KeyError. apply bind_raise.
    unfold dict_get. now rewrite Hnone.
Qed.

(** A child changes at most its own slot, and none when it is killed. *)
Lemma run_child_lookup {S V} (ch : children S) (i idx : nat)
    (target : gmap nat V -> M S (gmap nat V)) (d : gmap nat V) :
  writes_only i target ->
  i <> idx \/ child_killed ch i = true ->
  run_child ch i target d !! idx = d !! idx.
Proof.
  intros Hw H. unfold run_child.
  destruct (child_killed ch i) eqn:K; [done|].
  destruct H as [H|H]; [|done].
  destruct (target d (child_state ch i)) as [[d'|e] s'] eqn:E; [|done].
  apply Hw in E as [v ->]. now rewrite lookup_insert_ne.
Qed.

Lemma bbp_worker_writes_only start end_ digits idx :
  writes_only idx (fun d => _bbp_worker start end_ digits d idx).
Proof.
  intros d s d' s'. unfold _bbp_worker, bind, ret.
  destruct (set_prec _ s) as [[[]|e] s1]; [|done].
  destruct (for_fold _ _ _ s1) as [[v|e] s2]; [|done].
  intros [= <- <-]. eauto.
Qed.

(** The slot of a killed child is missing after the join. *)
Lemma bbp_jobs_killed ch digits chunks idx :
  child_killed ch idx = true -> bbp_jobs ch digits chunks !! idx = None.
Proof.
  intros K. unfold bbp_jobs, enumerate.
  induction chunks as [|x chunks IH] using rev_ind; [done|].
  rewrite imap_app, foldl_app. simpl. destruct x as [start end_].
  rewrite run_child_lookup; [done|apply bbp_worker_writes_only|].
  destruct (decide (length chunks + 0 = idx)%nat) as [->|]; auto.
Qed.

Section SamplingFailure.

Context {float rng : Type}.
Variable random : rng -> float * rng.
Variable fmul fadd : float -> float -> float.
Variable fle_one : float -> bool.

Abbreviation _mc_worker := (_mc_worker random fmul fadd fle_one).
Abbreviation mc_jobs := (mc_jobs random fmul fadd fle_one).
Abbreviation monte_carlo_parallel :=
  (monte_carlo_parallel random fmul fadd fle_one).

Lemma mc_worker_writes_only samples idx :
  writes_only idx (fun d => _mc_worker samples d idx).
Proof.
  intros d s d' s'. unfold_mc_worker; unfold bind, ret.
  destruct (for_fold _ _ _ s) as [[v|e] s2]; [|done].
  intros [= <- <-]. eauto.
Qed.

Lemma mc_jobs_killed ch chunks idx :
  child_killed ch idx = true -> mc_jobs ch chunks !! idx = None.
Proof.
  intros K. unfold_mc_jobs; unfold enumerate.
  induction chunks as [|x chunks IH] using rev_ind; [done|].
  rewrite imap_app, foldl_app. simpl. destruct x as [start size].
  rewrite run_child_lookup; [done|apply mc_worker_writes_only|].
  destruct (decide (length chunks + 0 = idx)%nat) as [->|]; auto.
Qed.

(** C8.  In both parallel computations, when the partial result of some
    chunk is missing from the result collection after the join, the call
    raises: no sum of the surviving chunks is returned. *)
Theorem missing_partial_fails
    (chb : children context) (chm : children (process rng))
    (digits chunk_size spd : Z) :
  (forall c chunks idx,
      bbp_chunks digits chunk_size = Ok chunks ->
      (idx < length chunks)%nat ->
      bbp_jobs chb digits chunks !! idx = None ->
      exists e, fst (bbp_parallel chb digits chunk_size c) = Raise e) /\
  (forall s chunks idx,
      mc_chunks (digits * spd) chunk_size = Ok chunks ->
      (idx < length chunks)%nat ->
      mc_jobs chm chunks !! idx = None ->
      exists e,
        fst (monte_carlo_parallel chm digits spd chunk_size s) = Raise e).
Proof.
  split.
  - intros c chunks idx Hc Hlt Hnone. unfold bbp_parallel, bind at 1.
    destruct (set_prec _ c) as [[[]|e] c1]; [|simpl; eauto].
    rewrite Hc. unfold bind, lift.
    destruct (sum_dict_missing _ _ _ c1 Hlt Hnone) as [e He].
    destruct (sum_dict _ _ c1) as [[v|e'] c2]; [done|simpl; eauto].
  - intros s chunks idx Hc Hlt Hnone.
    unfold_mc_parallel; unfold bind at 1.
    destruct (with_ctx _ s) as [[[]|e] s1]; [|simpl; eauto].
    rewrite Hc. unfold bind, lift.
    destruct (sum_hits_missing _ _ _ s1 Hlt Hnone) as [e He].
    destruct (sum_hits _ _ s1) as [[v|e'] s2]; [done|simpl; eauto].
Qed.

End SamplingFailure.

(** Three chunks of which the second child is killed. *)
Lemma missing_partial_fails_witness :
  let chb := Children (fun _ => DefaultContext) (fun i => Nat.eqb i 1) in
  let chm := Children (fun _ => Process DefaultContext 1)
                      (fun i => Nat.eqb i 1) in
  (exists e, fst (bbp_parallel chb 3 1 DefaultContext) = Raise e) /\
  (exists e,
      fst (monte_carlo_parallel Lcg.random Lcg.fmul Lcg.fadd Lcg.fle_one
             chm 3 1 1 (Process DefaultContext 1)) = Raise e).
Proof.
  intros chb chm.
  destruct (missing_partial_fails Lcg.random Lcg.fmul Lcg.fadd Lcg.fle_one
              chb chm 3 1 1) as [Hb Hm].
  split.
  - apply (Hb DefaultContext [(0, 1); (1, 2); (2, 3)] 1%nat).
    + reflexivity.
    + simpl. lia.
    + apply bbp_jobs_killed. reflexivity.
  - apply (Hm (Process DefaultContext 1) [(0, 1); (1, 1); (2, 1)] 1%nat).
    + reflexivity.
    + simpl. lia.
    + apply mc_jobs_killed. reflexivity.
Defined.

(** ** The consistency guard *)

(** C7.  Once the warm-up calls, the serial run and the parallel run have
    returned: when the first 102 characters of the two results are equal the
    parallel result is kept and no further call is made; when they differ
    the parallel function is called once more, from the state the first
    call left, and its outcome is taken as it is. *)
Theorem guard_reruns_once {W : Type}
    (serial_func parallel_func : Z -> M W string) (digits : Z)
    (w0 w1 w2 w3 w4 : W) (u1 u2 pi_serial pi_parallel : string) :
  serial_func 10 w0 = (Ok u1, w1) ->
  parallel_func 10 w1 = (Ok u2, w2) ->
  serial_func digits w2 = (Ok pi_serial, w3) ->
  parallel_func digits w3 = (Ok pi_parallel, w4) ->
  (slice_to 102 pi_serial = slice_to 102 pi_parallel ->
   run_body serial_func parallel_func digits w0
   = (Ok (pi_serial, pi_parallel), w4)) /\
  (slice_to 102 pi_serial <> slice_to 102 pi_parallel ->
   run_body serial_func parallel_func digits w0
   = match parallel_func digits w4 with
     | (Ok again, w5) => (Ok (pi_serial, again), w5)
     | (Raise e, w5) => (Raise e, w5)
     end).
Proof.
  intros E1 E2 E3 E4. unfold run_body.
  rewrite (bind_ok _ _ _ _ _ E1), (bind_ok _ _ _ _ _ E2),
    (bind_ok _ _ _ _ _ E3), (bind_ok _ _ _ _ _ E4).
  split; intros H.
  - apply String.eqb_eq in H. rewrite H. reflexivity.
  - apply String.eqb_neq in H. rewrite H. unfold bind, ret.
    now destruct (parallel_func digits w4) as [[again|e] w5].
Qed.

(** A run whose state counts the parallel calls: the first parallel result
    differs from the serial one, the second call is made and its result,
    which still differs, is returned. *)
Lemma guard_reruns_once_witness :
  let serial_func := fun (_ : Z) (n : nat) => (Ok "3.14"%string, n) in
  let parallel_func :=
    fun (_ : Z) (n : nat) =>
      (Ok (if Nat.eqb n 1 then "3.15" else "3.16")%string, S n) in
  run_body serial_func parallel_func 2 0%nat
  = (Ok ("3.14", "3.16")%string, 3%nat).
Proof.
  intros serial_func parallel_func.
  destruct (guard_reruns_once serial_func parallel_func 2
              0%nat 0%nat 1%nat 1%nat 2%nat
              "3.14" "3.16" "3.14" "3.15"
              eq_refl eq_refl eq_refl eq_refl) as [_ H].
  rewrite H; [reflexivity|]. vm_compute. discriminate.
Defined.

(** The four entry points called for 3 digits from the default context. *)
Lemma entry_points_change_context_witness :
  let chb := Children (fun _ => DefaultContext) (fun _ => false) in
  let chm := Children (fun _ => Process DefaultContext 1) (fun _ => false) in
  let s0 := Process DefaultContext 1 in
  prec (snd (bbp_serial 3 DefaultContext)) = 3 + 10 /\
  prec (snd (bbp_parallel chb 3 2 DefaultContext)) = 3 + 10 /\
  prec (p_ctx (snd (monte_carlo_serial Lcg.random Lcg.fmul Lcg.fadd
                      Lcg.fle_one 3 4 s0))) = 3 + 2 /\
  prec (p_ctx (snd (monte_carlo_parallel Lcg.random Lcg.fmul Lcg.fadd
                      Lcg.fle_one chm 3 4 2 s0))) = 3 + 2.
Proof.
  intros chb chm s0.
  destruct (entry_points_change_context Lcg.random Lcg.fmul Lcg.fadd
              Lcg.fle_one chb chm 3 2 4) as (H1 & H2 & H3 & H4).
  split; [|split; [|split]].
  - destruct (bbp_serial 3 DefaultContext) as [[r|e] c'] eqn:E;
      [exact (H1 _ _ _ E)|vm_compute in E; discriminate].
  - destruct (bbp_parallel chb 3 2 DefaultContext) as [[r|e] c'] eqn:E;
      [exact (H2 _ _ _ E)|vm_compute in E; discriminate].
  - destruct (monte_carlo_serial _ _ _ _ 3 4 s0) as [[r|e] s'] eqn:E;
      [exact (H3 _ _ _ E)|vm_compute in E; discriminate].
  - destruct (monte_carlo_parallel _ _ _ _ chm 3 4 2 s0) as [[r|e] s'] eqn:E;
      [exact (H4 _ _ _ E)|vm_compute in E; discriminate].
Defined.

(** * The decimal arithmetic *)

Lemma div_eucl_eq (a b : Z) : Z.div_eucl a b = (a / b, a mod b).
Proof. unfold Z.div, Z.modulo. now destruct (Z.div_eucl a b). Qed.

Lemma ndigits_aux_spec (fuel : nat) (c n : Z) :
  0 < n -> 0 < c -> c < 10 ^ (n + Z.of_nat fuel) -> 10 ^ (n - 1) <= c ->
  let r := ndigits_aux fuel c (10 ^ n) n in
  10 ^ (r - 1) <= c < 10 ^ r.
Proof.
  revert n. induction fuel as [|f IH]; intros n Hn Hc Hlt Hge; simpl.
  - rewrite Z.add_0_r in Hlt. lia.
  - destruct (Z.ltb_spec c (10 ^ n)); [lia|].
    replace (10 ^ n * 10) with (10 ^ (n + 1)) by (rewrite Z.pow_add_r by lia; lia).
    apply IH; try lia.
    + replace (n + 1 + Z.of_nat f) with (n + Z.of_nat (S f)) by lia. done.
    + replace (n + 1 - 1) with n by lia. done.
Qed.

Lemma ndigits_spec (c : Z) : 0 < c -> 10 ^ (ndigits c - 1) <= c < 10 ^ ndigits c.
Proof.
  intros Hc. unfold ndigits. apply (ndigits_aux_spec _ c 1); try lia.
  rewrite Z2Nat.id by apply Z.log2_nonneg.
  pose proof (Z.log2_spec c Hc) as [_ H].
  assert (2 ^ Z.succ (Z.log2 c) <= 10 ^ (1 + Z.log2 c)).
  { replace (Z.succ (Z.log2 c)) with (1 + Z.log2 c) by lia.
    apply Z.pow_le_mono_l. lia. }
  lia.
Qed.

Lemma ndigits_nonpos (c : Z) : c <= 0 -> ndigits c = 1.
Proof.
  intros H. unfold ndigits. rewrite Z.log2_nonpos by done. reflexivity.
Qed.

Lemma ndigits_pos (c : Z) : 1 <= ndigits c.
Proof.
  destruct (Z.lt_ge_cases 0 c) as [H|H].
  - pose proof (ndigits_spec c H) as [_ Hlt].
    destruct (Z.lt_ge_cases (ndigits c) 1) as [Hn|Hn]; [|done].
    assert (10 ^ ndigits c <= 10 ^ 0) by (apply Z.pow_le_mono_r; lia).
    simpl in *. lia.
  - rewrite ndigits_nonpos by done. lia.
Qed.

Lemma pow10_lt_inv (a b : Z) : 0 <= b -> 10 ^ a < 10 ^ b -> a < b.
Proof.
  intros Hb H. destruct (Z.lt_ge_cases a b) as [|Hge]; [done|].
  assert (10 ^ b <= 10 ^ a) by (apply Z.pow_le_mono_r; lia). lia.
Qed.

Lemma ndigits_unique (c n : Z) :
  10 ^ (n - 1) <= c < 10 ^ n -> 0 < c -> ndigits c = n.
Proof.
  intros [Hlo Hhi] Hc.
  pose proof (ndigits_spec c Hc) as [Hlo' Hhi'].
  pose proof (ndigits_pos c).
  assert (0 < n).
  { destruct (Z.lt_ge_cases 0 n) as [|Hn0]; [done|].
    apply Z.le_lteq in Hn0 as [Hn0| ->]; [|simpl in Hhi; lia].
    rewrite Z.pow_neg_r in Hhi by lia. lia. }
  assert (ndigits c - 1 < n) by (apply pow10_lt_inv; lia).
  assert (n - 1 < ndigits c) by (apply pow10_lt_inv; lia).
  lia.
Qed.

Lemma ndigits_mono (a b : Z) : 0 < a -> a <= b -> ndigits a <= ndigits b.
Proof.
  intros Ha Hab.
  pose proof (ndigits_spec a Ha) as [Hlo _].
  pose proof (ndigits_spec b ltac:(lia)) as [_ Hhi].
  pose proof (ndigits_pos b).
  assert (ndigits a - 1 < ndigits b) by (apply pow10_lt_inv; lia). lia.
Qed.

(** ** Rounding *)

Section Rounding.
Variables (c drop : Z).
Hypothesis Hc : 0 <= c.
Hypothesis Hd : 0 <= drop.

Let p := 10 ^ drop.

Lemma rhe_cases :
  0 < p /\
  (round_half_even c drop = c / p /\ 2 * (c mod p) <= p \/
   round_half_even c drop = c / p + 1 /\ p <= 2 * (c mod p)).
Proof.
  assert (Hp : 0 < p) by (apply Z.pow_pos_nonneg; lia).
  split; [done|]. unfold round_half_even. fold p.
  rewrite div_eucl_eq.
  destruct (Z.ltb_spec (2 * (c mod p)) p); [left; lia|].
  destruct (Z.ltb_spec p (2 * (c mod p))); [right; lia|].
  destruct (Z.even (c / p)); [left|right]; lia.
Qed.

Lemma rhe_nonneg : 0 <= round_half_even c drop.
Proof.
  destruct rhe_cases as (Hp & [[-> _]|[-> _]]);
    pose proof (Z.div_pos c p Hc Hp); lia.
Qed.

Lemma rhe_le_grid (G : Z) : c <= G * p -> round_half_even c drop <= G.
Proof.
  intros H. destruct rhe_cases as (Hp & Hr).
  pose proof (Z.div_mod c p ltac:(lia)).
  pose proof (Z.mod_pos_bound c p Hp).
  destruct Hr as [[-> _]|[-> ?]]; nia.
Qed.

Lemma rhe_ge_grid (G : Z) : G * p <= c -> G <= round_half_even c drop.
Proof.
  intros H. destruct rhe_cases as (Hp & Hr).
  pose proof (Z.div_mod c p ltac:(lia)).
  pose proof (Z.mod_pos_bound c p Hp).
  destruct Hr as [[-> _]|[-> ?]]; nia.
Qed.

Lemma rhe_error : 2 * Z.abs (round_half_even c drop * p - c) <= p.
Proof.
  destruct rhe_cases as (Hp & Hr).
  pose proof (Z.div_mod c p ltac:(lia)).
  pose proof (Z.mod_pos_bound c p Hp).
  destruct Hr as [[-> ?]|[-> ?]]; nia.
Qed.

Lemma rhe_exact : c mod p = 0 -> round_half_even c drop = c / p.
Proof.
  intros H. destruct rhe_cases as (Hp & [[-> _]|[_ ?]]); [done|lia].
Qed.

End Rounding.

Lemma rhe_zero_drop (c : Z) : round_half_even c 0 = c.
Proof.
  unfold round_half_even. rewrite div_eucl_eq. simpl.
  rewrite Z.mod_1_r, Z.div_1_r. reflexivity.
Qed.

Lemma ndigits_pow10 (k : Z) : 0 <= k -> ndigits (10 ^ k) = k + 1.
Proof.
  intros H. apply ndigits_unique.
  - replace (k + 1 - 1) with k by lia. split; [lia|].
    apply Z.pow_lt_mono_r; lia.
  - apply Z.pow_pos_nonneg; lia.
Qed.

Lemma ndigits_lt_pow (c n : Z) : 0 <= n -> 0 <= c < 10 ^ n -> ndigits c <= Z.max 1 n.
Proof.
  intros Hn [H0 H]. destruct (Z.eq_dec c 0) as [->|].
  - rewrite ndigits_nonpos; lia.
  - pose proof (ndigits_spec c ltac:(lia)) as [Hlo _].
    pose proof (ndigits_pos c).
    assert (ndigits c - 1 < n) by (apply pow10_lt_inv; lia). lia.
Qed.

Lemma ndigits_ge_pow (c n : Z) : 0 <= n -> 10 ^ n <= c -> n + 1 <= ndigits c.
Proof.
  intros Hn H.
  assert (0 < 10 ^ n) by (apply Z.pow_pos_nonneg; lia).
  pose proof (ndigits_spec c ltac:(lia)) as [_ Hhi].
  pose proof (ndigits_pos c).
  assert (n < ndigits c) by (apply pow10_lt_inv; lia). lia.
Qed.

Lemma pow10_split (a b : Z) : 0 <= a -> 0 <= b -> 10 ^ (a + b) = 10 ^ a * 10 ^ b.
Proof. intros. now rewrite Z.pow_add_r. Qed.

Lemma pow10_pos (a : Z) : 0 <= a -> 0 < 10 ^ a.
Proof. intros. apply Z.pow_pos_nonneg; lia. Qed.

(** ** An inexact quotient against a bound of at most [P] digits *)

Section Sandwich.
Variables (N D k P cm ex em g : Z).
Hypothesis HD : 0 < D.
Hypothesis HN : 0 <= N.
Hypothesis Hrem : N mod D <> 0.
Hypothesis HP : 0 <= P.
Hypothesis Hbig : 10 ^ P <= N / D.
Hypothesis Hk : k = N / D \/ k = N / D + 1.
Hypothesis Hcm : 0 < cm < 10 ^ P.
Hypothesis Hg : g = Z.min ex em.

Lemma sandwich_le :
  N * 10 ^ (ex - g) <= cm * D * 10 ^ (em - g) ->
  k * 10 ^ (ex - g) <= cm * 10 ^ (em - g).
Proof.
  intros H.
  pose proof (Z.div_mod N D ltac:(lia)) as Hdm.
  pose proof (Z.mod_pos_bound N D HD) as Hmb.
  destruct (Z.le_gt_cases ex em) as [Hle|Hgt].
  - replace (ex - g) with 0 in * by lia. rewrite Z.mul_1_r in *.
    pose proof (pow10_pos (em - g) ltac:(lia)). nia.
  - exfalso. replace (em - g) with 0 in * by lia. rewrite Z.mul_1_r in *.
    assert (10 ^ 1 <= 10 ^ (ex - g)) by (apply Z.pow_le_mono_r; lia).
    change (10 ^ 1) with 10 in *. nia.
Qed.

Lemma sandwich_ge :
  cm * D * 10 ^ (em - g) <= N * 10 ^ (ex - g) ->
  cm * 10 ^ (em - g) <= k * 10 ^ (ex - g).
Proof.
  intros H.
  pose proof (Z.div_mod N D ltac:(lia)) as Hdm.
  pose proof (Z.mod_pos_bound N D HD) as Hmb.
  destruct (Z.le_gt_cases ex em) as [Hle|Hgt].
  - replace (ex - g) with 0 in * by lia. rewrite Z.mul_1_r in *.
    pose proof (pow10_pos (em - g) ltac:(lia)).
    assert (cm * 10 ^ (em - g) <= N / D) by nia. lia.
  - replace (em - g) with 0 in * by lia. rewrite Z.mul_1_r in *.
    assert (10 ^ 1 <= 10 ^ (ex - g)) by (apply Z.pow_le_mono_r; lia).
    change (10 ^ 1) with 10 in *. nia.
Qed.

End Sandwich.

Lemma strip_zeros_spec (n : nat) (coeff ex : Z) :
  0 <= coeff ->
  let '(coeff', ex') := strip_zeros n coeff ex in
  0 <= coeff' /\ ex <= ex' <= ex + Z.of_nat n /\
  coeff = coeff' * 10 ^ (ex' - ex).
Proof.
  revert coeff ex. induction n as [|n IH]; intros coeff ex H0; simpl.
  - rewrite Z.sub_diag. simpl. lia.
  - destruct (Z.eqb_spec (coeff mod 10) 0) as [Hm|Hm].
    + specialize (IH (coeff / 10) (ex + 1) ltac:(apply Z.div_pos; lia)).
      destruct (strip_zeros n (coeff / 10) (ex + 1)) as [c' e'].
      destruct IH as (Hc & He & Heq). split; [done|]. split; [lia|].
      pose proof (Z.div_mod coeff 10 ltac:(lia)) as Hd.
      replace (e' - ex) with (1 + (e' - (ex + 1))) by lia.
      rewrite pow10_split by lia. change (10 ^ 1) with 10. lia.
    + rewrite Z.sub_diag. simpl. lia.
Qed.

(** ** Powers of ten in Q *)

Lemma q10_pos (e : Z) : (0 < 10 ^ e)%Q.
Proof. apply Qpower_0_lt. reflexivity. Qed.

Lemma q10_add (a b : Z) : (10 ^ (a + b) == 10 ^ a * 10 ^ b)%Q.
Proof. apply Qpower_plus. discriminate. Qed.

Lemma q10_inject (e : Z) : 0 <= e -> (inject_Z (10 ^ e) == 10 ^ e)%Q.
Proof. intros H. now rewrite Zpower_Qpower. Qed.

Lemma q10_le (a b : Z) : a <= b -> (10 ^ a <= 10 ^ b)%Q.
Proof. intros H. apply Qpower_le_compat_l; [done|]. discriminate. Qed.

(** A coefficient at exponent [e] rewritten at a smaller exponent [g]. *)
Lemma qmag_rescale (a e g : Z) :
  g <= e ->
  (inject_Z a * 10 ^ e == inject_Z (a * 10 ^ (e - g)) * 10 ^ g)%Q.
Proof.
  intros H. rewrite inject_Z_mult, q10_inject by lia.
  replace e with ((e - g) + g) at 1 by lia. rewrite q10_add. ring.
Qed.

Lemma qmag_le_iff (a b ea eb g : Z) :
  g <= ea -> g <= eb ->
  (inject_Z a * 10 ^ ea <= inject_Z b * 10 ^ eb)%Q <->
  a * 10 ^ (ea - g) <= b * 10 ^ (eb - g).
Proof.
  intros Ha Hb.
  rewrite (qmag_rescale a ea g Ha), (qmag_rescale b eb g Hb).
  rewrite Zle_Qle. split; intros H.
  - apply Qmult_le_r in H; [done|apply q10_pos].
  - apply Qmult_le_r; [apply q10_pos|done].
Qed.

Lemma qmag_lt_iff (a b ea eb g : Z) :
  g <= ea -> g <= eb ->
  (inject_Z a * 10 ^ ea < inject_Z b * 10 ^ eb)%Q <->
  a * 10 ^ (ea - g) < b * 10 ^ (eb - g).
Proof.
  intros Ha Hb.
  rewrite (qmag_rescale a ea g Ha), (qmag_rescale b eb g Hb).
  rewrite Zlt_Qlt. split; intros H.
  - apply Qmult_lt_r in H; [done|apply q10_pos].
  - apply Qmult_lt_r; [apply q10_pos|done].
Qed.

Lemma dmag_nonneg (d : decimal) : 0 <= dcoef d -> (0 <= dmag d)%Q.
Proof.
  intros H. unfold dmag. apply Qmult_le_0_compat.
  - change 0%Q with (inject_Z 0). now rewrite <- Zle_Qle.
  - apply Qlt_le_weak, q10_pos.
Qed.

Lemma dmag_pos (d : decimal) : 0 < dcoef d -> (0 < dmag d)%Q.
Proof.
  intros H. unfold dmag. apply Qmult_lt_0_compat.
  - change 0%Q with (inject_Z 0). now rewrite <- Zlt_Qlt.
  - apply q10_pos.
Qed.

Lemma dmag_zero (d : decimal) : dcoef d = 0 -> (dmag d == 0)%Q.
Proof. intros H. unfold dmag. rewrite H. ring. Qed.

Lemma dmag_pos_inv (d : decimal) : 0 <= dcoef d -> (0 < dmag d)%Q -> 0 < dcoef d.
Proof.
  intros H Hm. destruct (Z.eq_dec (dcoef d) 0) as [E|]; [|lia].
  rewrite (dmag_zero d E) in Hm. now apply Qlt_irrefl in Hm.
Qed.

(** The adjusted exponent orders magnitudes. *)
Lemma adjusted_le (a b ea eb : Z) :
  0 < a -> 0 < b ->
  (inject_Z a * 10 ^ ea <= inject_Z b * 10 ^ eb)%Q ->
  ndigits a + ea <= ndigits b + eb.
Proof.
  intros Ha Hb H.
  pose proof (ndigits_spec a Ha) as [Hlo _].
  pose proof (ndigits_spec b Hb) as [_ Hhi].
  pose proof (ndigits_pos a). pose proof (ndigits_pos b).
  assert (Q1 : (10 ^ (ndigits a - 1 + ea) <= inject_Z a * 10 ^ ea)%Q).
  { rewrite q10_add. apply Qmult_le_r; [apply q10_pos|].
    rewrite <- q10_inject by lia. now rewrite <- Zle_Qle. }
  assert (Q2 : (inject_Z b * 10 ^ eb < 10 ^ (ndigits b + eb))%Q).
  { rewrite q10_add. apply Qmult_lt_r; [apply q10_pos|].
    rewrite <- q10_inject by lia. now rewrite <- Zlt_Qlt. }
  assert (Q3 : (10 ^ (ndigits a - 1 + ea) < 10 ^ (ndigits b + eb))%Q).
  { eapply Qle_lt_trans; [exact Q1|]. eapply Qle_lt_trans; [exact H|exact Q2]. }
  apply Qpower_lt_compat_l_inv in Q3; [lia|reflexivity].
Qed.

(** ** [_fix] *)

Lemma valid_Etiny (c : context) :
  valid_context c -> Etiny c <= 0 /\ Etiny c <= Etop c /\ Etop c <= Emax c.
Proof. unfold valid_context, Etiny, Etop. lia. Qed.

Lemma fix_zero (c : context) (d : decimal) :
  dcoef d = 0 ->
  fix_ c d = Ok (Dec (dsign d) 0 (Z.min (Z.max (dexp d) (Etiny c)) (Emax c))).
Proof. intros H. unfold fix_. now rewrite H. Qed.

(** The three outcomes of [_fix] on a non-zero coefficient. *)
Lemma fix_nonzero (c : context) (d : decimal) :
  0 < dcoef d ->
  let e0 := ndigits (dcoef d) + dexp d - prec c in
  let e1 := Z.max e0 (Etiny c) in
  let q := round_half_even (dcoef d) (e1 - dexp d) in
  (Etop c < e0 /\ fix_ c d = Raise Overflow) \/
  (e0 <= Etop c /\ e1 <= dexp d /\ fix_ c d = Ok d) \/
  (e0 <= Etop c /\ dexp d < e1 /\ ndigits q <= prec c /\
   fix_ c d = if Etop c <? e1 then Raise Overflow
              else Ok (Dec (dsign d) q e1)) \/
  (e0 <= Etop c /\ dexp d < e1 /\ prec c < ndigits q /\
   fix_ c d = if Etop c <? e1 + 1 then Raise Overflow
              else Ok (Dec (dsign d) (q / 10) (e1 + 1))).
Proof.
  intros Hc e0 e1 q. unfold fix_.
  destruct (Z.eqb_spec (dcoef d) 0); [lia|]. fold e0.
  destruct (Z.ltb_spec (Etop c) e0); [left; done|]. fold e1.
  destruct (Z.ltb_spec (dexp d) e1); [|right; left; done]. fold q.
  destruct (Z.ltb_spec (prec c) (ndigits q)).
  - right; right; right. done.
  - right; right; left. done.
Qed.

Lemma canonical_zero (c : context) (s : bool) (e : Z) :
  Etiny c <= e <= Emax c -> canonical c (Dec s 0 e).
Proof.
  intros H. split; [simpl; lia|]. rewrite fix_zero by done. simpl.
  do 2 f_equal. lia.
Qed.

Lemma canonical_nonzero (c : context) (s : bool) (m e : Z) :
  0 < m -> ndigits m <= prec c -> Etiny c <= e ->
  ndigits m + e - 1 <= Emax c ->
  canonical c (Dec s m e).
Proof.
  intros Hm Hn He Ha. split; [simpl; lia|].
  destruct (fix_nonzero c (Dec s m e) Hm) as [H|[H|[H|H]]]; simpl in *;
    unfold Etop in *; try lia.
  now destruct H as (_ & _ & ->).
Qed.

Lemma canonical_inv (c : context) (d : decimal) :
  valid_context c -> canonical c d ->
  (dcoef d = 0 /\ Etiny c <= dexp d <= Emax c) \/
  (0 < dcoef d /\ ndigits (dcoef d) <= prec c /\ Etiny c <= dexp d /\
   ndigits (dcoef d) + dexp d - 1 <= Emax c).
Proof.
  intros Hv [H0 Hf]. pose proof (valid_Etiny c Hv).
  destruct (Z.eq_dec (dcoef d) 0) as [E|E].
  - left. split; [done|]. rewrite fix_zero in Hf by done.
    destruct d as [s m e]. simpl in *. injection Hf as _ He. lia.
  - right. split; [lia|].
    destruct (fix_nonzero c d ltac:(lia)) as [H1|[H1|[H1|H1]]].
    + destruct H1 as [_ H1]. congruence.
    + unfold Etop in *. lia.
    + destruct H1 as (_ & Hlt & _ & H1). rewrite Hf in H1.
      destruct (Z.ltb_spec (Etop c) (Z.max (ndigits (dcoef d) + dexp d - prec c) (Etiny c)));
        [done|]. destruct d as [s m e]. simpl in *. injection H1 as _ He. lia.
    + destruct H1 as (_ & Hlt & _ & H1). rewrite Hf in H1.
      destruct (Z.ltb_spec (Etop c) (Z.max (ndigits (dcoef d) + dexp d - prec c) (Etiny c) + 1));
        [done|]. destruct d as [s m e]. simpl in *. injection H1 as _ He. lia.
Qed.

Lemma fix_le_core (c : context) (s : bool) (cx e cm em : Z) :
  valid_context c ->
  0 < cx -> 0 < cm -> ndigits cm <= prec c -> Etiny c <= em ->
  ndigits cm + em - 1 <= Emax c ->
  (inject_Z cx * 10 ^ e <= inject_Z cm * 10 ^ em)%Q ->
  exists q e',
    fix_ c (Dec s cx e) = Ok (Dec s q e') /\
    canonical c (Dec s q e') /\
    (inject_Z q * 10 ^ e' <= inject_Z cm * 10 ^ em)%Q /\
    e' <= Z.max e em.
Proof.
  intros Hv Hcx Hcm Hnm Hem Hadj Hle.
  pose proof (valid_Etiny c Hv) as (Ht0 & Htt & Hte).
  destruct Hv as (Hp & Hmax & Hmin).
  pose proof (adjusted_le cx cm e em Hcx Hcm Hle) as Ha.
  destruct (fix_nonzero c (Dec s cx e) Hcx) as [H|[H|[H|H]]]; simpl in H.
  - unfold Etop in *. lia.
  - destruct H as (H0 & H1 & ->). exists cx, e. repeat split; try done; try lia.
    + simpl. lia.
    + destruct (fix_nonzero c (Dec s cx e) Hcx) as [F|[F|[F|F]]]; simpl in F;
        try lia. now destruct F as (_ & _ & ->).
  - set (e1 := Z.max (ndigits cx + e - prec c) (Etiny c)) in *.
    set (q := round_half_even cx (e1 - e)) in *.
    destruct H as (H0 & Hlt & Hnq & ->).
    assert (He1 : e1 <= em) by (unfold Etop in *; lia).
    destruct (Z.ltb_spec (Etop c) e1); [unfold Etop in *; lia|].
    assert (Hq0 : 0 <= q) by (apply rhe_nonneg; lia).
    assert (HqG : q <= cm * 10 ^ (em - e1)).
    { apply rhe_le_grid; try lia.
      apply (qmag_le_iff cx cm e em e) in Hle; try lia.
      rewrite Z.sub_diag, Z.mul_1_r in Hle.
      rewrite <- Z.mul_assoc, <- pow10_split by lia.
      now replace (em - e1 + (e1 - e)) with (em - e) by lia. }
    exists q, e1. repeat split; try done; try lia.
    + destruct (Z.eq_dec q 0) as [->|].
      * rewrite fix_zero by done. simpl. do 2 f_equal. unfold Etop in *. lia.
      * apply canonical_nonzero; unfold Etop in *; lia.
    + apply (qmag_le_iff q cm e1 em e1); try lia.
      now rewrite Z.sub_diag, Z.mul_1_r.
  - set (e1 := Z.max (ndigits cx + e - prec c) (Etiny c)) in *.
    set (q := round_half_even cx (e1 - e)) in *.
    destruct H as (H0 & Hlt & Hnq & ->).
    assert (He1 : e1 <= em) by (unfold Etop in *; lia).
    assert (HqG : q <= cm * 10 ^ (em - e1)).
    { apply rhe_le_grid; try lia.
      apply (qmag_le_iff cx cm e em e) in Hle; try lia.
      rewrite Z.sub_diag, Z.mul_1_r in Hle.
      rewrite <- Z.mul_assoc, <- pow10_split by lia.
      now replace (em - e1 + (e1 - e)) with (em - e) by lia. }
    assert (Hqle : q <= 10 ^ prec c).
    { apply rhe_le_grid; try lia.
      pose proof (ndigits_spec cx Hcx) as [_ Hhi].
      rewrite <- pow10_split by lia.
      assert (10 ^ ndigits cx <= 10 ^ (prec c + (e1 - e)))
        by (apply Z.pow_le_mono_r; lia). lia. }
    assert (Hqge : 10 ^ prec c <= q).
    { assert (Hq : 0 < q).
      { destruct (Z.lt_ge_cases 0 q); [done|].
        rewrite ndigits_nonpos in Hnq by lia. lia. }
      pose proof (ndigits_spec q Hq) as [Hlo _].
      assert (10 ^ prec c <= 10 ^ (ndigits q - 1))
        by (apply Z.pow_le_mono_r; lia). lia. }
    assert (Hq : q = 10 ^ prec c) by lia.
    pose proof (ndigits_spec cm Hcm) as [_ Hcmhi].
    assert (Hcm' : cm < 10 ^ prec c).
    { assert (10 ^ ndigits cm <= 10 ^ prec c)
        by (apply Z.pow_le_mono_r; lia). lia. }
    assert (Hgap : prec c < ndigits cm + (em - e1)).
    { apply pow10_lt_inv; [pose proof (ndigits_pos cm); lia|].
      rewrite pow10_split by (pose proof (ndigits_pos cm); lia).
      pose proof (pow10_pos (em - e1) ltac:(lia)). nia. }
    destruct (Z.ltb_spec (Etop c) (e1 + 1)); [unfold Etop in *; lia|].
    assert (Hq10 : q / 10 = 10 ^ (prec c - 1)).
    { rewrite Hq. replace (prec c) with (prec c - 1 + 1) at 1 by lia.
      rewrite pow10_split by lia. simpl. apply Z.div_mul. lia. }
    rewrite Hq10.
    exists (10 ^ (prec c - 1)), (e1 + 1). repeat split; try done; try lia.
    + simpl. pose proof (pow10_pos (prec c - 1) ltac:(lia)). lia.
    + destruct (fix_nonzero c (Dec s (10 ^ (prec c - 1)) (e1 + 1))
                  (pow10_pos (prec c - 1) ltac:(lia))) as [F|[F|[F|F]]];
        simpl in F; rewrite ndigits_pow10 in F by lia; unfold Etop in *;
        try lia.
      now destruct F as (_ & _ & ->).
    + assert (e1 + 1 <= em) by (pose proof (ndigits_pos cm); lia).
      apply (qmag_le_iff _ cm (e1 + 1) em (e1 + 1)); try lia.
      rewrite Z.sub_diag, Z.mul_1_r.
      replace (em - e1) with (1 + (em - (e1 + 1))) in HqG by lia.
      rewrite pow10_split in HqG by lia.
      replace (prec c) with (1 + (prec c - 1)) in Hq at 1 by lia.
      rewrite pow10_split in Hq by lia. simpl in *. lia.
Qed.

(** When [_fix] has to round, it returns the rounded coefficient [q] at the
    exponent [e1], or [10^(prec-1)] one exponent higher when the rounding
    carried into a further digit. *)
Lemma fix_rounded_shape (c : context) (s : bool) (cx e : Z) (r : decimal) :
  valid_context c -> 0 < cx ->
  let e0 := ndigits cx + e - prec c in
  let e1 := Z.max e0 (Etiny c) in
  let q := round_half_even cx (e1 - e) in
  e < e1 ->
  fix_ c (Dec s cx e) = Ok r ->
  0 <= q <= 10 ^ prec c /\
  (r = Dec s q e1 /\ ndigits q <= prec c /\ e1 <= Etop c \/
   r = Dec s (10 ^ (prec c - 1)) (e1 + 1) /\ q = 10 ^ prec c /\
   e1 + 1 <= Etop c).
Proof.
  intros Hv Hcx e0 e1 q Hlt Hf.
  destruct Hv as (Hp & Hmax & Hmin).
  assert (Hq0 : 0 <= q) by (apply rhe_nonneg; lia).
  assert (Hqle : q <= 10 ^ prec c).
  { apply rhe_le_grid; try lia.
    pose proof (ndigits_spec cx Hcx) as [_ Hhi].
    rewrite <- pow10_split by lia.
    assert (10 ^ ndigits cx <= 10 ^ (prec c + (e1 - e)))
      by (apply Z.pow_le_mono_r; lia). lia. }
  split; [done|].
  destruct (fix_nonzero c (Dec s cx e) Hcx) as [H|[H|[H|H]]]; simpl in H;
    fold e0 e1 q in H.
  - destruct H as [_ H]. congruence.
  - lia.
  - destruct H as (_ & _ & Hnq & H). rewrite Hf in H.
    destruct (Z.ltb_spec (Etop c) e1); [done|]. injection H as ->.
    left. done.
  - destruct H as (_ & _ & Hnq & H). rewrite Hf in H.
    destruct (Z.ltb_spec (Etop c) (e1 + 1)); [done|]. injection H as ->.
    assert (Hqge : 10 ^ prec c <= q).
    { assert (Hq : 0 < q).
      { destruct (Z.lt_ge_cases 0 q); [done|].
        rewrite ndigits_nonpos in Hnq by lia. lia. }
      pose proof (ndigits_spec q Hq) as [Hlo _].
      assert (10 ^ prec c <= 10 ^ (ndigits q - 1))
        by (apply Z.pow_le_mono_r; lia). lia. }
    assert (Hq : q = 10 ^ prec c) by lia.
    assert (Hq10 : q / 10 = 10 ^ (prec c - 1)).
    { rewrite Hq. replace (prec c) with (prec c - 1 + 1) at 1 by lia.
      rewrite pow10_split by lia. simpl. apply Z.div_mul. lia. }
    right. rewrite Hq10. done.
Qed.

Lemma fix_rounded (c : context) (s : bool) (cx e : Z) (r : decimal) :
  valid_context c -> 0 < cx ->
  let e0 := ndigits cx + e - prec c in
  let e1 := Z.max e0 (Etiny c) in
  let q := round_half_even cx (e1 - e) in
  e < e1 ->
  fix_ c (Dec s cx e) = Ok r ->
  dsign r = s /\ canonical c r /\ 0 <= q <= 10 ^ prec c /\
  (dmag r == inject_Z q * 10 ^ e1)%Q /\ dexp r <= e1 + 1.
Proof.
  intros Hv Hcx e0 e1 q Hlt Hf.
  destruct (fix_rounded_shape c s cx e r Hv Hcx Hlt Hf) as (Hq & Hr).
  fold e0 e1 q in Hq, Hr.
  pose proof (valid_Etiny c Hv) as (Ht0 & Htt & Hte).
  destruct Hv as (Hp & Hmax & Hmin).
  destruct Hr as [(-> & Hnq & He)|(-> & Hq' & He)]; simpl.
  - split; [done|]. split; [|split; [done|split; [reflexivity|lia]]].
    destruct (Z.eq_dec q 0) as [E|].
    + rewrite E. apply canonical_zero. lia.
    + apply canonical_nonzero; unfold Etop in *; lia.
  - pose proof (pow10_pos (prec c - 1) ltac:(lia)).
    split; [done|]. split; [|split; [done|split; [|lia]]].
    + apply canonical_nonzero; rewrite ?ndigits_pow10 by lia;
        unfold Etop in *; lia.
    + unfold dmag. simpl.
      rewrite (qmag_rescale (10 ^ (prec c - 1)) (e1 + 1) e1) by lia.
      replace (e1 + 1 - e1) with 1 by lia.
      rewrite Hq'. replace (prec c) with (prec c - 1 + 1) at 2 by lia.
      rewrite pow10_split by lia. reflexivity.
Qed.

Lemma fix_ge_core (c : context) (s : bool) (cx e cm em : Z) (r : decimal) :
  valid_context c ->
  0 < cx -> 0 < cm -> ndigits cm <= prec c -> Etiny c <= em ->
  (inject_Z cm * 10 ^ em <= inject_Z cx * 10 ^ e)%Q ->
  fix_ c (Dec s cx e) = Ok r ->
  (inject_Z cm * 10 ^ em <= dmag r)%Q.
Proof.
  intros Hv Hcx Hcm Hnm Hem Hle Hf.
  set (e0 := ndigits cx + e - prec c).
  set (e1 := Z.max e0 (Etiny c)).
  destruct (Z.lt_ge_cases e e1) as [Hlt|Hge].
  - destruct (fix_rounded c s cx e r Hv Hcx Hlt Hf) as (_ & _ & [Hq0 Hqle] & -> & _).
    fold e0 e1. set (q := round_half_even cx (e1 - e)) in *.
    destruct Hv as (Hp & Hmax & Hmin).
    destruct (Z.le_gt_cases e1 em) as [Hm|Hm].
    + apply (qmag_le_iff cm q em e1 e1); try lia.
      rewrite Z.sub_diag, Z.mul_1_r.
      apply rhe_ge_grid; try lia.
      apply (qmag_le_iff cm cx em e e) in Hle; try lia.
      rewrite Z.sub_diag, Z.mul_1_r in Hle.
      rewrite <- Z.mul_assoc, <- pow10_split by lia.
      now replace (em - e1 + (e1 - e)) with (em - e) by lia.
    + assert (He1 : e1 = e0) by lia.
      assert (Hq : 10 ^ (prec c - 1) <= q).
      { apply rhe_ge_grid; try lia.
        pose proof (ndigits_spec cx Hcx) as [Hlo _].
        rewrite <- pow10_split by lia.
        replace (prec c - 1 + (e1 - e)) with (ndigits cx - 1) by lia. done. }
      apply (qmag_le_iff cm q em e1 em); try lia.
      rewrite Z.sub_diag, Z.mul_1_r.
      pose proof (ndigits_spec cm Hcm) as [_ Hhi].
      assert (10 ^ ndigits cm <= 10 ^ prec c)
        by (apply Z.pow_le_mono_r; lia).
      assert (HP : 10 ^ 1 <= 10 ^ (e1 - em)) by (apply Z.pow_le_mono_r; lia).
      assert (HA : 10 ^ prec c = 10 ^ (prec c - 1) * 10).
      { replace (prec c) with (prec c - 1 + 1) at 1 by lia.
        now rewrite pow10_split by lia. }
      pose proof (pow10_pos (prec c - 1) ltac:(lia)).
      change (10 ^ 1) with 10 in HP.
      assert (10 ^ (prec c - 1) * 10 <= q * 10 ^ (e1 - em)) by nia. lia.
  - destruct (fix_nonzero c (Dec s cx e) Hcx) as [H|[H|[H|H]]]; simpl in H;
      fold e0 e1 in H; try lia.
    + destruct H as [_ H]. congruence.
    + destruct H as (_ & _ & H). rewrite Hf in H. injection H as ->. done.
Qed.

Lemma dval_pos_inv (d : decimal) :
  0 <= dcoef d -> (0 < dval d)%Q -> dsign d = false /\ 0 < dcoef d.
Proof.
  intros H0 H. pose proof (dmag_nonneg d H0). unfold dval in H.
  destruct (dsign d); [lra|]. split; [done|]. now apply dmag_pos_inv.
Qed.

Lemma dval_neg_inv (d : decimal) :
  0 <= dcoef d -> (dval d < 0)%Q -> dsign d = true /\ 0 < dcoef d.
Proof.
  intros H0 H. pose proof (dmag_nonneg d H0). unfold dval in H.
  destruct (dsign d); [|lra]. split; [done|]. apply dmag_pos_inv; [done|lra].
Qed.

(** Whatever [_fix] returns is canonical and has the sign of its
    argument. *)
Lemma fix_ok_canonical (c : context) (x r : decimal) :
  valid_context c -> 0 <= dcoef x -> fix_ c x = Ok r ->
  canonical c r /\ dsign r = dsign x.
Proof.
  intros Hv Hx Hf. pose proof (valid_Etiny c Hv) as (Ht0 & Htt & Hte).
  destruct (Z.eq_dec (dcoef x) 0) as [Zx|Nx].
  - rewrite fix_zero in Hf by done. injection Hf as <-.
    split; [apply canonical_zero; lia|done].
  - assert (Px : 0 < dcoef x) by lia. destruct x as [s cx e]. simpl in *.
    set (e0 := ndigits cx + e - prec c).
    set (e1 := Z.max e0 (Etiny c)).
    destruct (Z.lt_ge_cases e e1) as [Hlt|Hge].
    + destruct (fix_rounded c s cx e r Hv Px Hlt Hf) as (Hs & Hr & _).
      done.
    + destruct (fix_nonzero c (Dec s cx e) Px) as [H|[H|[H|H]]]; simpl in H;
        fold e0 e1 in H; try lia.
      * destruct H as [_ H]. congruence.
      * destruct H as (_ & _ & H). rewrite Hf in H. injection H as ->.
        split; [|done]. split; [simpl; lia|]. exact Hf.
Qed.

Lemma fix_mag_le (c : context) (x m : decimal) :
  valid_context c -> 0 <= dcoef x -> canonical c m ->
  (dmag x <= dmag m)%Q ->
  exists r,
    fix_ c x = Ok r /\ canonical c r /\ dsign r = dsign x /\
    (dmag r <= dmag m)%Q /\ dexp r <= Z.max (dexp x) (dexp m).
Proof.
  intros Hv Hx Hm Hle. pose proof (valid_Etiny c Hv) as (Ht0 & Htt & Hte).
  pose proof (dmag_nonneg m (proj1 Hm)) as Mm.
  destruct (Z.eq_dec (dcoef x) 0) as [Zx|Nx].
  - exists (Dec (dsign x) 0 (Z.min (Z.max (dexp x) (Etiny c)) (Emax c))).
    split; [now apply fix_zero|].
    split; [apply canonical_zero; lia|].
    split; [done|].
    split; [now rewrite dmag_zero|]. simpl.
    destruct (canonical_inv c m Hv Hm) as [[_ ?]|(_ & _ & ? & _)]; lia.
  - assert (Px : 0 < dcoef x) by lia.
    pose proof (dmag_pos x Px) as Mx.
    assert (Pm : 0 < dcoef m) by (apply dmag_pos_inv; [apply Hm|lra]).
    destruct (canonical_inv c m Hv Hm) as [[? _]|(_ & Nm & Tm & Am)]; [lia|].
    destruct x as [s cx e]. simpl in *.
    destruct (fix_le_core c s cx e (dcoef m) (dexp m) Hv Px Pm Nm Tm Am Hle)
      as (q & e' & Hf & Hc & Hle' & He').
    exists (Dec s q e'). done.
Qed.

Lemma fix_mag_ge (c : context) (x m r : decimal) :
  valid_context c -> 0 <= dcoef x -> canonical c m ->
  (dmag m <= dmag x)%Q -> fix_ c x = Ok r ->
  (dmag m <= dmag r)%Q.
Proof.
  intros Hv Hx Hm Hle Hf.
  destruct (fix_ok_canonical c x r Hv Hx Hf) as [Hr _].
  pose proof (dmag_nonneg r (proj1 Hr)) as Mr.
  destruct (canonical_inv c m Hv Hm) as [[Zm _]|(Pm & Nm & Tm & Am)].
  - now rewrite (dmag_zero m Zm).
  - pose proof (dmag_pos m Pm) as Mm.
    assert (Px : 0 < dcoef x) by (apply dmag_pos_inv; [done|lra]).
    destruct x as [s cx e]. simpl in *.
    now apply (fix_ge_core c s cx e (dcoef m) (dexp m) r).
Qed.

Lemma dval_le_dmag (d : decimal) : 0 <= dcoef d -> (dval d <= dmag d)%Q.
Proof.
  intros H. pose proof (dmag_nonneg d H). unfold dval.
  destruct (dsign d); lra.
Qed.

Lemma dval_ge_dmag (d : decimal) : 0 <= dcoef d -> (- dmag d <= dval d)%Q.
Proof.
  intros H. pose proof (dmag_nonneg d H). unfold dval.
  destruct (dsign d); lra.
Qed.

(** [_fix] never leaves an interval whose ends the context can represent,
    and never raises inside one. *)
Lemma fix_between (c : context) (x lo hi : decimal) :
  valid_context c -> 0 <= dcoef x ->
  canonical c lo -> canonical c hi ->
  (dval lo <= dval x <= dval hi)%Q ->
  exists r,
    fix_ c x = Ok r /\ canonical c r /\ dsign r = dsign x /\
    (dval lo <= dval r <= dval hi)%Q /\
    dexp r <= Z.max (dexp x) (Z.max (dexp lo) (dexp hi)).
Proof.
  intros Hv Hx Hlo Hhi [Hl Hh].
  pose proof (dmag_nonneg x Hx) as Mx.
  pose proof (dmag_nonneg lo (proj1 Hlo)) as Mlo.
  pose proof (dmag_nonneg hi (proj1 Hhi)) as Mhi.
  destruct (dsign x) eqn:Sx.
  - (* negative *)
    assert (Hle : (dmag x <= dmag lo)%Q).
    { unfold dval in Hl. rewrite Sx in Hl. destruct (dsign lo); lra. }
    destruct (fix_mag_le c x lo Hv Hx Hlo Hle) as (r & Hf & Hr & Hs & Hm & He).
    exists r. split; [done|]. split; [done|]. split; [congruence|].
    pose proof (dmag_nonneg r (proj1 Hr)) as Mr.
    split; [|lia]. rewrite Sx in Hs. split.
    + unfold dval in *. rewrite Hs. rewrite Sx in Hl.
      destruct (dsign lo); lra.
    + unfold dval in *. rewrite Hs. rewrite Sx in Hh.
      destruct (dsign hi) eqn:Sh; [|lra].
      assert (Hge : (dmag hi <= dmag x)%Q) by lra.
      pose proof (fix_mag_ge c x hi r Hv Hx Hhi Hge Hf). lra.
  - (* non-negative *)
    assert (Hle : (dmag x <= dmag hi)%Q).
    { unfold dval in Hh. rewrite Sx in Hh. destruct (dsign hi); lra. }
    destruct (fix_mag_le c x hi Hv Hx Hhi Hle) as (r & Hf & Hr & Hs & Hm & He).
    exists r. split; [done|]. split; [done|]. split; [congruence|].
    pose proof (dmag_nonneg r (proj1 Hr)) as Mr.
    split; [|lia]. rewrite Sx in Hs. split.
    + unfold dval in *. rewrite Hs. rewrite Sx in Hl.
      destruct (dsign lo) eqn:Sl; [lra|].
      assert (Hge : (dmag lo <= dmag x)%Q) by lra.
      pose proof (fix_mag_ge c x lo r Hv Hx Hlo Hge Hf). lra.
    + unfold dval in *. rewrite Hs. rewrite Sx in Hh.
      destruct (dsign hi); lra.
Qed.

(** ** The exact results before rounding *)

Lemma dval_signed (s : bool) (m e : Z) :
  (dval (Dec s m e) == inject_Z ((if s then -1 else 1) * m) * 10 ^ e)%Q.
Proof.
  unfold dval, dmag. simpl. destruct s.
  - rewrite inject_Z_mult. change (inject_Z (-1)) with (-1)%Q. ring.
  - rewrite Z.mul_1_l. reflexivity.
Qed.

Lemma dval_of_Z (s e : Z) :
  (dval (Dec (s <? 0) (Z.abs s) e) == inject_Z s * 10 ^ e)%Q.
Proof.
  rewrite dval_signed. destruct (Z.ltb_spec s 0).
  - replace (-1 * Z.abs s) with s by lia. reflexivity.
  - replace (1 * Z.abs s) with s by lia. reflexivity.
Qed.

Lemma scaled_val (d : decimal) (e : Z) :
  e <= dexp d -> (inject_Z (scaled d e) * 10 ^ e == dval d)%Q.
Proof.
  intros H. destruct d as [s m ed]. rewrite dval_signed. unfold scaled. simpl in *.
  symmetry. apply qmag_rescale. done.
Qed.

Lemma dval_Decimal (n : Z) : (dval (Decimal n) == inject_Z n)%Q.
Proof.
  unfold Decimal. rewrite dval_of_Z. change (10 ^ 0)%Q with 1%Q. ring.
Qed.

Lemma dval_copy_negate (d : decimal) : (dval (copy_negate d) == - dval d)%Q.
Proof. unfold dval, copy_negate, dmag. simpl. destruct (dsign d); simpl; ring. Qed.

Lemma dval_zero (d : decimal) : dcoef d = 0 -> (dval d == 0)%Q.
Proof.
  intros H. unfold dval. destruct (dsign d); rewrite (dmag_zero d H); ring.
Qed.


Lemma dec_add_fix c a b : dec_add c a b = fix_ c (add_exact a b).
Proof.
  unfold dec_add, add_exact.
  now destruct ((dcoef a =? 0) && (dcoef b =? 0)).
Qed.

Lemma add_exact_val (a b : decimal) :
  (dval (add_exact a b) == dval a + dval b)%Q.
Proof.
  unfold add_exact.
  destruct (Z.eqb_spec (dcoef a) 0) as [Za|Na];
    [destruct (Z.eqb_spec (dcoef b) 0) as [Zb|Nb]|]; simpl.
  - rewrite (dval_zero a Za), (dval_zero b Zb). apply dval_zero. done.
  - rewrite dval_of_Z, inject_Z_plus, Qmult_plus_distr_l.
    rewrite !scaled_val by lia. reflexivity.
  - rewrite dval_of_Z, inject_Z_plus, Qmult_plus_distr_l.
    rewrite !scaled_val by lia. reflexivity.
Qed.

Lemma add_exact_wf (a b : decimal) :
  0 <= dcoef (add_exact a b) /\ dexp (add_exact a b) = Z.min (dexp a) (dexp b).
Proof.
  unfold add_exact. destruct ((dcoef a =? 0) && (dcoef b =? 0)); simpl; lia.
Qed.

Lemma add_between (c : context) (a b lo hi : decimal) :
  valid_context c -> canonical c lo -> canonical c hi ->
  (dval lo <= dval a + dval b <= dval hi)%Q ->
  exists r,
    dec_add c a b = Ok r /\ canonical c r /\
    (dval lo <= dval r <= dval hi)%Q /\
    dexp r <= Z.max (Z.min (dexp a) (dexp b)) (Z.max (dexp lo) (dexp hi)).
Proof.
  intros Hv Hlo Hhi Hb. rewrite dec_add_fix.
  destruct (add_exact_wf a b) as [Hw He].
  rewrite <- add_exact_val in Hb.
  destruct (fix_between c _ lo hi Hv Hw Hlo Hhi Hb) as (r & Hf & Hc & _ & Hr & Hx).
  exists r. rewrite <- He. done.
Qed.

Lemma sub_between (c : context) (a b lo hi : decimal) :
  valid_context c -> canonical c lo -> canonical c hi ->
  (dval lo <= dval a - dval b <= dval hi)%Q ->
  exists r,
    dec_sub c a b = Ok r /\ canonical c r /\
    (dval lo <= dval r <= dval hi)%Q /\
    dexp r <= Z.max (Z.min (dexp a) (dexp b)) (Z.max (dexp lo) (dexp hi)).
Proof.
  intros Hv Hlo Hhi Hb. unfold dec_sub.
  apply (add_between c a (copy_negate b) lo hi); try done.
  rewrite dval_copy_negate. lra.
Qed.


Lemma mul_exact_val (a b : decimal) :
  (dval (mul_exact a b) == dval a * dval b)%Q.
Proof.
  unfold mul_exact, dval, dmag.
  destruct (dsign a), (dsign b); cbn [dsign dcoef dexp xorb];
    rewrite inject_Z_mult, q10_add; ring.
Qed.

Lemma mul_between (c : context) (a b lo hi : decimal) :
  valid_context c -> 0 <= dcoef a -> 0 <= dcoef b ->
  canonical c lo -> canonical c hi ->
  (dval lo <= dval a * dval b <= dval hi)%Q ->
  exists r,
    dec_mul c a b = Ok r /\ canonical c r /\
    (dval lo <= dval r <= dval hi)%Q /\
    dexp r <= Z.max (dexp a + dexp b) (Z.max (dexp lo) (dexp hi)).
Proof.
  intros Hv Ha Hb Hlo Hhi Hbd. unfold dec_mul. fold (mul_exact a b).
  rewrite <- mul_exact_val in Hbd.
  assert (Hw : 0 <= dcoef (mul_exact a b)) by (simpl; nia).
  destruct (fix_between c _ lo hi Hv Hw Hlo Hhi Hbd) as (r & Hf & Hc & _ & Hr & Hx).
  exists r. done.
Qed.

(** ** Division *)


Lemma dec_div_fix c a b :
  dcoef b <> 0 -> dec_div c a b = fix_ c (div_exact c a b).
Proof.
  intros Hb. unfold dec_div, div_exact.
  destruct (Z.eqb_spec (dcoef b) 0); [done|].
  destruct (dcoef a =? 0); [done|].
  destruct (0 <=? _); destruct (Z.div_eucl _ _) as [q r];
    destruct (r =? 0); try done; now destruct (strip_zeros _ _ _).
Qed.


Lemma quot_den_pos (cb shift : Z) : 0 < cb -> 0 < quot_den cb shift.
Proof.
  intros H. unfold quot_den. destruct (Z.leb_spec 0 shift); [done|].
  pose proof (pow10_pos (- shift) ltac:(lia)). nia.
Qed.

Lemma quot_num_pos (ca shift : Z) : 0 < ca -> 0 < quot_num ca shift.
Proof.
  intros H. unfold quot_num. destruct (Z.leb_spec 0 shift); [|done].
  pose proof (pow10_pos shift ltac:(lia)). nia.
Qed.

(** The long quotient has more than [p] digits. *)
Lemma quot_big (p ca cb shift : Z) :
  1 <= p -> 0 < ca -> 0 < cb ->
  shift = ndigits cb - ndigits ca + p + 1 ->
  10 ^ p <= quot_num ca shift / quot_den cb shift.
Proof.
  intros Hp Hca Hcb Hs.
  pose proof (quot_den_pos cb shift Hcb) as HD.
  apply Z.div_le_lower_bound; [done|].
  pose proof (ndigits_spec ca Hca) as [Hlo _].
  pose proof (ndigits_spec cb Hcb) as [_ Hhi].
  pose proof (ndigits_pos ca). pose proof (ndigits_pos cb).
  pose proof (pow10_pos p ltac:(lia)).
  unfold quot_num, quot_den in *. destruct (Z.leb_spec 0 shift).
  - assert (E : 10 ^ (ndigits ca - 1) * 10 ^ shift
                = 10 ^ ndigits cb * 10 ^ p).
    { rewrite <- !pow10_split by lia. f_equal. lia. }
    pose proof (pow10_pos shift ltac:(lia)). nia.
  - assert (E : 10 ^ (ndigits ca - 1)
                = 10 ^ ndigits cb * 10 ^ p * 10 ^ (- shift)).
    { rewrite <- !pow10_split by lia. f_equal. lia. }
    pose proof (pow10_pos (- shift) ltac:(lia)). nia.
Qed.

(** The quotient of the magnitudes, in units of [10^(ea - eb - shift)]. *)
Lemma quot_scale (ca cb ea eb shift : Z) :
  (inject_Z (quot_num ca shift) * 10 ^ (ea - eb - shift)
   * (inject_Z cb * 10 ^ eb)
   == inject_Z ca * 10 ^ ea * inject_Z (quot_den cb shift))%Q.
Proof.
  unfold quot_num, quot_den. destruct (Z.leb_spec 0 shift).
  - rewrite inject_Z_mult, q10_inject by lia.
    replace ea with ((ea - eb - shift) + (shift + eb)) at 2 by lia.
    rewrite (q10_add (ea - eb - shift)), (q10_add shift). ring.
  - rewrite inject_Z_mult, q10_inject by lia.
    replace (ea - eb - shift) with (ea + (- eb + - shift)) by lia.
    rewrite (q10_add ea), (q10_add (- eb)).
    assert (E : (10 ^ (- eb) * 10 ^ eb == 1)%Q).
    { rewrite <- q10_add. now replace (- eb + eb) with 0 by lia. }
    transitivity (inject_Z ca * 10 ^ ea * (inject_Z cb * 10 ^ (- shift))
                  * (10 ^ (- eb) * 10 ^ eb))%Q; [ring|].
    rewrite E. ring.
Qed.

Lemma div_exact_zero c a b :
  dcoef a = 0 ->
  div_exact c a b = Dec (xorb (dsign a) (dsign b)) 0 (dexp a - dexp b).
Proof. intros H. unfold div_exact. now rewrite H. Qed.

(** The shape of the long quotient. *)
Lemma div_exact_cases (c : context) (a b : decimal) :
  0 < dcoef a -> 0 < dcoef b ->
  let shift := ndigits (dcoef b) - ndigits (dcoef a) + prec c + 1 in
  let ex := dexp a - dexp b - shift in
  let N := quot_num (dcoef a) shift in
  let D := quot_den (dcoef b) shift in
  let pre := div_exact c a b in
  dsign pre = xorb (dsign a) (dsign b) /\ 0 <= dcoef pre /\
  (N mod D = 0 /\ ex <= dexp pre <= ex + Z.max 0 shift /\
   N / D = dcoef pre * 10 ^ (dexp pre - ex) \/
   N mod D <> 0 /\ dexp pre = ex /\
   (dcoef pre = N / D \/ dcoef pre = N / D + 1)).
Proof.
  intros Ha Hb shift ex N D pre.
  assert (HD : 0 < D) by now apply quot_den_pos.
  assert (HN : 0 < N) by now apply quot_num_pos.
  assert (Hk : 0 <= N / D) by (apply Z.div_pos; lia).
  assert (E : Z.div_eucl N D
              = if 0 <=? shift
                then Z.div_eucl (dcoef a * 10 ^ shift) (dcoef b)
                else Z.div_eucl (dcoef a) (dcoef b * 10 ^ (- shift))).
  { unfold N, D, quot_num, quot_den. now destruct (0 <=? shift). }
  unfold pre, div_exact.
  destruct (Z.eqb_spec (dcoef a) 0); [lia|].
  fold shift ex. rewrite <- E, div_eucl_eq.
  destruct (Z.eqb_spec (N mod D) 0) as [Hr|Hr].
  - pose proof (strip_zeros_spec (Z.to_nat shift) (N / D) ex Hk) as Hs.
    destruct (strip_zeros (Z.to_nat shift) (N / D) ex) as [c' e'].
    destruct Hs as (Hc' & He' & Heq). simpl.
    split; [done|]. split; [done|]. left. split; [done|]. split; [lia|done].
  - simpl. split; [done|].
    destruct (Z.eqb_spec (N / D mod 5) 0); (split; [lia|]); right;
      (split; [done|]); (split; [done|]); auto.
Qed.

Lemma div_exact_sandwich (c : context) (a b m : decimal) :
  valid_context c ->
  0 < dcoef a -> 0 < dcoef b -> 0 < dcoef m -> ndigits (dcoef m) <= prec c ->
  ((dmag a <= dmag m * dmag b)%Q -> (dmag (div_exact c a b) <= dmag m)%Q) /\
  ((dmag m * dmag b <= dmag a)%Q -> (dmag m <= dmag (div_exact c a b))%Q).
Proof.
  intros Hv Ha Hb Hm Hnm.
  pose proof (div_exact_cases c a b Ha Hb) as Hc. simpl in Hc.
  set (shift := ndigits (dcoef b) - ndigits (dcoef a) + prec c + 1) in *.
  set (ex := dexp a - dexp b - shift) in *.
  set (N := quot_num (dcoef a) shift) in *.
  set (D := quot_den (dcoef b) shift) in *.
  set (pre := div_exact c a b) in *.
  assert (HD : 0 < D) by now apply quot_den_pos.
  assert (HN : 0 < N) by now apply quot_num_pos.
  assert (Hbig : 10 ^ prec c <= N / D)
    by (apply quot_big; try done; apply Hv).
  pose proof (quot_scale (dcoef a) (dcoef b) (dexp a) (dexp b) shift) as Hsc.
  fold ex N D in Hsc. fold (dmag a) (dmag b) in Hsc.
  pose proof (dmag_pos b Hb) as Mb.
  assert (QD : (0 < inject_Z D)%Q)
    by (change 0%Q with (inject_Z 0); now rewrite <- Zlt_Qlt).
  destruct Hc as (Hs & Hp0 & [(Hr & He & Hq)|(Hr & He & Hk)]).
  - (* exact *)
    assert (Epre : (dmag pre * dmag b == dmag a)%Q).
    { assert (EN : N = D * (N / D))
        by (pose proof (Z.div_mod N D ltac:(lia)); lia).
      assert (Ep : (dmag pre == inject_Z (N / D) * 10 ^ ex)%Q).
      { unfold dmag. rewrite Hq. apply qmag_rescale. lia. }
      rewrite Ep. rewrite EN, inject_Z_mult in Hsc.
      apply (Qmult_inj_r _ _ (inject_Z D)); [lra|].
      rewrite <- Hsc. ring. }
    split; intros H.
    + apply (Qmult_le_r _ _ (dmag b)); [done|]. now rewrite Epre.
    + apply (Qmult_le_r _ _ (dmag b)); [done|]. now rewrite Epre.
  - (* inexact *)
    destruct Hv as (Hp & _ & _).
    pose proof (ndigits_spec (dcoef m) Hm) as [_ Hmhi].
    assert (Hcm : 0 < dcoef m < 10 ^ prec c).
    { split; [done|].
      assert (10 ^ ndigits (dcoef m) <= 10 ^ prec c)
        by (apply Z.pow_le_mono_r; lia). lia. }
    set (g := Z.min ex (dexp m)).
    split; intros H.
    + assert (H1 : (inject_Z N * 10 ^ ex
                    <= inject_Z (dcoef m * D) * 10 ^ dexp m)%Q).
      { apply (Qmult_le_r _ _ (dmag b)); [done|].
        rewrite Hsc, inject_Z_mult.
        assert (E2 : (inject_Z (dcoef m) * inject_Z D * 10 ^ dexp m * dmag b
                      == dmag m * dmag b * inject_Z D)%Q)
          by (unfold dmag; ring).
        rewrite E2. apply Qmult_le_r; done. }
      apply (qmag_le_iff N (dcoef m * D) ex (dexp m) g) in H1; try lia.
      unfold dmag. rewrite He.
      apply (qmag_le_iff (dcoef pre) (dcoef m) ex (dexp m) g); try lia.
      apply (sandwich_le N D (dcoef pre) (prec c)); try done; lia.
    + assert (H1 : (inject_Z (dcoef m * D) * 10 ^ dexp m
                    <= inject_Z N * 10 ^ ex)%Q).
      { apply (Qmult_le_r _ _ (dmag b)); [done|].
        rewrite Hsc, inject_Z_mult.
        assert (E2 : (inject_Z (dcoef m) * inject_Z D * 10 ^ dexp m * dmag b
                      == dmag m * dmag b * inject_Z D)%Q)
          by (unfold dmag; ring).
        rewrite E2. apply Qmult_le_r; done. }
      apply (qmag_le_iff (dcoef m * D) N (dexp m) ex g) in H1; try lia.
      unfold dmag. rewrite He.
      apply (qmag_le_iff (dcoef m) (dcoef pre) (dexp m) ex g); try lia.
      apply (sandwich_ge N D (dcoef pre) (prec c)); try done; lia.
Qed.

Lemma div_exact_wf (c : context) (a b : decimal) :
  0 <= dcoef a -> 0 < dcoef b ->
  0 <= dcoef (div_exact c a b) /\
  dsign (div_exact c a b) = xorb (dsign a) (dsign b) /\
  (ndigits (dcoef a) <= ndigits (dcoef b) + prec c + 1 ->
   dexp (div_exact c a b) <= dexp a - dexp b).
Proof.
  intros Ha Hb. destruct (Z.eq_dec (dcoef a) 0) as [Za|Na].
  - rewrite div_exact_zero by done. simpl. repeat split; try done; lia.
  - pose proof (div_exact_cases c a b ltac:(lia) Hb) as Hc.
    cbv zeta in Hc. destruct Hc as (Hs & H0 & Hc).
    split; [done|]. split; [done|]. intros Hsh.
    destruct Hc as [(_ & He & _)|(_ & He & _)]; lia.
Qed.

(** Division of a non-negative by a positive [Decimal] stays between the
    representable bounds of the exact quotient. *)
Lemma div_between (c : context) (a b lo hi : decimal) :
  valid_context c ->
  dsign a = false -> dsign b = false -> 0 <= dcoef a -> 0 < dcoef b ->
  canonical c lo -> canonical c hi ->
  (dval lo * dval b <= dval a <= dval hi * dval b)%Q ->
  exists r,
    dec_div c a b = Ok r /\ canonical c r /\ dsign r = false /\
    (dval lo <= dval r <= dval hi)%Q /\
    (ndigits (dcoef a) <= ndigits (dcoef b) + prec c + 1 ->
     dexp r <= Z.max (dexp a - dexp b) (Z.max (dexp lo) (dexp hi))).
Proof.
  intros Hv Sa Sb Ha Hb Hlo Hhi [Hl Hh].
  rewrite dec_div_fix by lia.
  destruct (div_exact_wf c a b Ha Hb) as (Hw & Hs & He).
  rewrite Sa, Sb in Hs. simpl in Hs.
  set (pre := div_exact c a b) in *.
  pose proof (dmag_pos b Hb) as Mb.
  pose proof (dmag_nonneg a Ha) as Ma.
  pose proof (dmag_nonneg pre Hw) as Mp.
  pose proof (dmag_nonneg lo (proj1 Hlo)) as Mlo.
  pose proof (dmag_nonneg hi (proj1 Hhi)) as Mhi.
  assert (Va : (dval a == dmag a)%Q) by (unfold dval; now rewrite Sa).
  assert (Vb : (dval b == dmag b)%Q) by (unfold dval; now rewrite Sb).
  assert (Vp : (dval pre == dmag pre)%Q) by (unfold dval; now rewrite Hs).
  rewrite Va, Vb in Hl, Hh.
  assert (Hbd : (dval lo <= dval pre <= dval hi)%Q).
  { rewrite Vp. destruct (Z.eq_dec (dcoef a) 0) as [Za|Na].
    - assert (Ep : (dmag pre == 0)%Q).
      { unfold pre. rewrite div_exact_zero by done. apply dmag_zero. done. }
      rewrite Ep. rewrite (dmag_zero a Za) in Hl, Hh.
      split.
      + destruct (Qlt_le_dec 0 (dval lo)) as [Hpos|]; [|done].
        exfalso. assert (0 < dval lo * dmag b)%Q by (apply Qmult_lt_0_compat; done).
        lra.
      + destruct (Qlt_le_dec (dval hi) 0) as [Hneg|]; [|done].
        exfalso. assert (dval hi * dmag b < 0 * dmag b)%Q
          by (apply Qmult_lt_r; done). lra.
    - assert (Pa : 0 < dcoef a) by lia. pose proof (dmag_pos a Pa) as Ma'.
      split.
      + destruct (Qlt_le_dec 0 (dval lo)) as [Hpos|]; [|lra].
        destruct (dval_pos_inv lo (proj1 Hlo) Hpos) as [Sl Pl].
        assert (Vl : (dval lo == dmag lo)%Q) by (unfold dval; now rewrite Sl).
        rewrite Vl in *.
        destruct (canonical_inv c lo Hv Hlo) as [[? _]|(_ & Nl & _)]; [lia|].
        apply (div_exact_sandwich c a b lo); done.
      + assert (Hpos : (0 < dval hi)%Q).
        { destruct (Qlt_le_dec 0 (dval hi)) as [|Hneg]; [done|].
          exfalso. assert (dval hi * dmag b <= 0 * dmag b)%Q
            by (apply Qmult_le_r; done). lra. }
        destruct (dval_pos_inv hi (proj1 Hhi) Hpos) as [Sh Ph].
        assert (Vh : (dval hi == dmag hi)%Q) by (unfold dval; now rewrite Sh).
        rewrite Vh in *.
        destruct (canonical_inv c hi Hv Hhi) as [[? _]|(_ & Nh & _)]; [lia|].
        apply (div_exact_sandwich c a b hi); done. }
  destruct (fix_between c pre lo hi Hv Hw Hlo Hhi Hbd)
    as (r & Hf & Hc & Hsr & Hr & Hx).
  exists r. split; [done|]. split; [done|]. split; [congruence|].
  split; [done|]. intros Hsh. specialize (He Hsh). lia.
Qed.

(** ** Bounds the context can represent *)

Lemma canonical_small (c : context) (s : bool) (m e n : Z) :
  0 < m < 10 ^ n -> 1 <= n <= prec c -> Etiny c <= e ->
  n + e - 1 <= Emax c ->
  canonical c (Dec s m e).
Proof.
  intros Hm Hn He Ha.
  pose proof (ndigits_lt_pow m n ltac:(lia) ltac:(lia)).
  apply canonical_nonzero; lia.
Qed.

Lemma canonical_Decimal0 (c : context) :
  valid_context c -> canonical c (Decimal 0).
Proof.
  intros Hv. pose proof (valid_Etiny c Hv). destruct Hv as (? & ? & ?).
  apply canonical_zero. lia.
Qed.

Lemma dval_Dec0 (s : bool) (e : Z) : (dval (Dec s 0 e) == 0)%Q.
Proof. now apply dval_zero. Qed.

Lemma dval_pos_dec (m e : Z) : (dval (Dec false m e) == inject_Z m * 10 ^ e)%Q.
Proof. reflexivity. Qed.

Lemma dval_neg_dec (m e : Z) : (dval (Dec true m e) == - (inject_Z m * 10 ^ e))%Q.
Proof. reflexivity. Qed.

Lemma q10_0 : (10 ^ 0 == 1)%Q.
Proof. reflexivity. Qed.

Lemma q10_neg_mul (k : Z) : (10 ^ (- k) * 10 ^ k == 1)%Q.
Proof. rewrite <- q10_add. now replace (- k + k) with 0 by lia. Qed.

Lemma q10_succ (k : Z) : (10 ^ (k + 1) == 10 * 10 ^ k)%Q.
Proof. rewrite q10_add. change (10 ^ 1)%Q with 10%Q. ring. Qed.

Lemma q10_le_1 (k : Z) : 0 <= k -> (10 ^ (- k) <= 1)%Q.
Proof. intros H. change 1%Q with (10 ^ 0)%Q. apply q10_le. lia. Qed.

(** ** Running a computation step by step *)

Lemma under_ctx_ok {A} (f : context -> result A) (c : context) (a : A) :
  f c = Ok a -> under_ctx f c = (Ok a, c).
Proof. intros H. unfold under_ctx. now rewrite H. Qed.

Lemma for_fold_app {S A X} (body : A -> X -> M S A) (xs ys : list X) acc s :
  for_fold body (xs ++ ys) acc s
  = bind (for_fold body xs acc) (for_fold body ys) s.
Proof.
  revert acc s. induction xs as [|x xs IH]; intros acc s; simpl.
  - reflexivity.
  - unfold bind in *. destruct (body acc x s) as [[a|e] s']; [|done].
    rewrite IH. reflexivity.
Qed.

(** ** The terms of the series *)

Lemma pow16_ge_pow10 (k : Z) : 0 <= k -> 10 ^ k <= 16 ^ k.
Proof. intros H. apply Z.pow_le_mono_l. lia. Qed.

Lemma pow16_pos (k : Z) : 0 <= k -> 0 < 16 ^ k.
Proof. intros. apply Z.pow_pos_nonneg; lia. Qed.

Lemma Decimal_nonneg (n : Z) :
  0 <= n -> Decimal n = Dec false n 0.
Proof.
  intros H. unfold Decimal. destruct (Z.ltb_spec n 0); [lia|].
  now rewrite Z.abs_eq.
Qed.

(** A quotient [n / d] of small positive integers lies in [0, n]. *)
Lemma small_quotient (c : context) (n d : Z) :
  valid_context c -> 1 <= n <= 9 -> 1 <= d ->
  exists r,
    dec_div c (Decimal n) (Decimal d) = Ok r /\ canonical c r /\
    dsign r = false /\
    (0 <= dval r <= inject_Z n)%Q /\ dexp r <= 0.
Proof.
  intros Hv Hn Hd. pose proof (valid_Etiny c Hv) as (? & ? & ?).
  pose proof Hv as (Hp & Hmax & Hmin).
  rewrite !Decimal_nonneg by lia.
  destruct (div_between c (Dec false n 0) (Dec false d 0)
              (Decimal 0) (Dec false n 0) Hv) as (r & Hf & Hc & Hs & Hr & He);
    try done; simpl; try lia.
  - now apply canonical_Decimal0.
  - apply (canonical_small c false n 0 1); simpl; lia.
  - rewrite dval_Decimal, !dval_pos_dec, q10_0.
    change (inject_Z 0) with 0%Q.
    assert (1 <= inject_Z d)%Q
      by (change 1%Q with (inject_Z 1); now rewrite <- Zle_Qle).
    assert (1 <= inject_Z n)%Q
      by (change 1%Q with (inject_Z 1); rewrite <- Zle_Qle; lia).
    split; [lra|]. nra.
  - exists r. split; [done|]. split; [done|]. split; [done|].
    rewrite dval_Decimal, dval_pos_dec, q10_0 in Hr.
    change (inject_Z 0) with 0%Q in Hr.
    split; [lra|].
    assert (ndigits n <= 1).
    { pose proof (ndigits_lt_pow n 1 ltac:(lia) ltac:(simpl; lia)). lia. }
    pose proof (ndigits_pos d). simpl in He. lia.
Qed.

Lemma canonical_wf (c : context) (d : decimal) : canonical c d -> 0 <= dcoef d.
Proof. now intros [H _]. Qed.


Lemma term_scale_range (c : context) (k : Z) :
  valid_context c -> 0 <= k ->
  0 <= term_scale c k <= k /\ Etiny c <= - term_scale c k.
Proof.
  intros Hv Hk. pose proof (valid_Etiny c Hv). unfold term_scale.
  destruct (Z.leb_spec (Etiny c) (- k)); lia.
Qed.

(** Every term is computed without an exception, is canonical, has a
    non-positive exponent and is at most [4 * 10^-k] in magnitude. *)
Lemma bbp_term_bounded (c : context) (k : Z) :
  valid_context c -> 0 <= k ->
  exists t,
    bbp_term k c = (Ok t, c) /\ canonical c t /\ dexp t <= 0 /\
    (- (4 * 10 ^ (- term_scale c k)) <= dval t
     <= 4 * 10 ^ (- term_scale c k))%Q.
Proof.
  intros Hv Hk.
  destruct (term_scale_range c k Hv Hk) as ([Hs0 Hsk] & Hst).
  set (k' := term_scale c k) in *.
  pose proof (valid_Etiny c Hv) as (Ht0 & Htt & Hte).
  pose proof Hv as (Hp & Hmax & Hmin).
  (* p = 1 / 16^k *)
  destruct (div_between c (Decimal 1) (Decimal (16 ^ k))
              (Decimal 0) (Dec false 1 (- k')) Hv) as (p & Ep & Cp & Sp & Bp & Xp);
    try (rewrite ?Decimal_nonneg by (pose proof (pow16_pos k Hk); lia); simpl; done).
  { rewrite Decimal_nonneg by (pose proof (pow16_pos k Hk); lia). simpl.
    apply pow16_pos. done. }
  { now apply canonical_Decimal0. }
  { apply (canonical_small c false 1 (- k') 1); simpl; lia. }
  { rewrite !dval_Decimal, dval_pos_dec. change (inject_Z 0) with 0%Q.
    change (inject_Z 1) with 1%Q. split.
    - assert (0 <= inject_Z (16 ^ k))%Q.
      { change 0%Q with (inject_Z 0). rewrite <- Zle_Qle.
        pose proof (pow16_pos k Hk). lia. }
      lra.
    - assert (H16 : (10 ^ k' <= inject_Z (16 ^ k))%Q).
      { rewrite <- q10_inject by lia. rewrite <- Zle_Qle.
        pose proof (pow16_ge_pow10 k Hk).
        assert (10 ^ k' <= 10 ^ k) by (apply Z.pow_le_mono_r; lia). lia. }
      pose proof (q10_neg_mul k') as E. pose proof (q10_pos (- k')) as P.
      rewrite Qmult_1_l.
      rewrite <- E. apply Qmult_le_l; done. }
  assert (Xp' : dexp p <= 0).
  { apply Z.le_trans with (1 := Xp ltac:(
      rewrite !Decimal_nonneg by (pose proof (pow16_pos k Hk); lia); simpl;
      pose proof (ndigits_pos (16 ^ k)); change (ndigits 1) with 1; lia)).
    rewrite !Decimal_nonneg by (pose proof (pow16_pos k Hk); lia). simpl. lia. }
  rewrite dval_Decimal, dval_pos_dec in Bp. change (inject_Z 0) with 0%Q in Bp.
  change (inject_Z 1) with 1%Q in Bp. rewrite Qmult_1_l in Bp.
  (* the four quotients *)
  destruct (small_quotient c 4 (8 * k + 1) Hv) as (a1 & E1 & C1 & _ & B1 & X1);
    [lia|lia|].
  destruct (small_quotient c 2 (8 * k + 4) Hv) as (a2 & E2 & C2 & _ & B2 & X2);
    [lia|lia|].
  destruct (small_quotient c 1 (8 * k + 5) Hv) as (a3 & E3 & C3 & _ & B3 & X3);
    [lia|lia|].
  destruct (small_quotient c 1 (8 * k + 6) Hv) as (a4 & E4 & C4 & _ & B4 & X4);
    [lia|lia|].
  change (inject_Z 4) with 4%Q in B1. change (inject_Z 2) with 2%Q in B2.
  change (inject_Z 1) with 1%Q in B3, B4.
  (* the three differences *)
  destruct (sub_between c a1 a2 (Dec true 2 0) (Dec false 4 0) Hv)
    as (s1 & F1 & D1 & G1 & Y1).
  { apply (canonical_small c true 2 0 1); simpl; lia. }
  { apply (canonical_small c false 4 0 1); simpl; lia. }
  { rewrite dval_neg_dec, dval_pos_dec, q10_0.
    change (inject_Z 2) with 2%Q. change (inject_Z 4) with 4%Q. lra. }
  destruct (sub_between c s1 a3 (Dec true 3 0) (Dec false 4 0) Hv)
    as (s2 & F2 & D2 & G2 & Y2).
  { apply (canonical_small c true 3 0 1); simpl; lia. }
  { apply (canonical_small c false 4 0 1); simpl; lia. }
  { rewrite dval_neg_dec, dval_pos_dec, q10_0 in *.
    change (inject_Z 2) with 2%Q in *. change (inject_Z 3) with 3%Q.
    change (inject_Z 4) with 4%Q in *. lra. }
  destruct (sub_between c s2 a4 (Dec true 4 0) (Dec false 4 0) Hv)
    as (s3 & F3 & D3 & G3 & Y3).
  { apply (canonical_small c true 4 0 1); simpl; lia. }
  { apply (canonical_small c false 4 0 1); simpl; lia. }
  { rewrite dval_neg_dec, dval_pos_dec, q10_0 in *.
    change (inject_Z 3) with 3%Q in *.
    change (inject_Z 4) with 4%Q in *. lra. }
  rewrite dval_neg_dec, dval_pos_dec, q10_0 in G3.
  change (inject_Z 4) with 4%Q in G3.
  (* the product *)
  destruct (mul_between c p s3 (Dec true 4 (- k')) (Dec false 4 (- k')) Hv)
    as (t & Ft & Dt & Gt & Yt).
  { now apply canonical_wf in Cp. }
  { now apply canonical_wf in D3. }
  { apply (canonical_small c true 4 (- k') 1); simpl; lia. }
  { apply (canonical_small c false 4 (- k') 1); simpl; lia. }
  { rewrite dval_neg_dec, dval_pos_dec. change (inject_Z 4) with 4%Q.
    pose proof (q10_pos (- k')). split; nra. }
  exists t. split; [|split; [done|split]].
  - unfold bbp_term. destruct (Z.ltb_spec k 0); [lia|].
    unfold bind, under_ctx.
    rewrite Ep, E1, E2, F1, E3, F2, E4, F3, Ft. reflexivity.
  - simpl in *. lia.
  - rewrite dval_neg_dec, dval_pos_dec in Gt.
    change (inject_Z 4) with 4%Q in Gt. done.
Qed.

(** ** Hit counts *)

Section Hits.

Context {float rng : Type}.
Variable random : rng -> float * rng.
Variable fmul fadd : float -> float -> float.
Variable fle_one : float -> bool.

Abbreviation sample_step := (sample_step random fmul fadd fle_one).
Abbreviation monte_carlo_serial := (monte_carlo_serial random fmul fadd fle_one).
Abbreviation _mc_worker := (_mc_worker random fmul fadd fle_one).
Abbreviation mc_jobs := (mc_jobs random fmul fadd fle_one).
Abbreviation monte_carlo_parallel :=
  (monte_carlo_parallel random fmul fadd fle_one).

(** One sample never raises and adds at most one hit. *)
Lemma sample_step_hits inside i (s : process rng) :
  exists inside' s',
    sample_step inside i s = (Ok inside', s') /\
    inside <= inside' <= inside + 1 /\ p_ctx s' = p_ctx s.
Proof.
  unfold_sample_step. unfold bind, random_random, ret.
  destruct (random (p_rng s)) as [x g1]. simpl.
  destruct (random g1) as [y g2]. simpl.
  destruct (fle_one _); eexists _, _; (split; [reflexivity|]); simpl;
    split; (lia || done).
Qed.

(** The sampling loop never raises; it counts at most one hit per sample
    drawn and never loses one. *)
Lemma sampling_loop_hits (xs : list Z) inside (s : process rng) :
  exists inside' s',
    for_fold sample_step xs inside s = (Ok inside', s') /\
    inside <= inside' <= inside + Z.of_nat (length xs) /\
    p_ctx s' = p_ctx s.
Proof.
  revert inside s. induction xs as [|x xs IH]; intros inside s; simpl.
  - exists inside, s. unfold ret. repeat split; lia.
  - destruct (sample_step_hits inside x s) as (i1 & s1 & E1 & B1 & C1).
    destruct (IH i1 s1) as (i2 & s2 & E2 & B2 & C2).
    exists i2, s2. unfold bind. rewrite E1, E2.
    split; [done|]. split; [lia|congruence].
Qed.

Lemma length_seqZ_max (m n : Z) : Z.of_nat (length (seqZ m n)) = Z.max 0 n.
Proof. rewrite length_seqZ. lia. Qed.

(** What a sampling worker leaves in its slot. *)
Lemma mc_worker_hits samples (d : gmap nat Z) idx (s : process rng) :
  exists inside s',
    _mc_worker samples d idx s = (Ok (<[idx := inside]> d), s') /\
    0 <= inside <= Z.max 0 samples.
Proof.
  unfold_mc_worker.
  destruct (sampling_loop_hits (seqZ 0 samples) 0 s) as (i & s' & E & B & _).
  exists i, s'. unfold bind, ret. rewrite E. split; [done|].
  rewrite length_seqZ_max in B. lia.
Qed.

(** After the join every slot that was written holds between 0 and the
    chunk's size hits, and only the slots of the chunks are written. *)
Lemma mc_jobs_slots (ch : children (process rng)) (chunks : list (Z * Z))
    (idx : nat) (v : Z) :
  mc_jobs ch chunks !! idx = Some v ->
  exists start size,
    chunks !! idx = Some (start, size) /\ 0 <= v <= Z.max 0 size.
Proof.
  unfold_mc_jobs. unfold enumerate. revert idx v.
  induction chunks as [|[start size] chunks IH] using rev_ind; intros idx v.
  - simpl. now rewrite lookup_empty.
  - rewrite imap_app, foldl_app. simpl. rewrite Nat.add_0_r.
    set (d := foldl _ ∅ _) in *.
    unfold run_child.
    destruct (child_killed ch (length chunks)).
    + intros H. destruct (IH idx v H) as (s0 & z0 & Hl & B).
      exists s0, z0. split; [|done]. now apply lookup_app_l_Some.
    + destruct (mc_worker_hits size d (length chunks)
                  (child_state ch (length chunks))) as (i & s' & E & B).
      fold d. rewrite E.
      destruct (decide (idx = length chunks)) as [->|Hne].
      * rewrite lookup_insert_eq. intros [= <-].
        exists start, size. split; [|done].
        rewrite lookup_app_r by lia. now rewrite Nat.sub_diag.
      * rewrite lookup_insert_ne by done. intros H.
        destruct (IH idx v H) as (s0 & z0 & Hl & B').
        exists s0, z0. split; [|done]. now apply lookup_app_l_Some.
Qed.

(** The sum of the slots stays below any running bound [U] that grows by at
    at least the content of each slot. *)
Lemma sum_hits_bound {St} (d : gmap nat Z) (U : nat -> Z) (n : nat)
    (s s' : St) (r : Z) :
  U 0%nat = 0 ->
  (forall idx v, (idx < n)%nat -> d !! idx = Some v ->
                 0 <= v <= U (S idx) - U idx) ->
  sum_hits d n s = (Ok r, s') ->
  0 <= r <= U n /\ s' = s.
Proof.
  intros HU0 Hd. unfold sum_hits. revert r s'.
  induction n as [|n IH]; intros r s'.
  - simpl. unfold ret. intros [= <- <-]. split; [lia|done].
  - rewrite seq_S, for_fold_app. simpl. unfold bind at 1.
    destruct (for_fold _ (seq 0 n) 0 s) as [[acc|e] s1] eqn:E; [|done].
    destruct (IH ltac:(intros; apply Hd; [lia|done]) acc s1 eq_refl)
      as [Hacc ->].
    unfold bind, dict_get, ret.
    destruct (d !! n) as [v|] eqn:Ev; [|done].
    simpl. intros [= <- <-]. specialize (Hd n v ltac:(lia) Ev).
    split; [lia|done].
Qed.

Lemma ratio_in_0_4 (inside total : Z) :
  1 <= total -> 0 <= inside <= total ->
  (0 <= 4 * inject_Z inside / inject_Z total <= 4)%Q.
Proof.
  intros Ht [H0 H1].
  assert (0 < inject_Z total)%Q
    by (change 0%Q with (inject_Z 0); rewrite <- Zlt_Qlt; lia).
  assert (0 <= inject_Z inside)%Q
    by (change 0%Q with (inject_Z 0); now rewrite <- Zle_Qle).
  assert (inject_Z inside <= inject_Z total)%Q by now rewrite <- Zle_Qle.
  split.
  - apply Qle_shift_div_l; [done|]. lra.
  - apply Qle_shift_div_r; [done|]. lra.
Qed.

(** The serial path is the final division applied to a hit count between 0
    and the number of samples. *)
Lemma mc_serial_hits (digits spd : Z) (s : process rng) :
  1 <= digits -> digits + 2 <= MAX_PREC -> 1 <= spd ->
  let total := digits * spd in
  let c := Ctx (digits + 2) (Emax (p_ctx s)) (Emin (p_ctx s)) in
  exists inside g,
    0 <= inside <= total /\
    monte_carlo_serial digits spd s
    = with_ctx (mc_result digits inside total) (Process c g).
Proof.
  intros Hd Hmax Hs total c.
  assert (Ht : 1 <= total) by (unfold total; nia).
  destruct (with_set_prec_then (digits + 2) _ s
              (mc_serial_body_keeps random fmul fadd fle_one digits spd))
    as (_ & _ & Heq). specialize (Heq (prec_check_ok (digits + 2) ltac:(lia))).
  destruct (sampling_loop_hits (seqZ 0 total) 0 (Process c (p_rng s)))
    as (inside & s1 & E & B & C).
  rewrite length_seqZ_max in B.
  exists inside, (p_rng s1). split; [lia|].
  etransitivity; [exact Heq|]. cbv zeta. fold total c.
  unfold bind. rewrite E. destruct s1 as [c1 g1]. simpl in C. now subst c1.
Qed.

(** So is the parallel path whenever it returns. *)
Lemma mc_parallel_hits (ch : children (process rng))
    (digits spd chunk_size : Z) (s : process rng) r s' :
  1 <= digits -> 1 <= spd -> 1 <= chunk_size ->
  let total := digits * spd in
  let c := Ctx (digits + 2) (Emax (p_ctx s)) (Emin (p_ctx s)) in
  monte_carlo_parallel ch digits spd chunk_size s = (Ok r, s') ->
  exists inside,
    0 <= inside <= total /\
    (Ok r, s')
    = with_ctx (mc_result digits inside total) (Process c (p_rng s)).
Proof.
  intros Hd Hs Hc total c Hret.
  assert (Ht : 1 <= total) by (unfold total; nia).
  pose proof (with_set_prec_returns _ _ _ _ _
                (mc_parallel_body_keeps random fmul fadd fle_one ch digits spd
                   chunk_size) Hret) as [Hp _].
  destruct (with_set_prec_then (digits + 2) _ s
              (mc_parallel_body_keeps random fmul fadd fle_one ch digits spd
                 chunk_size)) as (_ & _ & Heq).
  specialize (Heq (prec_check_ok _ Hp)).
  assert (Hret' := eq_trans (eq_sym Heq) Hret). clear Heq Hret.
  revert Hret'. cbv zeta. fold total c. rewrite mc_chunks_forward by lia.
  set (n := (total + chunk_size - 1) / chunk_size).
  set (chunks := (fun i => (i * chunk_size, Z.min chunk_size (total - i * chunk_size)))
                   <$> seqZ 0 n).
  unfold bind at 1, lift. unfold bind at 1.
  destruct (sum_hits _ _ _) as [[inside|e] s1] eqn:E; [|done].
  intros H.
  destruct (ceil_div_spec total chunk_size Ht Hc) as (Hn1 & Hlo & Hhi).
  fold n in Hn1, Hlo, Hhi.
  assert (Hlen : Z.of_nat (length chunks) = n).
  { unfold chunks. rewrite length_fmap, length_seqZ. lia. }
  assert (Hslots : forall idx v, (idx < length chunks)%nat ->
            mc_jobs ch chunks !! idx = Some v ->
            0 <= v <= Z.min (Z.of_nat (S idx) * chunk_size) total
                      - Z.min (Z.of_nat idx * chunk_size) total).
  { intros idx v Hidx Hv.
    apply mc_jobs_slots in Hv as (start & size & Hl & Bv).
    unfold chunks in Hl. rewrite list_lookup_fmap in Hl.
    destruct (seqZ 0 n !! idx) as [i|] eqn:Ei; [|done].
    apply lookup_seqZ in Ei as [-> Hi]. simpl in Hl.
    injection Hl as <- <-. nia. }
  destruct (sum_hits_bound _
              (fun k => Z.min (Z.of_nat k * chunk_size) total)
              _ _ _ _ ltac:(simpl; lia) Hslots E) as [B ->].
  exists inside. split; [nia|]. now rewrite <- H.
Qed.

End Hits.


(** ** Who sets the precision *)

(** Code that begins with [getcontext().prec = p] does not depend on the
    precision in force before. *)
Lemma set_prec_forgets {A} (p : Z) (k : M context A) (c1 c2 : context) :
  keeps id k -> Emax c1 = Emax c2 -> Emin c1 = Emin c2 ->
  fst (bind (set_prec p) (fun _ => k) c1)
  = fst (bind (set_prec p) (fun _ => k) c2).
Proof.
  intros Hk Hx Hn.
  destruct (set_prec_then p k c1 Hk) as (_ & L1 & G1).
  destruct (set_prec_then p k c2 Hk) as (_ & L2 & G2).
  destruct (prec_check p) as [e|].
  - now rewrite (L1 e), (L2 e).
  - rewrite G1, G2 by done. now rewrite Hx, Hn.
Qed.

Lemma bbp_worker_body_keeps (start end_ : Z) (d : gmap nat decimal) (idx : nat) :
  keeps id (let* partial := for_fold bbp_step (seqZ start (end_ - start))
                              (Decimal 0) in
            ret (<[idx := partial]> d)).
Proof. keeps_tac. Qed.

Section Precision.

Context {float rng : Type}.
Variable random : rng -> float * rng.
Variable fmul fadd : float -> float -> float.
Variable fle_one : float -> bool.

Abbreviation sample_step := (sample_step random fmul fadd fle_one).
Abbreviation monte_carlo_serial := (monte_carlo_serial random fmul fadd fle_one).
Abbreviation _mc_worker := (_mc_worker random fmul fadd fle_one).
Abbreviation monte_carlo_parallel :=
  (monte_carlo_parallel random fmul fadd fle_one).

(** A sample reads and writes the generator only. *)
Lemma sample_step_ignores_ctx inside i (c1 c2 : context) g :
  exists inside' g',
    sample_step inside i (Process c1 g) = (Ok inside', Process c1 g') /\
    sample_step inside i (Process c2 g) = (Ok inside', Process c2 g').
Proof.
  unfold_sample_step. unfold bind, random_random, ret. simpl.
  destruct (random g) as [x1 g1]. simpl.
  destruct (random g1) as [y1 g2]. simpl.
  destruct (fle_one _); eexists _, _; split; reflexivity.
Qed.

Lemma sampling_loop_ignores_ctx (xs : list Z) inside (c1 c2 : context) g :
  exists inside' g',
    for_fold sample_step xs inside (Process c1 g)
    = (Ok inside', Process c1 g') /\
    for_fold sample_step xs inside (Process c2 g)
    = (Ok inside', Process c2 g').
Proof.
  revert inside g. induction xs as [|x xs IH]; intros inside g; simpl.
  - exists inside, g. done.
  - destruct (sample_step_ignores_ctx inside x c1 c2 g)
      as (i1 & g1 & E1 & E2).
    rewrite (bind_ok _ _ _ _ _ E1), (bind_ok _ _ _ _ _ E2). apply IH.
Qed.

Lemma with_set_prec_forgets {A} (p : Z) (k : M (process rng) A)
    (c1 c2 : context) g :
  keeps (@p_ctx rng) k -> Emax c1 = Emax c2 -> Emin c1 = Emin c2 ->
  fst (bind (with_ctx (set_prec p)) (fun _ => k) (Process c1 g))
  = fst (bind (with_ctx (set_prec p)) (fun _ => k) (Process c2 g)).
Proof.
  intros Hk Hx Hn.
  destruct (with_set_prec_then p k (Process c1 g) Hk) as (_ & L1 & G1).
  destruct (with_set_prec_then p k (Process c2 g) Hk) as (_ & L2 & G2).
  destruct (prec_check p) as [e|].
  - now rewrite (L1 e), (L2 e).
  - rewrite G1, G2 by done. simpl. now rewrite Hx, Hn.
Qed.

(** C6, as the code has it.  The serial evaluators, the parallel entry
    points and every digit-series worker assign the precision first
    ([digits + 10] for the digit series, [digits + 2] for sampling): what
    they return does not depend on the precision in force before, and the
    worker's context holds [digits + 10] afterwards.  The sampling worker
    assigns none: it leaves the context of its process as it found it, and
    its count does not depend on that context. *)
Theorem precision_set_on_entry
    (chb : children context) (chm : children (process rng))
    (digits chunk_size spd start end_ samples : Z)
    (db : gmap nat decimal) (dm : gmap nat Z) (idx : nat) :
  (forall c1 c2, Emax c1 = Emax c2 -> Emin c1 = Emin c2 ->
     fst (bbp_serial digits c1) = fst (bbp_serial digits c2) /\
     fst (_bbp_worker start end_ digits db idx c1)
     = fst (_bbp_worker start end_ digits db idx c2) /\
     fst (bbp_parallel chb digits chunk_size c1)
     = fst (bbp_parallel chb digits chunk_size c2)) /\
  (forall c r c', _bbp_worker start end_ digits db idx c = (Ok r, c') ->
     prec c' = digits + 10 /\ digits + 2 <= prec c') /\
  (forall c1 c2 g, Emax c1 = Emax c2 -> Emin c1 = Emin c2 ->
     fst (monte_carlo_serial digits spd (Process c1 g))
     = fst (monte_carlo_serial digits spd (Process c2 g)) /\
     fst (monte_carlo_parallel chm digits spd chunk_size (Process c1 g))
     = fst (monte_carlo_parallel chm digits spd chunk_size (Process c2 g))) /\
  (forall s, p_ctx (snd (_mc_worker samples dm idx s)) = p_ctx s) /\
  (forall c1 c2 g,
     fst (_mc_worker samples dm idx (Process c1 g))
     = fst (_mc_worker samples dm idx (Process c2 g))).
Proof.
  split; [|split; [|split; [|split]]].
  - intros c1 c2 Hx Hn. split; [|split].
    + apply set_prec_forgets; [apply bbp_serial_body_keeps|done|done].
    + apply set_prec_forgets; [apply bbp_worker_body_keeps|done|done].
    + apply set_prec_forgets; [apply bbp_parallel_body_keeps|done|done].
  - intros c r c' E.
    apply set_prec_returns in E as [_ ->]; [simpl; lia|].
    apply bbp_worker_body_keeps.
  - intros c1 c2 g Hx Hn. split.
    + apply with_set_prec_forgets; [apply mc_serial_body_keeps|done|done].
    + apply with_set_prec_forgets; [apply mc_parallel_body_keeps|done|done].
  - intros s. apply keeps_mc_worker.
  - intros c1 c2 g. unfold_mc_worker. unfold bind, ret.
    destruct (sampling_loop_ignores_ctx (seqZ 0 samples) 0 c1 c2 g)
      as (i & g' & -> & ->). reflexivity.
Qed.

End Precision.

(** A digit-series worker and a sampling worker started from the default
    context for a request of 100 digits. *)
Lemma precision_set_on_entry_witness :
  prec (snd (_bbp_worker 0 1 100 ∅ 0 DefaultContext)) = 100 + 10.
Proof.
  destruct (precision_set_on_entry Lcg.random Lcg.fmul Lcg.fadd Lcg.fle_one
              (Children (fun _ => DefaultContext) (fun _ => false))
              (Children (fun _ => Process DefaultContext 1) (fun _ => false))
              100 100 2000 0 1 4 ∅ ∅ 0) as (_ & H & _).
  destruct (_bbp_worker 0 1 100 ∅ 0 DefaultContext) as [[r|e] c'] eqn:E.
  - apply (H _ _ _ E).
  - vm_compute in E. discriminate.
Defined.

(** The sampling worker of a request of 100 digits, started from the
    default context, ends with a precision of 28, below [100 + 2]. *)
Lemma mc_worker_sets_no_precision :
  ~ (100 + 2
     <= prec (p_ctx (snd (_mc_worker Lcg.random Lcg.fmul Lcg.fadd Lcg.fle_one
                            200000 ∅ 0 (Process DefaultContext 1))))).
Proof. rewrite keeps_mc_worker. simpl. lia. Qed.

(** ** The length of the sampling results *)

(** For a request of 5 digits every possible hit count gives a result of
    at most 6 characters. *)
Lemma mc_result_5_short :
  forallb (fun inside =>
             match fst (mc_result 5 inside 10000 (Ctx 7 999999 (-999999))) with
             | Ok r => Nat.leb (String.length r) 6
             | Raise _ => false
             end) (seqZ 0 10001) = true.
Proof. vm_compute. reflexivity. Qed.

Lemma mc_result_5_length (inside : Z) :
  0 <= inside <= 10000 ->
  exists r,
    mc_result 5 inside 10000 (Ctx 7 999999 (-999999))
    = (Ok r, Ctx 7 999999 (-999999)) /\
    (String.length r <= 6)%nat.
Proof.
  intros H. pose proof mc_result_5_short as Hall.
  rewrite forallb_forall in Hall.
  specialize (Hall inside ltac:(apply list_elem_of_In, elem_of_seqZ; lia)).
  pose proof (keeps_mc_result 5 inside 10000 (Ctx 7 999999 (-999999))) as Hk.
  destruct (mc_result 5 inside 10000 _) as [[r|e] c']; simpl in *; [|done].
  exists r. subst c'. split; [done|]. now apply Nat.leb_le.
Qed.

Section ShortResults.

Context {float rng : Type}.
Variable random : rng -> float * rng.
Variable fmul fadd : float -> float -> float.
Variable fle_one : float -> bool.

Abbreviation monte_carlo_serial := (monte_carlo_serial random fmul fadd fle_one).
Abbreviation monte_carlo_parallel :=
  (monte_carlo_parallel random fmul fadd fle_one).

(** C3 at its failing input.  Whatever the generator draws,
    [monte_carlo_serial(5)] returns a string of fewer than [5 + 2]
    characters, and so does [monte_carlo_parallel(5)] whenever it returns:
    [4 * inside / 10000] has at most four decimals and the slice pads
    nothing. *)
Theorem mc_5_digits_too_short (ch : children (process rng))
    (chunk_size : Z) (s : process rng) :
  Emax (p_ctx s) = 999999 -> Emin (p_ctx s) = -999999 ->
  (exists r s',
      monte_carlo_serial 5 2000 s = (Ok r, s') /\
      (String.length r < 5 + 2)%nat) /\
  (1 <= chunk_size ->
   forall r s',
     monte_carlo_parallel ch 5 2000 chunk_size s = (Ok r, s') ->
     (String.length r < 5 + 2)%nat).
Proof.
  intros Hx Hn. split.
  - destruct (mc_serial_hits random fmul fadd fle_one 5 2000 s)
      as (inside & g & B & E); [lia|unfold MAX_PREC; lia|lia|].
    rewrite Hx, Hn in E. change (5 * 2000) with 10000 in *.
    change (5 + 2) with 7 in E.
    destruct (mc_result_5_length inside B) as (r & Er & Hr).
    rewrite E. unfold with_ctx. simpl. rewrite Er.
    eexists _, _. split; [reflexivity|]. simpl. lia.
  - intros Hc r s' Hret.
    destruct (mc_parallel_hits random fmul fadd fle_one ch 5 2000 chunk_size
                s r s') as (inside & B & E); [lia|lia|done|done|].
    rewrite Hx, Hn in E. change (5 * 2000) with 10000 in *.
    change (5 + 2) with 7 in E.
    destruct (mc_result_5_length inside B) as (r' & Er & Hr).
    unfold with_ctx in E. simpl in E. rewrite Er in E.
    injection E as -> _. simpl. lia.
Qed.

End ShortResults.

(** The toy generator: 6 characters are returned where 7 are promised. *)
Lemma mc_5_digits_too_short_witness :
  exists r s',
    monte_carlo_serial Lcg.random Lcg.fmul Lcg.fadd Lcg.fle_one 5 2000
      (Process DefaultContext 1) = (Ok r, s') /\
    (String.length r < 5 + 2)%nat.
Proof.
  apply (mc_5_digits_too_short Lcg.random Lcg.fmul Lcg.fadd Lcg.fle_one
           (Children (fun _ => Process DefaultContext 1) (fun _ => false))
           250000 (Process DefaultContext 1)); reflexivity.
Defined.

Lemma serial_digits_checked :
  forallb (fun digits =>
             result_is (fst (bbp_serial digits DefaultContext))
                       (slice_to (digits + 2) pi_expansion))
          (seqZ 1 40) = true.
Proof. vm_compute. reflexivity. Qed.

(** ** The digits of the serial digit series *)

Lemma result_is_spec (r : result string) (s : string) :
  result_is r s = true -> r = Ok s.
Proof.
  destruct r as [r|e]; simpl; [|done]. now intros ->%String.eqb_eq.
Qed.

(** The claim's examples have one character less than the code returns,
    and a number of digits above [MAX_PREC - 10] is refused when the
    precision is set. *)
Lemma serial_5_is_not_31415 :
  fst (bbp_serial 5 DefaultContext) <> Ok "3.1415"%string /\
  fst (bbp_serial 10 DefaultContext) <> Ok "3.141592653"%string /\
  fst (bbp_serial (MAX_PREC - 9) DefaultContext) = Raise ValueError.
Proof. repeat split; vm_compute; (discriminate || reflexivity). Qed.

Lemma tenth : (10 ^ (-1) == 1 # 10)%Q.
Proof. reflexivity. Qed.

(** A quotient of small integers that the context can represent is
    returned exactly. *)
Lemma exact_quotient (c : context) (n d m e : Z) :
  valid_context c -> 1 <= n <= 9 -> 1 <= d -> e <= 0 ->
  canonical c (Dec false m e) ->
  (inject_Z m * 10 ^ e * inject_Z d == inject_Z n)%Q ->
  exists r,
    dec_div c (Decimal n) (Decimal d) = Ok r /\ canonical c r /\
    (dval r == inject_Z m * 10 ^ e)%Q /\ dexp r <= 0.
Proof.
  intros Hv Hn Hd He Hm Hq.
  rewrite !Decimal_nonneg by lia.
  destruct (div_between c (Dec false n 0) (Dec false d 0)
              (Dec false m e) (Dec false m e) Hv)
    as (r & Hf & Hc & Hs & Hr & Hx).
  - reflexivity.
  - reflexivity.
  - simpl. lia.
  - simpl. lia.
  - exact Hm.
  - exact Hm.
  - rewrite !dval_pos_dec, q10_0. lra.
  - exists r. split; [done|]. split; [done|].
    rewrite dval_pos_dec in Hr. split; [lra|].
    assert (ndigits n <= 1).
    { pose proof (ndigits_lt_pow n 1 ltac:(lia) ltac:(simpl; lia)). lia. }
    pose proof (ndigits_pos d). destruct Hv as (Hp & _ & _).
    cbn [dcoef dexp] in Hx. lia.
Qed.

(** The first term lies between 2.3 and 3.3. *)
Lemma bbp_term0_bounds (c : context) :
  valid_context c -> 2 <= prec c ->
  exists t,
    bbp_term 0 c = (Ok t, c) /\ canonical c t /\ dexp t <= 0 /\
    (23 # 10 <= dval t <= 33 # 10)%Q.
Proof.
  intros Hv Hp2.
  pose proof (valid_Etiny c Hv) as (Ht0 & Htt & Hte).
  pose proof Hv as (Hp & Hmax & Hmin).
  assert (Ht1 : Etiny c <= -1) by (unfold Etiny; lia).
  assert (K4 : canonical c (Dec false 4 0))
    by (apply (canonical_small c false 4 0 1); simpl; lia).
  assert (K1 : canonical c (Dec false 1 0))
    by (apply (canonical_small c false 1 0 1); simpl; lia).
  assert (K5 : canonical c (Dec false 5 (-1)))
    by (apply (canonical_small c false 5 (-1) 1); simpl; lia).
  assert (K2 : canonical c (Dec false 2 (-1)))
    by (apply (canonical_small c false 2 (-1) 1); simpl; lia).
  assert (K35 : canonical c (Dec false 35 (-1)))
    by (apply (canonical_small c false 35 (-1) 2); simpl; lia).
  assert (K33 : canonical c (Dec false 33 (-1)))
    by (apply (canonical_small c false 33 (-1) 2); simpl; lia).
  assert (K23 : canonical c (Dec false 23 (-1)))
    by (apply (canonical_small c false 23 (-1) 2); simpl; lia).
  destruct (exact_quotient c 1 1 1 0 Hv) as (p & Ep & Cp & Bp & Xp);
    [lia|lia|lia|exact K1|reflexivity|].
  destruct (exact_quotient c 4 1 4 0 Hv) as (a1 & E1 & Ca1 & B1 & X1);
    [lia|lia|lia|exact K4|reflexivity|].
  destruct (exact_quotient c 2 4 5 (-1) Hv) as (a2 & E2 & Ca2 & B2 & X2);
    [lia|lia|lia|exact K5|reflexivity|].
  destruct (exact_quotient c 1 5 2 (-1) Hv) as (a3 & E3 & Ca3 & B3 & X3);
    [lia|lia|lia|exact K2|reflexivity|].
  destruct (small_quotient c 1 6 Hv) as (a4 & E4 & Ca4 & _ & B4 & X4);
    [lia|lia|].
  rewrite ?q10_0, ?tenth in Bp, B1, B2, B3.
  change (inject_Z 1) with 1%Q in *. change (inject_Z 4) with 4%Q in *.
  change (inject_Z 5) with 5%Q in *. change (inject_Z 2) with 2%Q in *.
  destruct (sub_between c a1 a2 (Dec false 35 (-1)) (Dec false 35 (-1)) Hv
              K35 K35) as (s1 & F1 & D1 & G1 & Y1).
  { rewrite !dval_pos_dec, tenth. change (inject_Z 35) with 35%Q. lra. }
  destruct (sub_between c s1 a3 (Dec false 33 (-1)) (Dec false 33 (-1)) Hv
              K33 K33) as (s2 & F2 & D2 & G2 & Y2).
  { rewrite !dval_pos_dec, tenth in *. change (inject_Z 35) with 35%Q in *.
    change (inject_Z 33) with 33%Q. lra. }
  destruct (sub_between c s2 a4 (Dec false 23 (-1)) (Dec false 33 (-1)) Hv
              K23 K33) as (s3 & F3 & D3 & G3 & Y3).
  { rewrite !dval_pos_dec, tenth in *. change (inject_Z 33) with 33%Q in *.
    change (inject_Z 23) with 23%Q. lra. }
  destruct (mul_between c p s3 (Dec false 23 (-1)) (Dec false 33 (-1)) Hv
              (canonical_wf _ _ Cp) (canonical_wf _ _ D3) K23 K33)
    as (t & Ft & Dt & Gt & Yt).
  { rewrite !dval_pos_dec, tenth in *. change (inject_Z 33) with 33%Q in *.
    change (inject_Z 23) with 23%Q in *. nra. }
  exists t. split; [|split; [exact Dt|split]].
  - unfold bbp_term. change (0 <? 0) with false. cbv iota.
    change (16 ^ 0) with 1. change (8 * 0 + 1) with 1.
    change (8 * 0 + 4) with 4. change (8 * 0 + 5) with 5.
    change (8 * 0 + 6) with 6.
    unfold bind, under_ctx.
    rewrite Ep, E1, E2, F1, E3, F2, E4, F3, Ft. reflexivity.
  - cbn [dexp] in *. lia.
  - rewrite !dval_pos_dec, tenth in Gt. change (inject_Z 33) with 33%Q in *.
    change (inject_Z 23) with 23%Q in *. lra.
Qed.

(** ** The partial sums *)


Lemma q10_pred (n : Z) :
  1 <= n -> (inject_Z (10 ^ (n - 1)) * 10 ^ (- n) == 1 # 10)%Q.
Proof.
  intros H. rewrite q10_inject by lia. rewrite <- q10_add.
  replace (n - 1 + - n) with (-1) by lia. reflexivity.
Qed.

Lemma sum_lo_val (n : Z) :
  1 <= n -> (dval (sum_lo n) == (18 # 10) + 5 * 10 ^ (- n))%Q.
Proof.
  intros H. unfold sum_lo. rewrite dval_pos_dec.
  rewrite inject_Z_plus, inject_Z_mult, Qmult_plus_distr_l.
  rewrite <- Qmult_assoc, q10_pred by done.
  change (inject_Z 18) with 18%Q. change (inject_Z 5) with 5%Q.
  generalize (10 ^ (- n))%Q. intros x. lra.
Qed.

Lemma sum_hi_val (n : Z) :
  1 <= n -> (dval (sum_hi n) == (38 # 10) - 5 * 10 ^ (- n))%Q.
Proof.
  intros H. unfold sum_hi. rewrite dval_pos_dec.
  replace (38 * 10 ^ (n - 1) - 5) with (38 * 10 ^ (n - 1) + (-5)) by lia.
  rewrite inject_Z_plus, inject_Z_mult, Qmult_plus_distr_l.
  rewrite <- Qmult_assoc, q10_pred by done.
  change (inject_Z 38) with 38%Q. change (inject_Z (-5)) with (-5)%Q.
  generalize (10 ^ (- n))%Q. intros x. lra.
Qed.

Lemma sum_bounds_canonical (c : context) (n : Z) :
  valid_context c -> 1 <= n -> n + 1 <= prec c ->
  canonical c (sum_lo n) /\ canonical c (sum_hi n).
Proof.
  intros Hv Hn Hp. pose proof Hv as (_ & Hmax & Hmin).
  assert (Ht : Etiny c <= - n) by (unfold Etiny; lia).
  pose proof (pow10_pos (n - 1) ltac:(lia)) as P.
  assert (E : 10 ^ (n + 1) = 100 * 10 ^ (n - 1)).
  { replace (n + 1) with (2 + (n - 1)) by lia.
    now rewrite pow10_split by lia. }
  split; apply (canonical_small c false _ (- n) (n + 1)); lia.
Qed.

(** ** Adding zero *)

Lemma scaled_self (d : decimal) :
  scaled d (dexp d) = (if dsign d then -1 else 1) * dcoef d.
Proof. unfold scaled. rewrite Z.sub_diag. change (10 ^ 0) with 1. lia. Qed.

Lemma scaled_zero (d : decimal) (e : Z) : dcoef d = 0 -> scaled d e = 0.
Proof. unfold scaled. intros ->. lia. Qed.

Lemma signed_back (d : decimal) :
  0 < dcoef d ->
  Dec ((if dsign d then -1 else 1) * dcoef d <? 0)
      (Z.abs ((if dsign d then -1 else 1) * dcoef d)) (dexp d) = d.
Proof.
  intros H. destruct d as [[] m e]; cbn [dsign dcoef dexp] in *.
  - destruct (Z.ltb_spec (-1 * m) 0); [|lia]. f_equal. lia.
  - destruct (Z.ltb_spec (1 * m) 0); [lia|]. f_equal. lia.
Qed.

(** [Decimal(0) + t] is [+t] when [t] has no positive exponent. *)
Lemma add_zero_l (c : context) (t : decimal) :
  0 <= dcoef t -> dexp t <= 0 -> dec_add c (Decimal 0) t = dec_pos c t.
Proof.
  intros Hm He. unfold dec_add, dec_pos.
  change (dexp (Decimal 0)) with 0. rewrite Z.min_r by done.
  change (dcoef (Decimal 0) =? 0) with true.
  change (dsign (Decimal 0)) with false. cbn [andb].
  destruct (Z.eqb_spec (dcoef t) 0) as [E|E]; [done|].
  rewrite scaled_self, (scaled_zero (Decimal 0)) by done.
  rewrite Z.add_0_l, signed_back by lia. done.
Qed.

(** [a + Decimal(0)] is [a] for a result [a] that is not zero and has no
    positive exponent. *)
Lemma add_zero_r (c : context) (a : decimal) :
  canonical c a -> 0 < dcoef a -> dexp a <= 0 ->
  dec_add c a (Decimal 0) = Ok a.
Proof.
  intros [_ Hf] Hm He. unfold dec_add.
  change (dexp (Decimal 0)) with 0. rewrite Z.min_l by done.
  destruct (Z.eqb_spec (dcoef a) 0) as [E|E]; [lia|]. cbn [andb].
  rewrite scaled_self, (scaled_zero (Decimal 0)) by done.
  rewrite Z.add_0_r, signed_back by lia. done.
Qed.

(** [+t] for a result [t]: [t] itself, but for the sign of a zero, which
    no later sum with a nonzero number sees. *)
Lemma pos_canonical (c : context) (t : decimal) :
  valid_context c -> canonical c t ->
  exists p,
    dec_pos c t = Ok p /\ canonical c p /\ dexp p = dexp t /\
    (0 < dcoef t -> p = t) /\
    forall a, 0 < dcoef a -> dec_add c a p = dec_add c a t.
Proof.
  intros Hv Hc. unfold dec_pos.
  destruct (canonical_inv c t Hv Hc) as [[E R]|[Hpos _]].
  - rewrite E. change (0 =? 0) with true. cbv iota.
    rewrite fix_zero by done. cbn [dsign dexp].
    rewrite Z.max_l, Z.min_l by lia.
    exists (Dec false 0 (dexp t)). split; [done|].
    split; [now apply canonical_zero|]. split; [done|].
    split; [lia|]. intros a Ha. unfold dec_add. cbn [dexp dcoef].
    destruct (Z.eqb_spec (dcoef a) 0) as [E'|E']; [lia|]. cbn [andb].
    rewrite !(scaled_zero (Dec false 0 (dexp t))), !(scaled_zero t) by done.
    done.
  - destruct (Z.eqb_spec (dcoef t) 0) as [E|E]; [lia|].
    destruct Hc as [H0 Hf]. exists t. repeat split; try done.
Qed.

Lemma dval_pos_coef (d : decimal) :
  0 <= dcoef d -> (0 < dval d)%Q -> 0 < dcoef d.
Proof.
  intros H0 Hd. destruct (Z.eq_dec (dcoef d) 0) as [E|E]; [|lia].
  apply dval_zero in E. rewrite E in Hd. now apply Qlt_irrefl in Hd.
Qed.

(** ** The loop of [bbp_serial] *)

Lemma bbp_step_eval (c : context) (acc t : decimal) (k : Z) :
  bbp_term k c = (Ok t, c) -> bbp_step acc k c = (dec_add c acc t, c).
Proof. intros E. unfold bbp_step. now rewrite (bind_ok _ _ _ _ _ E). Qed.

Lemma for_fold_one {S A X} (body : A -> X -> M S A) (x : X) (acc : A) (s : S) :
  for_fold body [x] acc s = body acc x s.
Proof.
  simpl. unfold bind, ret. now destruct (body acc x s) as [[a|e] s'].
Qed.

(** One more term: the sum so far plus that term. *)
Lemma serial_snoc (c : context) (m : nat) (acc t : decimal) :
  for_fold bbp_step (seqZ 0 (Z.of_nat m)) (Decimal 0) c = (Ok acc, c) ->
  bbp_term (Z.of_nat m) c = (Ok t, c) ->
  for_fold bbp_step (seqZ 0 (Z.of_nat (S m))) (Decimal 0) c
  = (dec_add c acc t, c).
Proof.
  intros Ha Et. rewrite seqZ_S, for_fold_app, (bind_ok _ _ _ _ _ Ha).
  rewrite Z.add_0_l, for_fold_one. now apply bbp_step_eval.
Qed.

Lemma sum_lo_1 : (dval (sum_lo 1) == 23 # 10)%Q.
Proof. reflexivity. Qed.

Lemma sum_hi_1 : (dval (sum_hi 1) == 33 # 10)%Q.
Proof. reflexivity. Qed.

Lemma sum_lo_pos (n : Z) : 1 <= n -> (0 < dval (sum_lo n))%Q.
Proof.
  intros H. rewrite sum_lo_val by done.
  pose proof (q10_pos (- n)). lra.
Qed.

(** The sum of the first [m + 1] terms stays between [1.8 + 5 * 10^-(m+1)]
    and [3.8 - 5 * 10^-(m+1)]: no step of the loop raises, and the sum is
    never zero. *)
Lemma partial_sums_bounded (c : context) (m : nat) :
  valid_context c -> Z.of_nat m + 2 <= prec c ->
  exists acc,
    for_fold bbp_step (seqZ 0 (Z.of_nat (S m))) (Decimal 0) c = (Ok acc, c) /\
    canonical c acc /\ dexp acc <= 0 /\
    (dval (sum_lo (Z.of_nat (S m))) <= dval acc
     <= dval (sum_hi (Z.of_nat (S m))))%Q.
Proof.
  intros Hv. induction m as [|m IH]; intros Hp.
  - destruct (bbp_term0_bounds c Hv) as (t & Et & Ct & Xt & Bt); [lia|].
    assert (Hpos : 0 < dcoef t).
    { apply dval_pos_coef; [now apply canonical_wf in Ct|lra]. }
    exists t. split; [|split; [done|split; [done|]]].
    + rewrite (serial_snoc c 0 (Decimal 0) t); [|done|done].
      rewrite add_zero_l by (done || lia).
      destruct (pos_canonical c t Hv Ct) as (p & -> & _ & _ & Hp' & _).
      now rewrite Hp'.
    + change (Z.of_nat 1) with 1. rewrite sum_lo_1, sum_hi_1. done.
  - destruct IH as (acc & Ea & Ca & Xa & Ba); [lia|].
    set (n := Z.of_nat (S m)) in *.
    assert (Hn : 1 <= n) by lia.
    assert (Hn' : Z.of_nat (S (S m)) = n + 1) by lia.
    destruct (bbp_term_bounded c n Hv) as (t & Et & Ct & Xt & Bt); [lia|].
    assert (Hs : term_scale c n = n).
    { unfold term_scale. destruct Hv as (_ & _ & Hmin).
      destruct (Z.leb_spec (Etiny c) (- n)); [done|]. unfold Etiny in *. lia. }
    rewrite Hs in Bt.
    destruct (sum_bounds_canonical c (n + 1) Hv) as [Clo Chi]; [lia|lia|].
    destruct (add_between c acc t (sum_lo (n + 1)) (sum_hi (n + 1)) Hv Clo Chi)
      as (r & Er & Cr & Br & Xr).
    { rewrite sum_lo_val, sum_hi_val in * by lia.
      replace (- (n + 1)) with (- n + - 1) by lia.
      rewrite q10_add, tenth.
      pose proof (q10_pos (- n)) as P.
      revert Ba Bt P. generalize (10 ^ (- n))%Q (dval acc) (dval t).
      intros x a b Ba Bt P. lra. }
    exists r. rewrite Hn'. split; [|split; [done|split; [|done]]].
    + rewrite <- Hn'. rewrite (serial_snoc c (S m) acc t Ea Et).
      fold n. now rewrite Er.
    + unfold sum_lo, sum_hi in Xr. cbn [dexp] in Xr. lia.
Qed.

(** The same, for a number of terms given as an integer. *)
Lemma serial_sum (c : context) (n : Z) :
  valid_context c -> 1 <= n -> n + 1 <= prec c ->
  exists acc,
    for_fold bbp_step (seqZ 0 n) (Decimal 0) c = (Ok acc, c) /\
    canonical c acc /\ dexp acc <= 0 /\ 0 < dcoef acc.
Proof.
  intros Hv Hn Hp.
  destruct (partial_sums_bounded c (Z.to_nat (n - 1)) Hv)
    as (acc & Ea & Ca & Xa & Ba); [lia|].
  replace (Z.of_nat (S (Z.to_nat (n - 1)))) with n in * by lia.
  exists acc. repeat split; try done; try apply Ca.
  apply dval_pos_coef; [now apply canonical_wf in Ca|].
  pose proof (sum_lo_pos n Hn). lra.
Qed.

(** ** The parallel path *)


(** A chunk size of at least [digits] gives one chunk. *)
Lemma bbp_chunks_one (digits chunk_size : Z) :
  1 <= digits -> digits <= chunk_size ->
  bbp_chunks digits chunk_size = Ok [(0, digits)].
Proof.
  intros Hd Hc. unfold bbp_chunks, py_range.
  destruct (Z.eqb_spec chunk_size 0); [lia|].
  destruct (Z.ltb_spec 0 chunk_size); [|lia].
  replace ((digits - 0 + chunk_size - 1) / chunk_size) with 1.
  - assert (seqZ 0 1 = [0]) as -> by reflexivity. cbn [fmap list_fmap].
    replace (0 + 0 * chunk_size) with 0 by lia.
    rewrite Z.add_0_l, Z.min_r by lia. done.
  - apply (Z.div_unique _ _ 1 (digits - 1)); lia.
Qed.

(** A chunk size of 1 gives one chunk per term. *)
Lemma bbp_chunks_unit (digits : Z) :
  bbp_chunks digits 1 = Ok ((fun i => (i, i + 1)) <$> seqZ 0 digits).
Proof.
  unfold bbp_chunks, py_range. cbn [Z.eqb Z.ltb Z.compare].
  rewrite Z.div_1_r. f_equal. rewrite <- list_fmap_compose.
  replace (digits - 0 + 1 - 1) with digits by lia.
  apply list_eq. intros i. rewrite !list_lookup_fmap.
  destruct (seqZ 0 digits !! i) as [k|] eqn:E; [|done].
  apply lookup_seqZ in E as [-> Hi]. cbn. do 2 f_equal; lia.
Qed.

Lemma bbp_worker_eval (start end_ digits : Z) (d : gmap nat decimal)
    (idx : nat) (s : context) (acc : decimal) :
  1 <= digits + 10 <= MAX_PREC ->
  for_fold bbp_step (seqZ start (end_ - start)) (Decimal 0)
    (Ctx (digits + 10) (Emax s) (Emin s))
  = (Ok acc, Ctx (digits + 10) (Emax s) (Emin s)) ->
  _bbp_worker start end_ digits d idx s
  = (Ok (<[idx := acc]> d), Ctx (digits + 10) (Emax s) (Emin s)).
Proof.
  intros Hd E. unfold _bbp_worker, bind, set_prec.
  rewrite prec_check_ok by done. now rewrite E.
Qed.

(** After the join, the slot of a child that ran to the end holds its
    partial sum. *)
Lemma bbp_jobs_lookup (ch : children context) (digits : Z)
    (chunks : list (Z * Z)) (idx : nat) (start end_ : Z) (p : decimal) :
  chunks !! idx = Some (start, end_) ->
  child_killed ch idx = false ->
  (forall d, exists s',
      _bbp_worker start end_ digits d idx (child_state ch idx)
      = (Ok (<[idx := p]> d), s')) ->
  bbp_jobs ch digits chunks !! idx = Some p.
Proof.
  intros Hl K Hw. unfold bbp_jobs, enumerate.
  induction chunks as [|x chunks IH] using rev_ind; [done|].
  rewrite imap_app, foldl_app. simpl. destruct x as [st en].
  rewrite Nat.add_0_r.
  destruct (decide (length chunks = idx)) as [<-|Hne].
  - rewrite list_lookup_middle in Hl by done. injection Hl as -> ->.
    unfold run_child. rewrite K.
    match goal with |- context [_bbp_worker _ _ _ ?d _ _] =>
      destruct (Hw d) as [s' ->] end.
    now rewrite lookup_insert_eq.
  - rewrite run_child_lookup; [|apply bbp_worker_writes_only|now left].
    apply IH. apply lookup_lt_Some in Hl as Hlt.
    rewrite length_app in Hlt. simpl in Hlt.
    rewrite lookup_app_l in Hl by lia. done.
Qed.

(** [sum] over one slot. *)
Lemma sum_dict_single (c : context) (d : gmap nat decimal) (acc : decimal) :
  d !! 0%nat = Some acc ->
  canonical c acc -> 0 < dcoef acc -> dexp acc <= 0 ->
  sum_dict d 1 c = (Ok (PDec acc), c).
Proof.
  intros Hl Ca Hm He. unfold sum_dict. cbn [seq]. rewrite for_fold_one.
  unfold bind, dict_get. rewrite Hl. unfold ret, under_ctx, pynum_add_dec.
  now rewrite add_zero_r.
Qed.

(** [sum] over the slots of one-term chunks goes through the additions
    of the serial loop. *)
Lemma sum_dict_units (c : context) (d : gmap nat decimal) (m : nat) :
  valid_context c -> Z.of_nat m + 2 <= prec c ->
  (forall (k : nat) t,
      (k <= m)%nat -> bbp_term (Z.of_nat k) c = (Ok t, c) ->
      exists p, d !! k = Some p /\ dec_pos c t = Ok p) ->
  exists acc,
    for_fold bbp_step (seqZ 0 (Z.of_nat (S m))) (Decimal 0) c = (Ok acc, c) /\
    sum_dict d (S m) c = (Ok (PDec acc), c).
Proof.
  intros Hv. induction m as [|m IH]; intros Hp Hd.
  - destruct (serial_sum c 1 Hv) as (acc & Ea & Ca & Xa & Pa); [lia|lia|].
    exists acc. split; [exact Ea|].
    destruct (bbp_term_bounded c 0 Hv) as (t & Et & Ct & Xt & _); [lia|].
    pose proof (serial_snoc c 0 (Decimal 0) t eq_refl Et) as Es.
    change (Z.of_nat 1) with 1 in Es. rewrite Es in Ea.
    injection Ea as Ea.
    rewrite add_zero_l in Ea by (done || now apply canonical_wf in Ct).
    destruct (Hd 0%nat t) as (p & Hl & Hpos); [lia|done|].
    rewrite Ea in Hpos. injection Hpos as <-.
    now apply sum_dict_single.
  - destruct IH as (acc & Ea & Sa); [lia|auto with lia|].
    destruct (serial_sum c (Z.of_nat (S m)) Hv) as (acc0 & Ea0 & Ca & Xa & Pa);
      [lia|lia|].
    rewrite Ea in Ea0. injection Ea0 as <-.
    destruct (serial_sum c (Z.of_nat (S (S m))) Hv) as (r & Er & _);
      [lia|lia|].
    exists r. split; [exact Er|].
    destruct (bbp_term_bounded c (Z.of_nat (S m)) Hv) as (t & Et & Ct & _);
      [lia|].
    rewrite (serial_snoc c (S m) acc t Ea Et) in Er. injection Er as Er.
    destruct (Hd (S m) t) as (p & Hl & Hpos); [lia|done|].
    destruct (pos_canonical c t Hv Ct) as (p' & Hp' & _ & _ & _ & Hadd).
    rewrite Hpos in Hp'. injection Hp' as <-.
    unfold sum_dict in *. rewrite seq_S, Nat.add_0_l, for_fold_app.
    rewrite (bind_ok _ _ _ _ _ Sa). rewrite for_fold_one.
    unfold bind, dict_get. rewrite Hl. unfold ret, under_ctx, pynum_add_dec.
    now rewrite Hadd, Er.
Qed.

(** [str(+pi)[:digits + 2]] of a sum that is not zero. *)
Lemma format_pi_eval (c : context) (digits : Z) (pi : decimal) :
  canonical c pi -> 0 < dcoef pi ->
  format_pi digits pi c = (Ok (slice_to (digits + 2) (dec_str pi)), c).
Proof.
  intros [_ Hf] Hm. unfold format_pi, bind, under_ctx, dec_pos.
  destruct (Z.eqb_spec (dcoef pi) 0); [lia|]. now rewrite Hf.
Qed.

Lemma bbp_serial_eval (c : context) (digits : Z) :
  0 <= Emax c -> Emin c <= 0 -> 1 <= digits -> digits + 10 <= MAX_PREC ->
  exists acc,
    for_fold bbp_step (seqZ 0 digits) (Decimal 0)
      (Ctx (digits + 10) (Emax c) (Emin c))
    = (Ok acc, Ctx (digits + 10) (Emax c) (Emin c)) /\
    canonical (Ctx (digits + 10) (Emax c) (Emin c)) acc /\
    dexp acc <= 0 /\ 0 < dcoef acc /\
    bbp_serial digits c
    = (Ok (slice_to (digits + 2) (dec_str acc)),
       Ctx (digits + 10) (Emax c) (Emin c)).
Proof.
  intros Hmax Hmin Hd Hp.
  assert (Hv : valid_context (Ctx (digits + 10) (Emax c) (Emin c)))
    by (unfold valid_context; cbn; lia).
  destruct (serial_sum _ digits Hv) as (acc & Ea & Ca & Xa & Pa);
    [lia|cbn; lia|].
  exists acc. repeat split; try done; try apply Ca.
  unfold bbp_serial, bind at 1, set_prec.
  rewrite prec_check_ok by lia.
  rewrite (bind_ok _ _ _ _ _ Ea). now apply format_pi_eval.
Qed.

Lemma seqZ_one (k : Z) : seqZ k 1 = [k].
Proof. rewrite seqZ_cons, seqZ_nil by lia. done. Qed.

(** The slot of the only chunk holds the whole sum. *)
Lemma bbp_jobs_whole (c : context) (ch : children context) (digits : Z)
    (acc : decimal) :
  healthy c ch -> 1 <= digits -> digits + 10 <= MAX_PREC ->
  for_fold bbp_step (seqZ 0 digits) (Decimal 0)
    (Ctx (digits + 10) (Emax c) (Emin c))
  = (Ok acc, Ctx (digits + 10) (Emax c) (Emin c)) ->
  bbp_jobs ch digits [(0, digits)] !! 0%nat = Some acc.
Proof.
  intros Hh Hd Hp Ea. destruct (Hh 0%nat) as (K & Hmax & Hmin).
  apply (bbp_jobs_lookup ch digits _ 0 0 digits acc); [done|done|].
  intros d. eexists. apply bbp_worker_eval; [lia|].
  rewrite Hmax, Hmin, Z.sub_0_r. exact Ea.
Qed.

(** The slot of a one-term chunk holds [Decimal(0) + bbp_term(k)]. *)
Lemma bbp_jobs_unit (c : context) (ch : children context) (digits : Z)
    (chunks : list (Z * Z)) (k : nat) (t p : decimal) :
  healthy c ch -> 1 <= digits -> digits + 10 <= MAX_PREC ->
  chunks !! k = Some (Z.of_nat k, Z.of_nat k + 1) ->
  bbp_term (Z.of_nat k) (Ctx (digits + 10) (Emax c) (Emin c))
  = (Ok t, Ctx (digits + 10) (Emax c) (Emin c)) ->
  0 <= dcoef t -> dexp t <= 0 ->
  dec_pos (Ctx (digits + 10) (Emax c) (Emin c)) t = Ok p ->
  bbp_jobs ch digits chunks !! k = Some p.
Proof.
  intros Hh Hd Hmp Hl Et Hm He Hp. destruct (Hh k) as (K & Hmax & Hmin).
  apply (bbp_jobs_lookup ch digits _ k _ _ p Hl K).
  intros d. eexists. apply bbp_worker_eval; [lia|].
  rewrite Hmax, Hmin.
  replace (Z.of_nat k + 1 - Z.of_nat k) with 1 by lia.
  rewrite seqZ_one, for_fold_one, (bbp_step_eval _ _ t) by done.
  now rewrite add_zero_l, Hp.
Qed.

(** The parallel sum over one chunk, and over one chunk per term, is the
    serial sum. *)
Lemma parallel_sum_serial (c : context) (ch : children context)
    (digits chunk_size : Z) (acc : decimal) :
  0 <= Emax c -> Emin c <= 0 -> healthy c ch -> 1 <= digits ->
  digits + 10 <= MAX_PREC ->
  chunk_size = 1 \/ digits <= chunk_size ->
  for_fold bbp_step (seqZ 0 digits) (Decimal 0)
    (Ctx (digits + 10) (Emax c) (Emin c))
  = (Ok acc, Ctx (digits + 10) (Emax c) (Emin c)) ->
  canonical (Ctx (digits + 10) (Emax c) (Emin c)) acc ->
  dexp acc <= 0 -> 0 < dcoef acc ->
  exists chunks,
    bbp_chunks digits chunk_size = Ok chunks /\
    sum_dict (bbp_jobs ch digits chunks) (length chunks)
      (Ctx (digits + 10) (Emax c) (Emin c))
    = (Ok (PDec acc), Ctx (digits + 10) (Emax c) (Emin c)).
Proof.
  intros Hmax Hmin Hh Hd Hmp Hcs Ea Ca Xa Pa.
  set (c' := Ctx (digits + 10) (Emax c) (Emin c)) in *.
  assert (Hv : valid_context c') by (unfold valid_context; cbn; lia).
  destruct Hcs as [->|Hcs].
  - exists ((fun i => (i, i + 1)) <$> seqZ 0 digits).
    split; [apply bbp_chunks_unit|].
    rewrite length_fmap, length_seqZ.
    replace (Z.to_nat digits) with (S (Z.to_nat (digits - 1))) by lia.
    destruct (sum_dict_units c'
                (bbp_jobs ch digits ((fun i => (i, i + 1)) <$> seqZ 0 digits))
                (Z.to_nat (digits - 1)) Hv) as (acc' & Ea' & Sa).
    + cbn. lia.
    + intros k t Hk Et.
      destruct (bbp_term_bounded c' (Z.of_nat k) Hv) as (t' & Et' & Ct & Xt & _);
        [lia|].
      rewrite Et in Et'. injection Et' as <-.
      destruct (pos_canonical c' t Hv Ct) as (p & Hp & _).
      exists p. split; [|done].
      apply (bbp_jobs_unit c ch digits _ k t p Hh Hd Hmp); try done.
      * rewrite list_lookup_fmap, lookup_seqZ_lt by lia. cbn.
        now rewrite Z.add_0_l.
      * now apply canonical_wf in Ct.
    + replace (Z.of_nat (S (Z.to_nat (digits - 1)))) with digits in Ea' by lia.
      rewrite Ea in Ea'. injection Ea' as <-. exact Sa.
  - exists [(0, digits)]. split; [now apply bbp_chunks_one|].
    apply sum_dict_single; try done.
    now apply (bbp_jobs_whole c).
Qed.

(** C2, within the precisions the [decimal] module accepts: for every
    [digits] from 1 to [MAX_PREC - 10] and every chunk size among [1],
    [digits] and [2 * digits], [bbp_parallel] returns, and its string
    agrees with the one [bbp_serial] returns on the first
    [min (digits + 2) 102] characters (the two strings are in fact the
    same).  The children run to the end in contexts with the exponent
    limits of the parent's, and these limits are ones the [decimal] module
    accepts. *)
Theorem parallel_agrees_with_serial (c : context) (ch : children context)
    (digits chunk_size : Z) :
  0 <= Emax c -> Emin c <= 0 -> healthy c ch ->
  1 <= digits -> digits + 10 <= MAX_PREC ->
  chunk_size = 1 \/ chunk_size = digits \/ chunk_size = digits * 2 ->
  exists s p,
    fst (bbp_serial digits c) = Ok s /\
    fst (bbp_parallel ch digits chunk_size c) = Ok p /\
    slice_to (Z.min (digits + 2) 102) p = slice_to (Z.min (digits + 2) 102) s.
Proof.
  intros Hmax Hmin Hh Hd Hp Hcs.
  destruct (bbp_serial_eval c digits Hmax Hmin Hd Hp)
    as (acc & Ea & Ca & Xa & Pa & Es).
  destruct (parallel_sum_serial c ch digits chunk_size acc Hmax Hmin Hh Hd Hp)
    as (chunks & Ec & Esum); try done; [lia|].
  exists (slice_to (digits + 2) (dec_str acc)),
         (slice_to (digits + 2) (dec_str acc)).
  split; [now rewrite Es|]. split; [|done].
  unfold bbp_parallel, bind at 1, set_prec.
  rewrite prec_check_ok by lia.
  unfold bind at 1, lift. rewrite Ec.
  rewrite (bind_ok _ _ _ _ _ Esum). cbn [format_num].
  now rewrite format_pi_eval.
Qed.

Lemma parallel_agrees_with_serial_witness :
  exists s p,
    fst (bbp_serial 3 DefaultContext) = Ok s /\
    fst (bbp_parallel (Children (fun _ => DefaultContext) (fun _ => false))
           3 1 DefaultContext) = Ok p /\
    slice_to (Z.min (3 + 2) 102) p = slice_to (Z.min (3 + 2) 102) s.
Proof.
  apply (parallel_agrees_with_serial DefaultContext
           (Children (fun _ => DefaultContext) (fun _ => false)) 3 1).
  - simpl. lia.
  - simpl. lia.
  - intros idx. repeat split.
  - lia.
  - unfold MAX_PREC. lia.
  - left. reflexivity.
Defined.

(** For [digits = MAX_PREC - 9] the first statement of both entry points,
    [getcontext().prec = digits + 10], is refused with a [ValueError]:
    neither returns a string. *)
Lemma huge_digits_are_refused :
  fst (bbp_serial 999999999999999990 DefaultContext) = Raise ValueError /\
  fst (bbp_parallel (Children (fun _ => DefaultContext) (fun _ => false))
         999999999999999990 1 DefaultContext) = Raise ValueError.
Proof. split; reflexivity. Qed.

Lemma mc_result_estimate (c : context) (digits inside total : Z) :
  mc_result digits inside total c
  = match mc_estimate c inside total with
    | Ok pi => format_pi digits pi c
    | Raise e => (Raise e, c)
    end.
Proof.
  unfold mc_result, mc_estimate, bind, under_ctx.
  destruct (dec_mul c _ _) as [n|e]; [|done].
  now destruct (dec_div c n _) as [pi|e].
Qed.

(** When [4 * total_samples] needs no rounding, the estimate of a hit
    count between 0 and [total_samples] is between 0 and 4. *)
Lemma estimate_in_0_4 (c : context) (inside total : Z) :
  valid_context c -> 1 <= total -> 0 <= inside <= total ->
  exact_at c (4 * total) ->
  exists pi, mc_estimate c inside total = Ok pi /\ (0 <= dval pi <= 4)%Q.
Proof.
  intros Hv Ht Hi (m & e & Hm & He & Hc).
  pose proof Hv as (Hp & Hmax & Hmin).
  pose proof (valid_Etiny c Hv) as (Ht0 & _ & _).
  assert (Hval : (dval (Dec false m e) == 4 * inject_Z total)%Q).
  { rewrite dval_pos_dec, <- q10_inject, <- inject_Z_mult, <- Hm by done.
    now rewrite inject_Z_mult. }
  assert (Hin : (0 <= inject_Z inside <= inject_Z total)%Q).
  { change 0%Q with (inject_Z 0). rewrite <- !Zle_Qle. lia. }
  assert (K4 : canonical c (Dec false 4 0))
    by (apply (canonical_small c false 4 0 1); simpl; lia).
  pose proof (canonical_Decimal0 c Hv) as K0.
  unfold mc_estimate.
  destruct (mul_between c (Decimal 4) (Decimal inside) (Decimal 0)
              (Dec false m e) Hv) as (n & En & Cn & Bn & _);
    [simpl; lia|simpl; lia|done|done| |].
  { rewrite Hval, !dval_Decimal. change (inject_Z 0) with 0%Q.
    change (inject_Z 4) with 4%Q. lra. }
  rewrite En. rewrite Hval, dval_Decimal in Bn.
  change (inject_Z 0) with 0%Q in Bn.
  assert (Sn : dsign n = false).
  { unfold dec_mul in En.
    pose proof (fix_ok_canonical c (mul_exact (Decimal 4) (Decimal inside))
                  n Hv ltac:(simpl; lia) En) as [_ Sn].
    rewrite Sn. cbn [dsign Decimal mul_exact]. change (4 <? 0) with false.
    destruct (Z.ltb_spec inside 0); [lia|done]. }
  destruct (div_between c n (Decimal total) (Decimal 0) (Dec false 4 0) Hv)
    as (pi & Epi & _ & _ & Bpi & _); try done.
  - unfold Decimal. cbn. destruct (Z.ltb_spec total 0); [lia|done].
  - now apply canonical_wf in Cn.
  - simpl. lia.
  - rewrite !dval_Decimal, dval_pos_dec, q10_0.
    change (inject_Z 0) with 0%Q. change (inject_Z 4) with 4%Q. lra.
  - exists pi. split; [done|].
    rewrite dval_Decimal, dval_pos_dec, q10_0 in Bpi.
    change (inject_Z 0) with 0%Q in Bpi. change (inject_Z 4) with 4%Q in Bpi.
    lra.
Qed.

(** With the default of 2000 samples per digit, [4 * total_samples] is
    [8 * digits] thousands and needs no rounding at [digits + 2]
    digits. *)
Lemma default_total_exact (c : context) (digits : Z) :
  valid_context c -> 1 <= digits -> prec c = digits + 2 ->
  digits + 4 <= Emax c ->
  exact_at c (4 * (digits * 2000)).
Proof.
  intros Hv Hd Hp Hmax. exists (8 * digits), 3.
  split; [change (10 ^ 3) with 1000; lia|]. split; [lia|].
  pose proof (valid_Etiny c Hv) as (Ht0 & _ & _).
  assert (H10 : 8 * digits < 10 ^ (digits + 1)).
  { pose proof (Z.pow_gt_lin_r 10 digits ltac:(lia) ltac:(lia)).
    rewrite Z.pow_add_r by lia. change (10 ^ 1) with 10. lia. }
  apply (canonical_small c false (8 * digits) 3 (digits + 1)); lia.
Qed.

Section Estimate.

Context {float rng : Type}.
Variable random : rng -> float * rng.
Variable fmul fadd : float -> float -> float.
Variable fle_one : float -> bool.

Abbreviation monte_carlo_serial := (monte_carlo_serial random fmul fadd fle_one).
Abbreviation monte_carlo_parallel :=
  (monte_carlo_parallel random fmul fadd fle_one).

(** C10, as the code has it.  In the serial path the hit count that enters
    the final division is between 0 and the number of samples drawn, and
    so is, whenever the parallel path returns, the sum of the workers'
    counts.  The value computed from a hit count is the [Decimal]
    [Decimal(4) * Decimal(inside) / Decimal(total_samples)], rounded twice
    to [digits + 2] digits: it lies in [0, 4] whenever [4 * total_samples]
    needs no rounding, and so for the default of 2000 samples per
    digit. *)
Theorem hits_within_samples (ch : children (process rng))
    (digits spd chunk_size : Z) (s : process rng) :
  1 <= digits -> digits + 2 <= MAX_PREC -> 1 <= spd -> 1 <= chunk_size ->
  0 <= Emax (p_ctx s) -> Emin (p_ctx s) <= 0 ->
  let total := digits * spd in
  let c := Ctx (digits + 2) (Emax (p_ctx s)) (Emin (p_ctx s)) in
  (exists inside g,
      0 <= inside <= total /\
      monte_carlo_serial digits spd s
      = with_ctx (mc_result digits inside total) (Process c g)) /\
  (forall r s',
      monte_carlo_parallel ch digits spd chunk_size s = (Ok r, s') ->
      exists inside,
        0 <= inside <= total /\
        (Ok r, s')
        = with_ctx (mc_result digits inside total) (Process c (p_rng s))) /\
  (forall inside,
      mc_result digits inside total c
      = match mc_estimate c inside total with
        | Ok pi => format_pi digits pi c
        | Raise e => (Raise e, c)
        end) /\
  (exact_at c (4 * total) \/ spd = 2000 /\ digits + 4 <= Emax (p_ctx s) ->
   forall inside,
     0 <= inside <= total ->
     exists pi, mc_estimate c inside total = Ok pi /\ (0 <= dval pi <= 4)%Q).
Proof.
  intros Hd Hp Hs Hc Hmax Hmin total c.
  assert (Ht : 1 <= total) by (unfold total; nia).
  assert (Hv : valid_context c) by (unfold valid_context, c; cbn; lia).
  split; [|split; [|split]].
  - now apply mc_serial_hits.
  - intros r s' Hret.
    now apply (mc_parallel_hits random fmul fadd fle_one ch digits spd
                 chunk_size).
  - intros inside. apply mc_result_estimate.
  - intros Hex inside Hi. apply estimate_in_0_4; try done.
    destruct Hex as [Hex|[-> Hbig]]; [done|].
    apply default_total_exact; done.
Qed.

End Estimate.

(** A request of 2 digits with the default of 2000 samples per digit, in
    chunks of 250000. *)
Lemma hits_within_samples_witness :
  let ch := Children (fun _ => Process DefaultContext 7) (fun _ => false) in
  let s := Process DefaultContext 1 in
  let total := 2 * 2000 in
  let c := Ctx (2 + 2) (Emax (p_ctx s)) (Emin (p_ctx s)) in
  (exists inside g,
      0 <= inside <= total /\
      monte_carlo_serial Lcg.random Lcg.fmul Lcg.fadd Lcg.fle_one 2 2000 s
      = with_ctx (mc_result 2 inside total) (Process c g)) /\
  (forall r s',
      monte_carlo_parallel Lcg.random Lcg.fmul Lcg.fadd Lcg.fle_one
        ch 2 2000 250000 s = (Ok r, s') ->
      exists inside,
        0 <= inside <= total /\
        (Ok r, s')
        = with_ctx (mc_result 2 inside total) (Process c (p_rng s))) /\
  (forall inside,
      mc_result 2 inside total c
      = match mc_estimate c inside total with
        | Ok pi => format_pi 2 pi c
        | Raise e => (Raise e, c)
        end) /\
  (exact_at c (4 * total) \/ 2000 = 2000 /\ 2 + 4 <= Emax (p_ctx s) ->
   forall inside,
     0 <= inside <= total ->
     exists pi, mc_estimate c inside total = Ok pi /\ (0 <= dval pi <= 4)%Q).
Proof.
  intros ch s.
  apply (hits_within_samples Lcg.random Lcg.fmul Lcg.fadd Lcg.fle_one
           ch 2 2000 250000 s).
  - lia.
  - unfold MAX_PREC. lia.
  - lia.
  - lia.
  - simpl. lia.
  - simpl. lia.
Defined.

(** A request of 1 digit with 499 samples per digit, all of which hit:
    [Decimal(4) * Decimal(499)] is rounded to [2.00E+3] at 3 digits, and
    the quotient by 499 to [4.01]. *)
Lemma estimate_exceeds_4 :
  let draw := fun g : Z => (0, g) in
  let c := Ctx (1 + 2) 999999 (-999999) in
  for_fold (sample_step draw Lcg.fmul Lcg.fadd Lcg.fle_one)
    (seqZ 0 (1 * 499)) 0 (Process c 1) = (Ok 499, Process c 1) /\
  monte_carlo_serial draw Lcg.fmul Lcg.fadd Lcg.fle_one 1 499
    (Process DefaultContext 1)
  = with_ctx (mc_result 1 499 (1 * 499)) (Process c 1) /\
  mc_estimate c 499 (1 * 499) = Ok (Dec false 401 (-2)) /\
  (4 < dval (Dec false 401 (-2)))%Q.
Proof.
  intros draw c. split; [|split; [|split]]; vm_compute; reflexivity.
Qed.

(** ** Rounding errors *)


Lemma rel_unit_range (c : context) :
  valid_context c -> (0 < rel_unit c <= 1)%Q.
Proof.
  intros (Hp & _ & _). unfold rel_unit. split; [apply q10_pos|].
  replace (1 - prec c) with (- (prec c - 1)) by lia. apply q10_le_1. lia.
Qed.

Lemma abs_unit_range (c : context) :
  valid_context c -> (0 < abs_unit c <= rel_unit c)%Q.
Proof.
  intros (Hp & _ & Hmin). unfold abs_unit, rel_unit. split; [apply q10_pos|].
  apply q10_le. unfold Etiny. lia.
Qed.

(** Rounding moves a coefficient by at most half a unit of the place it
    is rounded to. *)
Lemma rhe_error_Q (cx e e1 : Z) :
  0 <= cx -> e <= e1 ->
  (- ((1 # 2) * 10 ^ e1)
   <= inject_Z (round_half_even cx (e1 - e)) * 10 ^ e1 - inject_Z cx * 10 ^ e
   <= (1 # 2) * 10 ^ e1)%Q.
Proof.
  intros Hc He.
  pose proof (rhe_error cx (e1 - e) ltac:(lia)) as H.
  set (q := round_half_even cx (e1 - e)) in *.
  set (p := 10 ^ (e1 - e)) in *.
  assert (Hlo : - p <= 2 * (q * p + - cx)) by lia.
  assert (Hhi : 2 * (q * p + - cx) <= p) by lia.
  rewrite Zle_Qle, inject_Z_mult, inject_Z_plus, inject_Z_mult,
    !inject_Z_opp in Hlo.
  rewrite Zle_Qle, inject_Z_mult, inject_Z_plus, inject_Z_mult,
    inject_Z_opp in Hhi.
  unfold p in Hlo, Hhi. rewrite q10_inject in Hlo, Hhi by lia.
  assert (E : (10 ^ e1 == 10 ^ (e1 - e) * 10 ^ e)%Q).
  { rewrite <- q10_add. now replace (e1 - e + e) with e1 by lia. }
  pose proof (q10_pos e) as Pe.
  change (inject_Z 2) with 2%Q in *.
  rewrite E. revert Hlo Hhi Pe.
  generalize (10 ^ (e1 - e))%Q (10 ^ e)%Q (inject_Z q) (inject_Z cx).
  intros P E0 Q0 C Hlo Hhi Pe. split; nra.
Qed.

(** The place a coefficient is rounded to, against its magnitude. *)
Lemma round_place_le (c : context) (cx e : Z) :
  valid_context c -> 0 < cx ->
  (10 ^ Z.max (ndigits cx + e - prec c) (Etiny c)
   <= rel_unit c * (inject_Z cx * 10 ^ e) + abs_unit c)%Q.
Proof.
  intros Hv Hc. unfold rel_unit, abs_unit.
  pose proof (q10_pos (1 - prec c)) as Pu.
  pose proof (q10_pos (Etiny c)) as Pt.
  pose proof (q10_pos e) as Pe.
  pose proof (ndigits_spec cx Hc) as [Hlo _].
  pose proof (ndigits_pos cx) as Hn.
  rewrite Zle_Qle in Hlo. rewrite q10_inject in Hlo by lia.
  assert (E : (10 ^ (ndigits cx + e - prec c)
               == 10 ^ (1 - prec c) * (10 ^ (ndigits cx - 1) * 10 ^ e))%Q).
  { replace (ndigits cx + e - prec c)
      with (1 - prec c + (ndigits cx - 1 + e)) by lia.
    now rewrite !q10_add. }
  assert (Hcx : (0 < inject_Z cx)%Q).
  { change 0%Q with (inject_Z 0). rewrite <- Zlt_Qlt. done. }
  destruct (Z.max_spec (ndigits cx + e - prec c) (Etiny c)) as [[_ ->]|[_ ->]].
  - revert Pu Pt Pe Hcx. generalize (10 ^ (1 - prec c))%Q (10 ^ Etiny c)%Q
      (10 ^ e)%Q (inject_Z cx). intros u t x y Pu Pt Pe Hcx.
    assert (0 < y * x)%Q by nra. nra.
  - rewrite E. revert Pu Pt Pe Hcx Hlo.
    generalize (10 ^ (1 - prec c))%Q (10 ^ Etiny c)%Q
      (10 ^ e)%Q (inject_Z cx) (10 ^ (ndigits cx - 1))%Q.
    intros u t x y z Pu Pt Pe Hcx Hlo.
    assert (z * x <= y * x)%Q by nra.
    assert (u * (z * x) <= u * (y * x))%Q by nra. lra.
Qed.

(** [_fix] moves a magnitude by at most half a relative unit of it, or
    half the spacing of the smallest numbers. *)
Lemma fix_mag_error (c : context) (x r : decimal) :
  valid_context c -> 0 <= dcoef x -> fix_ c x = Ok r ->
  (- ((1 # 2) * (rel_unit c * dmag x + abs_unit c))
   <= dmag r - dmag x
   <= (1 # 2) * (rel_unit c * dmag x + abs_unit c))%Q.
Proof.
  intros Hv Hx Hf.
  pose proof (rel_unit_range c Hv) as [Pu _].
  pose proof (abs_unit_range c Hv) as [Pt _].
  destruct (Z.eq_dec (dcoef x) 0) as [E|E].
  - rewrite fix_zero in Hf by done. injection Hf as <-.
    rewrite (dmag_zero x), (dmag_zero (Dec _ 0 _)) by done. split; nra.
  - assert (Hpos : 0 < dcoef x) by lia.
    pose proof (dmag_pos x Hpos) as Px.
    destruct x as [s cx e]. cbn [dcoef dexp dsign] in *.
    pose proof (fix_nonzero c (Dec s cx e) Hpos) as H.
    cbn [dcoef dexp dsign] in H. cbv zeta in H.
    assert (Hsame : r = Dec s cx e ->
      (- ((1 # 2) * (rel_unit c * dmag (Dec s cx e) + abs_unit c))
       <= dmag r - dmag (Dec s cx e)
       <= (1 # 2) * (rel_unit c * dmag (Dec s cx e) + abs_unit c))%Q).
    { intros ->. split; nra. }
    assert (Hround : e < Z.max (ndigits cx + e - prec c) (Etiny c) ->
      (- ((1 # 2) * (rel_unit c * dmag (Dec s cx e) + abs_unit c))
       <= dmag r - dmag (Dec s cx e)
       <= (1 # 2) * (rel_unit c * dmag (Dec s cx e) + abs_unit c))%Q).
    { intros Hlt.
      pose proof (fix_rounded c s cx e r Hv Hpos Hlt Hf) as (_ & _ & _ & Hm & _).
      pose proof (rhe_error_Q cx e
                    (Z.max (ndigits cx + e - prec c) (Etiny c))
                    ltac:(lia) ltac:(lia)) as Hr.
      pose proof (round_place_le c cx e Hv Hpos) as Hp.
      rewrite Hm. unfold dmag. cbn [dcoef dexp].
      revert Hr Hp.
      generalize (inject_Z (round_half_even cx
                    (Z.max (ndigits cx + e - prec c) (Etiny c) - e))
                  * 10 ^ Z.max (ndigits cx + e - prec c) (Etiny c))%Q.
      generalize (10 ^ Z.max (ndigits cx + e - prec c) (Etiny c))%Q.
      generalize (inject_Z cx * 10 ^ e)%Q (rel_unit c) (abs_unit c).
      intros X u t G R Hr Hp. split; lra. }
    destruct H as [[_ H]|[(_ & _ & H)|[(_ & Hlt & _)|(_ & Hlt & _)]]].
    + rewrite H in Hf. discriminate.
    + rewrite H in Hf. injection Hf as <-. now apply Hsame.
    + now apply Hround.
    + now apply Hround.
Qed.

(** The same for the signed value, against any bound [M] of the
    magnitude. *)
Lemma fix_error (c : context) (x r : decimal) (M : Q) :
  valid_context c -> 0 <= dcoef x -> fix_ c x = Ok r ->
  (dmag x <= M)%Q ->
  0 <= dcoef r /\
  (- ((1 # 2) * (rel_unit c * M + abs_unit c))
   <= dval r - dval x
   <= (1 # 2) * (rel_unit c * M + abs_unit c))%Q.
Proof.
  intros Hv Hx Hf HM.
  pose proof (fix_mag_error c x r Hv Hx Hf) as He.
  destruct (fix_ok_canonical c x r Hv Hx Hf) as [Hc Hs].
  pose proof (rel_unit_range c Hv) as [Pu _].
  split; [now apply canonical_wf in Hc|].
  unfold dval. rewrite Hs.
  assert (rel_unit c * dmag x <= rel_unit c * M)%Q by nra.
  destruct (dsign x); split; lra.
Qed.

Lemma inject_Z_pos (z : Z) : 0 < z -> (0 < inject_Z z)%Q.
Proof. intros H. change 0%Q with (inject_Z 0). now rewrite <- Zlt_Qlt. Qed.

Lemma inject_Z_nonneg (z : Z) : 0 <= z -> (0 <= inject_Z z)%Q.
Proof. intros H. change 0%Q with (inject_Z 0). now rewrite <- Zle_Qle. Qed.

(** The argument [dec_div] hands to [_fix] is within a tenth of a
    relative unit of the quotient. *)
Lemma div_exact_error (c : context) (n d : Z) (v : Q) :
  valid_context c -> 1 <= n -> 1 <= d ->
  (v * inject_Z d == inject_Z n)%Q ->
  let x := div_exact c (Dec false n 0) (Dec false d 0) in
  0 <= dcoef x /\ dsign x = false /\
  (- ((1 # 10) * rel_unit c * v) <= dmag x - v <= (1 # 10) * rel_unit c * v)%Q.
Proof.
  intros Hv Hn Hd Hq x.
  pose proof Hv as (Hp & _ & _).
  pose proof (div_exact_wf c (Dec false n 0) (Dec false d 0)
                ltac:(simpl; lia) ltac:(simpl; lia)) as (Hw & Hs & _).
  fold x in Hw, Hs. split; [done|]. split; [done|].
  pose proof (div_exact_cases c (Dec false n 0) (Dec false d 0)
                ltac:(simpl; lia) ltac:(simpl; lia)) as H.
  cbv zeta in H. cbn [dcoef dexp dsign] in H. fold x in H.
  set (shift := ndigits d - ndigits n + prec c + 1) in *.
  set (ex := 0 - 0 - shift) in *.
  set (N := quot_num n shift) in *.
  set (D := quot_den d shift) in *.
  destruct H as (_ & _ & H).
  pose proof (quot_den_pos d shift ltac:(lia)) as HD. fold D in HD.
  pose proof (quot_num_pos n shift ltac:(lia)) as HN. fold N in HN.
  pose proof (quot_big (prec c) n d shift Hp ltac:(lia) ltac:(lia) eq_refl)
    as Hbig. fold N D in Hbig.
  pose proof (quot_scale n d 0 0 shift) as Hsc. fold N D ex in Hsc.
  rewrite q10_0 in Hsc.
  pose proof (Z.div_mod N D ltac:(lia)) as Hdm.
  pose proof (Z.mod_pos_bound N D HD) as Hmod.
  pose proof (pow10_pos (prec c) ltac:(lia)) as Hpp.
  assert (Hu : (rel_unit c == 10 * 10 ^ (- prec c))%Q).
  { unfold rel_unit. replace (1 - prec c) with (- prec c + 1) by lia.
    rewrite q10_succ. reflexivity. }
  pose proof (q10_neg_mul (prec c)) as Hnp.
  pose proof (q10_pos (- prec c)) as Pnp.
  pose proof (q10_pos ex) as PG.
  pose proof (inject_Z_pos D HD) as PD.
  pose proof (inject_Z_pos d ltac:(lia)) as Pd.
  pose proof (inject_Z_pos n ltac:(lia)) as Pn.
  (* the quotient in terms of the integer division *)
  assert (EN : (inject_Z N == inject_Z D * inject_Z (N / D) + inject_Z (N mod D))%Q).
  { rewrite <- inject_Z_mult, <- inject_Z_plus. now rewrite <- Hdm. }
  assert (Hr0 : (0 <= inject_Z (N mod D))%Q) by (apply inject_Z_nonneg; lia).
  assert (Hr1 : (inject_Z (N mod D) <= inject_Z D)%Q)
    by (rewrite <- Zle_Qle; lia).
  assert (Hq0 : (inject_Z (10 ^ prec c) <= inject_Z (N / D))%Q)
    by (now rewrite <- Zle_Qle).
  rewrite q10_inject in Hq0 by lia.
  assert (Ev : (v * inject_Z D == inject_Z N * 10 ^ ex)%Q).
  { apply (Qmult_inj_r _ _ (inject_Z d)); [lra|].
    assert (E : (v * inject_Z D * inject_Z d
                 == v * inject_Z d * inject_Z D)%Q) by ring.
    rewrite E, Hq. lra. }
  rewrite Hu.
  assert (Hx : (dmag x == inject_Z (N / D) * 10 ^ ex /\ N mod D = 0) \/
               ((dmag x == inject_Z (N / D) * 10 ^ ex \/
                 dmag x == (inject_Z (N / D) + 1) * 10 ^ ex))%Q).
  { destruct H as [(Hm0 & Hrange & Hval)|(Hm0 & Hex & Hval)].
    - left. split; [|done]. unfold dmag.
      rewrite (qmag_rescale (dcoef x) (dexp x) ex) by lia.
      now rewrite <- Hval.
    - right. unfold dmag. rewrite Hex.
      destruct Hval as [->| ->]; [now left|right].
      now rewrite inject_Z_plus. }
  revert Hx EN Hr0 Hr1 Hq0 Ev Hnp Pnp PG PD.
  generalize (dmag x) (inject_Z (N / D)) (inject_Z (N mod D)) (inject_Z D)
    (inject_Z N) (10 ^ ex)%Q (10 ^ prec c)%Q (10 ^ (- prec c))%Q.
  intros X q r Dq Nq G P P' Hx EN Hr0 Hr1 Hq0 Ev Hnp Pnp PG PD.
  (* v lies between q G and (q + 1) G, and G <= P' v *)
  assert (B0 : (Dq * (v - q * G) == r * G)%Q).
  { assert (E : (Dq * (v - q * G) == v * Dq - Dq * q * G)%Q) by ring.
    rewrite E, Ev, EN. ring. }
  assert (B1 : (0 <= Dq * (v - q * G))%Q) by (rewrite B0; nra).
  assert (B2 : (Dq * (v - q * G) <= Dq * G)%Q) by (rewrite B0; nra).
  assert (B3 : (0 <= v - q * G)%Q) by nra.
  assert (B4 : (v - q * G <= G)%Q) by nra.
  assert (B5 : (G <= P' * v)%Q).
  { assert (P * G <= q * G)%Q by nra.
    assert (P' * (P * G) <= P' * v)%Q by nra.
    assert (E : (P' * (P * G) == G)%Q).
    { assert (E : (P' * (P * G) == P' * P * G)%Q) by ring.
      rewrite E, Hnp. ring. }
    now rewrite <- E at 1. }
  destruct Hx as [[Hx Hz]|[Hx|Hx]]; rewrite Hx; split; nra.
Qed.

Lemma dmag_le_bound (x : decimal) (M : Q) :
  (- M <= dval x <= M)%Q -> (dmag x <= M)%Q.
Proof. unfold dval. destruct (dsign x); lra. Qed.

(** A quotient of positive integers is within 13/20 of a relative unit
    of the exact one, or half the spacing of the smallest numbers. *)
Lemma div_error (c : context) (n d : Z) (v : Q) (r : decimal) :
  valid_context c -> 1 <= n -> 1 <= d ->
  (v * inject_Z d == inject_Z n)%Q ->
  dec_div c (Decimal n) (Decimal d) = Ok r ->
  0 <= dcoef r /\
  (- ((13 # 20) * rel_unit c * v + (1 # 2) * abs_unit c) <= dval r - v
   <= (13 # 20) * rel_unit c * v + (1 # 2) * abs_unit c)%Q.
Proof.
  intros Hv Hn Hd Hq Hr.
  rewrite !Decimal_nonneg in Hr by lia.
  rewrite dec_div_fix in Hr by (simpl; lia).
  destruct (div_exact_error c n d v Hv Hn Hd Hq) as (Hw & Hs & Hx).
  pose proof (rel_unit_range c Hv) as [Pu Pu1].
  pose proof (abs_unit_range c Hv) as [Pt _].
  pose proof (inject_Z_pos d ltac:(lia)) as Pd.
  pose proof (inject_Z_pos n ltac:(lia)) as Pn.
  assert (Pv : (0 < v)%Q) by nra.
  assert (Huv : (rel_unit c * v <= v)%Q) by nra.
  destruct (fix_error c _ r ((11 # 10) * v)%Q Hv Hw Hr) as [Hwr He]; [lra|].
  split; [done|].
  unfold dval in He at 2 4. rewrite Hs in He.
  revert Hx He Huv Pv Pu Pt.
  generalize (dmag (div_exact c (Dec false n 0) (Dec false d 0)))
    (dval r) (rel_unit c) (abs_unit c).
  intros X R u t Hx He Huv Pv Pu Pt.
  assert (E : (u * ((11 # 10) * v) == (11 # 10) * (u * v))%Q) by ring.
  rewrite E in He. split; lra.
Qed.

(** A difference is within half a relative unit of any bound [M] of it,
    or half the spacing of the smallest numbers. *)
Lemma sub_error (c : context) (a b r : decimal) (M : Q) :
  valid_context c -> dec_sub c a b = Ok r ->
  (- M <= dval a - dval b <= M)%Q ->
  0 <= dcoef r /\
  (- ((1 # 2) * (rel_unit c * M + abs_unit c))
   <= dval r - (dval a - dval b)
   <= (1 # 2) * (rel_unit c * M + abs_unit c))%Q.
Proof.
  intros Hv Hr HM. unfold dec_sub in Hr. rewrite dec_add_fix in Hr.
  pose proof (add_exact_wf a (copy_negate b)) as [Hw _].
  pose proof (add_exact_val a (copy_negate b)) as Hval.
  rewrite dval_copy_negate in Hval.
  destruct (fix_error c _ r M Hv Hw Hr) as [Hwr He].
  - apply dmag_le_bound. rewrite Hval. lra.
  - split; [done|]. rewrite Hval in He. lra.
Qed.

(** So is a product. *)
Lemma mul_error (c : context) (a b r : decimal) (M : Q) :
  valid_context c -> 0 <= dcoef a -> 0 <= dcoef b ->
  dec_mul c a b = Ok r ->
  (- M <= dval a * dval b <= M)%Q ->
  0 <= dcoef r /\
  (- ((1 # 2) * (rel_unit c * M + abs_unit c))
   <= dval r - dval a * dval b
   <= (1 # 2) * (rel_unit c * M + abs_unit c))%Q.
Proof.
  intros Hv Ha Hb Hr HM. unfold dec_mul in Hr. fold (mul_exact a b) in Hr.
  assert (Hw : 0 <= dcoef (mul_exact a b)) by (simpl; nia).
  pose proof (mul_exact_val a b) as Hval.
  destruct (fix_error c _ r M Hv Hw Hr) as [Hwr He].
  - apply dmag_le_bound. rewrite Hval. lra.
  - split; [done|]. rewrite Hval in He. lra.
Qed.

(** The product of two bounded numbers. *)
Lemma Qprod_bound (a b A B : Q) :
  (- A <= a <= A)%Q -> (- B <= b <= B)%Q -> (- (A * B) <= a * b <= A * B)%Q.
Proof.
  intros [Ha1 Ha2] [Hb1 Hb2].
  assert (0 <= (A - a) * (B - b))%Q by (apply Qmult_le_0_compat; lra).
  assert (0 <= (A + a) * (B + b))%Q by (apply Qmult_le_0_compat; lra).
  assert (0 <= (A - a) * (B + b))%Q by (apply Qmult_le_0_compat; lra).
  assert (0 <= (A + a) * (B - b))%Q by (apply Qmult_le_0_compat; lra).
  split; lra.
Qed.

Lemma Qdiv_spec (x : Q) (d : Z) :
  1 <= d -> (x / inject_Z d * inject_Z d == x)%Q.
Proof.
  intros H. pose proof (inject_Z_pos d ltac:(lia)). field. lra.
Qed.

Lemma Qdiv_range (x : Q) (d m : Z) :
  (0 < x)%Q -> 1 <= m <= d ->
  (0 < x / inject_Z d /\ x / inject_Z d * inject_Z m <= x)%Q.
Proof.
  intros Hx Hd. pose proof (Qdiv_spec x d ltac:(lia)) as E.
  pose proof (inject_Z_pos d ltac:(lia)) as Pd.
  pose proof (inject_Z_pos m ltac:(lia)) as Pm.
  assert (Hmd : (inject_Z m <= inject_Z d)%Q) by (rewrite <- Zle_Qle; lia).
  revert E. generalize (x / inject_Z d)%Q. intros v E.
  assert (Pv : (0 < v)%Q) by nra. split; [done|]. nra.
Qed.

(** The operations [bbp_term] performs when it returns. *)
Lemma bbp_term_steps (c : context) (k : Z) (t : decimal) (c' : context) :
  0 <= k -> bbp_term k c = (Ok t, c') ->
  exists p a1 a2 s1 a3 s2 a4 s3,
    dec_div c (Decimal 1) (Decimal (16 ^ k)) = Ok p /\
    dec_div c (Decimal 4) (Decimal (8 * k + 1)) = Ok a1 /\
    dec_div c (Decimal 2) (Decimal (8 * k + 4)) = Ok a2 /\
    dec_sub c a1 a2 = Ok s1 /\
    dec_div c (Decimal 1) (Decimal (8 * k + 5)) = Ok a3 /\
    dec_sub c s1 a3 = Ok s2 /\
    dec_div c (Decimal 1) (Decimal (8 * k + 6)) = Ok a4 /\
    dec_sub c s2 a4 = Ok s3 /\
    dec_mul c p s3 = Ok t.
Proof.
  intros Hk. unfold bbp_term.
  destruct (Z.ltb_spec k 0); [lia|]. unfold bind, under_ctx.
  destruct (dec_div c (Decimal 1) (Decimal (16 ^ k))) as [p|] eqn:Ep;
    [|done].
  destruct (dec_div c (Decimal 4) _) as [a1|] eqn:E1; [|done].
  destruct (dec_div c (Decimal 2) _) as [a2|] eqn:E2; [|done].
  destruct (dec_sub c a1 a2) as [s1|] eqn:F1; [|done].
  destruct (dec_div c (Decimal 1) (Decimal (8 * k + 5))) as [a3|] eqn:E3;
    [|done].
  destruct (dec_sub c s1 a3) as [s2|] eqn:F2; [|done].
  destruct (dec_div c (Decimal 1) (Decimal (8 * k + 6))) as [a4|] eqn:E4;
    [|done].
  destruct (dec_sub c s2 a4) as [s3|] eqn:F3; [|done].
  destruct (dec_mul c p s3) as [t'|] eqn:Ft; [|done].
  intros [= -> _]. exists p, a1, a2, s1, a3, s2, a4, s3. done.
Qed.

Lemma Qmul_le_const (u A b : Q) :
  (0 < u)%Q -> (A <= b)%Q -> (u * A <= b * u)%Q.
Proof. intros Hu HA. nra. Qed.

Lemma Qmul_pos (a b : Q) : (0 < a)%Q -> (0 < b)%Q -> (0 < a * b)%Q.
Proof. intros Ha Hb. nra. Qed.

Lemma Qmul_le_1 (a b : Q) : (0 < b)%Q -> (a <= 1)%Q -> (a * b <= b)%Q.
Proof. intros Hb Ha. nra. Qed.

(** The arithmetic of the error bound: [u] is the relative unit, [y] the
    spacing of the smallest numbers, capitals are exact values and small
    letters the computed ones. *)
Lemma term_error_arith (u y P A1 A2 A3 A4 p a1 a2 a3 a4 s1 s2 s3 t : Q) :
  (0 < y <= u)%Q -> (u <= 1)%Q ->
  (0 < P <= 1)%Q -> (0 < A1 <= 4)%Q -> (0 < A2 <= 1 # 2)%Q ->
  (0 < A3 <= 1 # 5)%Q -> (0 < A4 <= 1 # 6)%Q ->
  (- ((13 # 20) * u * P + (1 # 2) * y) <= p - P
   <= (13 # 20) * u * P + (1 # 2) * y)%Q ->
  (- ((13 # 20) * u * A1 + (1 # 2) * y) <= a1 - A1
   <= (13 # 20) * u * A1 + (1 # 2) * y)%Q ->
  (- ((13 # 20) * u * A2 + (1 # 2) * y) <= a2 - A2
   <= (13 # 20) * u * A2 + (1 # 2) * y)%Q ->
  (- ((13 # 20) * u * A3 + (1 # 2) * y) <= a3 - A3
   <= (13 # 20) * u * A3 + (1 # 2) * y)%Q ->
  (- ((13 # 20) * u * A4 + (1 # 2) * y) <= a4 - A4
   <= (13 # 20) * u * A4 + (1 # 2) * y)%Q ->
  ((- 8 <= a1 - a2 <= 8)%Q ->
   (- ((1 # 2) * (u * 8 + y)) <= s1 - (a1 - a2)
    <= (1 # 2) * (u * 8 + y))%Q) ->
  ((- (131 # 10) <= s1 - a3 <= 131 # 10)%Q ->
   (- ((1 # 2) * (u * (131 # 10) + y)) <= s2 - (s1 - a3)
    <= (1 # 2) * (u * (131 # 10) + y))%Q) ->
  ((- (104 # 5) <= s2 - a4 <= 104 # 5)%Q ->
   (- ((1 # 2) * (u * (104 # 5) + y)) <= s3 - (s2 - a4)
    <= (1 # 2) * (u * (104 # 5) + y))%Q) ->
  ((- (((33 # 20) * P + (1 # 2) * y) * (317 # 10)) <= p * s3
    <= ((33 # 20) * P + (1 # 2) * y) * (317 # 10))%Q ->
   (- ((1 # 2) * (u * (((33 # 20) * P + (1 # 2) * y) * (317 # 10)) + y))
    <= t - p * s3
    <= (1 # 2) * (u * (((33 # 20) * P + (1 # 2) * y) * (317 # 10)) + y))%Q) ->
  (- (100 * (u * P + y)) <= t - P * (A1 - A2 - A3 - A4)
   <= 100 * (u * P + y))%Q.
Proof.
  intros [Py Hyu] Hu1 [PP HP1] [PA1 HA1] [PA2 HA2] [PA3 HA3] [PA4 HA4]
    Ep E1 E2 E3 E4 F1 F2 F3 Ft.
  assert (Pu : (0 < u)%Q) by lra.
  pose proof (Qmul_le_const u A1 4 Pu HA1) as U1.
  pose proof (Qmul_le_const u A2 (1 # 2) Pu HA2) as U2.
  pose proof (Qmul_le_const u A3 (1 # 5) Pu HA3) as U3.
  pose proof (Qmul_le_const u A4 (1 # 6) Pu HA4) as U4.
  pose proof (Qmul_pos u A1 Pu PA1) as V1.
  pose proof (Qmul_pos u A2 Pu PA2) as V2.
  pose proof (Qmul_pos u A3 Pu PA3) as V3.
  pose proof (Qmul_pos u A4 Pu PA4) as V4.
  pose proof (Qmul_pos u P Pu PP) as UP.
  pose proof (Qmul_le_1 u P PP Hu1) as UP1.
  pose proof (Qmul_le_1 u y Py Hu1) as UY.
  pose proof (Qmul_le_1 P y Py HP1) as PY.
  pose proof (Qmul_le_1 P u Pu HP1) as PU.
  assert (G1 : (- ((1 # 2) * (u * 8 + y)) <= s1 - (a1 - a2)
                <= (1 # 2) * (u * 8 + y))%Q) by (apply F1; lra).
  assert (G2 : (- ((1 # 2) * (u * (131 # 10) + y)) <= s2 - (s1 - a3)
                <= (1 # 2) * (u * (131 # 10) + y))%Q)
    by (apply F2; lra).
  assert (G3 : (- ((1 # 2) * (u * (104 # 5) + y)) <= s3 - (s2 - a4)
                <= (1 # 2) * (u * (104 # 5) + y))%Q)
    by (apply F3; lra).
  assert (H3 : (- ((121 # 5) * u + (7 # 2) * y) <= s3 - (A1 - A2 - A3 - A4)
                <= (121 # 5) * u + (7 # 2) * y)%Q) by lra.
  assert (B3 : (- (317 # 10) <= s3 <= 317 # 10)%Q) by lra.
  assert (Bp : (- ((33 # 20) * P + (1 # 2) * y) <= p
                <= (33 # 20) * P + (1 # 2) * y)%Q) by lra.
  pose proof (Qprod_bound p s3 _ _ Bp B3) as Bx.
  specialize (Ft Bx).
  assert (Bd : (- ((13 # 20) * (u * P) + (1 # 2) * y) <= p - P
                <= (13 # 20) * (u * P) + (1 # 2) * y)%Q) by lra.
  pose proof (Qprod_bound (p - P) s3 _ _ Bd B3) as B1.
  assert (BP : (- P <= P <= P)%Q) by lra.
  pose proof (Qprod_bound P (s3 - (A1 - A2 - A3 - A4)) _ _ BP H3) as B2.
  assert (E : (t - P * (A1 - A2 - A3 - A4)
               == (t - p * s3) + (p - P) * s3
                  + P * (s3 - (A1 - A2 - A3 - A4)))%Q) by ring.
  rewrite E. clear E.
  clear - Ft B1 B2 UP UP1 UY PY PU Pu Py PP Hu1 HP1.
  revert Ft B1 B2.
  generalize (t - p * s3)%Q ((p - P) * s3)%Q
    (P * (s3 - (A1 - A2 - A3 - A4)))%Q.
  intros x1 x2 x3 Ft B1 B2.
  split; lra.
Qed.

Lemma dec_sub_wf (c : context) (a b r : decimal) :
  valid_context c -> dec_sub c a b = Ok r -> 0 <= dcoef r.
Proof.
  intros Hv Hr. unfold dec_sub in Hr. rewrite dec_add_fix in Hr.
  pose proof (add_exact_wf a (copy_negate b)) as [Hw _].
  apply fix_ok_canonical in Hr as [Hc _]; [|done|done].
  now apply canonical_wf in Hc.
Qed.

(** The nine roundings of [bbp_term] move its value by at most 100
    relative units of [16^-k], or 100 times the spacing of the smallest
    numbers. *)
Lemma bbp_term_error (c : context) (k : Z) (t : decimal) (c' : context) :
  valid_context c -> 0 <= k -> bbp_term k c = (Ok t, c') ->
  (Qabs (dval t - bbp_term_exact k)
   <= 100 * (rel_unit c * (1 / inject_Z (16 ^ k)) + abs_unit c))%Q.
Proof.
  intros Hv Hk Et.
  destruct (bbp_term_steps c k t c' Hk Et)
    as (p & a1 & a2 & s1 & a3 & s2 & a4 & s3 &
        Ep & E1 & E2 & F1 & E3 & F2 & E4 & F3 & Ft).
  pose proof (pow16_pos k Hk) as H16.
  pose proof (rel_unit_range c Hv) as [Pu Hu1].
  pose proof (abs_unit_range c Hv) as Hy.
  destruct (div_error c 1 (16 ^ k) (1 / inject_Z (16 ^ k)) p Hv
              ltac:(lia) ltac:(lia) (Qdiv_spec 1 (16 ^ k) ltac:(lia)) Ep)
    as [Wp Bp].
  destruct (div_error c 4 (8 * k + 1) (4 / inject_Z (8 * k + 1)) a1 Hv
              ltac:(lia) ltac:(lia) (Qdiv_spec 4 (8 * k + 1) ltac:(lia)) E1)
    as [W1 B1].
  destruct (div_error c 2 (8 * k + 4) (2 / inject_Z (8 * k + 4)) a2 Hv
              ltac:(lia) ltac:(lia) (Qdiv_spec 2 (8 * k + 4) ltac:(lia)) E2)
    as [W2 B2].
  destruct (div_error c 1 (8 * k + 5) (1 / inject_Z (8 * k + 5)) a3 Hv
              ltac:(lia) ltac:(lia) (Qdiv_spec 1 (8 * k + 5) ltac:(lia)) E3)
    as [W3 B3].
  destruct (div_error c 1 (8 * k + 6) (1 / inject_Z (8 * k + 6)) a4 Hv
              ltac:(lia) ltac:(lia) (Qdiv_spec 1 (8 * k + 6) ltac:(lia)) E4)
    as [W4 B4].
  pose proof (dec_sub_wf c s2 a4 s3 Hv F3) as Ws3.
  destruct (Qdiv_range 1 (16 ^ k) 1 ltac:(lra) ltac:(lia)) as [PP HP].
  destruct (Qdiv_range 4 (8 * k + 1) 1 ltac:(lra) ltac:(lia)) as [PA1 HA1].
  destruct (Qdiv_range 2 (8 * k + 4) 4 ltac:(lra) ltac:(lia)) as [PA2 HA2].
  destruct (Qdiv_range 1 (8 * k + 5) 5 ltac:(lra) ltac:(lia)) as [PA3 HA3].
  destruct (Qdiv_range 1 (8 * k + 6) 6 ltac:(lra) ltac:(lia)) as [PA4 HA4].
  change (inject_Z 1) with 1%Q in HP, HA1.
  change (inject_Z 4) with 4%Q in HA2.
  change (inject_Z 5) with 5%Q in HA3.
  change (inject_Z 6) with 6%Q in HA4.
  apply Qabs_Qle_condition. unfold bbp_term_exact.
  apply (term_error_arith (rel_unit c) (abs_unit c) _ _ _ _ _
           (dval p) (dval a1) (dval a2) (dval a3) (dval a4)
           (dval s1) (dval s2) (dval s3) (dval t)); try done; try lra.
  - intros HM. now apply (sub_error c a1 a2 s1 8 Hv F1).
  - intros HM. now apply (sub_error c s1 a3 s2 (131 # 10) Hv F2).
  - intros HM. now apply (sub_error c s2 a4 s3 (104 # 5) Hv F3).
  - intros HM. now apply (mul_error c p s3 t _ Hv Wp Ws3 Ft).
Qed.



(** ** The exponent of the partial sums *)

Lemma q10_lt_inv (a b : Z) : (10 ^ a < 10 ^ b)%Q -> a < b.
Proof.
  intros H. destruct (Z.lt_ge_cases a b) as [|Hge]; [done|].
  pose proof (q10_le b a Hge). lra.
Qed.

(** A magnitude below 10 has at most one digit before the point. *)
Lemma adjusted_small (m e : Z) :
  0 < m -> (inject_Z m * 10 ^ e < 10)%Q -> ndigits m + e <= 1.
Proof.
  intros Hm Hlt. pose proof (ndigits_spec m Hm) as [Hlo _].
  pose proof (ndigits_pos m) as Hn.
  rewrite Zle_Qle, q10_inject in Hlo by lia.
  pose proof (q10_pos e) as Pe.
  assert (H : (10 ^ (ndigits m - 1 + e) < 10 ^ 1)%Q).
  { rewrite q10_add. change (10 ^ 1)%Q with 10%Q.
    revert Hlo Hlt Pe. generalize (10 ^ (ndigits m - 1))%Q (10 ^ e)%Q
      (inject_Z m). intros a b x Hlo Hlt Pe.
    assert (a * b <= x * b)%Q by (apply Qmult_le_compat_r; lra). lra. }
  apply q10_lt_inv in H. lia.
Qed.

(** At least 1 means at least one digit before the point. *)
Lemma adjusted_big (m e : Z) :
  0 < m -> (1 <= inject_Z m * 10 ^ e)%Q -> 1 <= ndigits m + e.
Proof.
  intros Hm Hge. pose proof (ndigits_spec m Hm) as [_ Hhi].
  pose proof (ndigits_pos m) as Hn.
  rewrite Zlt_Qlt, q10_inject in Hhi by lia.
  pose proof (q10_pos e) as Pe.
  assert (H : (10 ^ 0 < 10 ^ (ndigits m + e))%Q).
  { rewrite q10_add, q10_0.
    revert Hhi Hge Pe. generalize (10 ^ ndigits m)%Q (10 ^ e)%Q
      (inject_Z m). intros a b x Hhi Hge Pe.
    assert (x * b < a * b)%Q by (apply Qmult_lt_compat_r; lra). lra. }
  apply q10_lt_inv in H. lia.
Qed.

(** Rounding a number below 10 whose exponent is at most [1 - prec]
    gives such an exponent again. *)
Lemma fix_exp_small (c : context) (x r : decimal) :
  valid_context c -> 0 <= dcoef x -> fix_ c x = Ok r ->
  dexp x <= 1 - prec c -> (dmag x < 10)%Q -> (dmag r < 10)%Q ->
  dexp r <= 1 - prec c.
Proof.
  intros Hv Hx Hf He Hmx Hmr.
  pose proof Hv as (Hp & Hmax & Hmin).
  assert (Ht : Etiny c <= 1 - prec c) by (unfold Etiny; lia).
  destruct (Z.eq_dec (dcoef x) 0) as [E|E].
  - rewrite fix_zero in Hf by done. injection Hf as <-. cbn [dexp]. lia.
  - assert (Hpos : 0 < dcoef x) by lia.
    destruct x as [s cx e]. cbn [dcoef dexp dsign] in *.
    unfold dmag in Hmx. cbn [dcoef dexp] in Hmx.
    pose proof (adjusted_small cx e Hpos Hmx) as Hadj.
    pose proof (fix_nonzero c (Dec s cx e) Hpos) as H.
    cbn [dcoef dexp dsign] in H. cbv zeta in H.
    assert (Hround : e < Z.max (ndigits cx + e - prec c) (Etiny c) ->
                     dexp r <= 1 - prec c).
    { intros Hlt.
      destruct (fix_rounded_shape c s cx e r Hv Hpos Hlt Hf)
        as (_ & [(-> & _ & _)|(-> & _ & _)]).
      - cbn [dexp]. lia.
      - cbn [dexp]. unfold dmag in Hmr. cbn [dcoef dexp] in Hmr.
        rewrite q10_inject, <- q10_add in Hmr by lia.
        change 10%Q with (10 ^ 1)%Q in Hmr at 2.
        apply q10_lt_inv in Hmr. lia. }
    destruct H as [[_ H]|[(_ & _ & H)|[(_ & Hlt & _)|(_ & Hlt & _)]]].
    + rewrite H in Hf. discriminate.
    + rewrite H in Hf. injection Hf as <-. done.
    + now apply Hround.
    + now apply Hround.
Qed.

Lemma dmag_lt_bound (x : decimal) (M : Q) :
  (- M < dval x < M)%Q -> (dmag x < M)%Q.
Proof. unfold dval. destruct (dsign x); lra. Qed.

Lemma add_exp_small (c : context) (a b r : decimal) :
  valid_context c -> dec_add c a b = Ok r ->
  dexp a <= 1 - prec c \/ dexp b <= 1 - prec c ->
  (- 10 < dval a + dval b < 10)%Q -> (- 10 < dval r < 10)%Q ->
  dexp r <= 1 - prec c.
Proof.
  intros Hv Hr He Hs Hb. rewrite dec_add_fix in Hr.
  pose proof (add_exact_wf a b) as [Hw Hx].
  apply (fix_exp_small c (add_exact a b) r); try done.
  - rewrite Hx. lia.
  - apply dmag_lt_bound. now rewrite add_exact_val.
  - now apply dmag_lt_bound.
Qed.

Lemma sub_exp_small (c : context) (a b r : decimal) :
  valid_context c -> dec_sub c a b = Ok r ->
  dexp a <= 1 - prec c \/ dexp b <= 1 - prec c ->
  (- 10 < dval a - dval b < 10)%Q -> (- 10 < dval r < 10)%Q ->
  dexp r <= 1 - prec c.
Proof.
  intros Hv Hr He Hs Hb. unfold dec_sub in Hr.
  apply (add_exp_small c a (copy_negate b) r); try done.
  rewrite dval_copy_negate. lra.
Qed.

Lemma mul_exp_small (c : context) (a b r : decimal) :
  valid_context c -> 0 <= dcoef a -> 0 <= dcoef b ->
  dec_mul c a b = Ok r ->
  dexp a + dexp b <= 1 - prec c ->
  (- 10 < dval a * dval b < 10)%Q -> (- 10 < dval r < 10)%Q ->
  dexp r <= 1 - prec c.
Proof.
  intros Hv Ha Hb Hr He Hs Hbd. unfold dec_mul in Hr.
  fold (mul_exact a b) in Hr.
  apply (fix_exp_small c (mul_exact a b) r); try done.
  - simpl. nia.
  - apply dmag_lt_bound. now rewrite mul_exact_val.
  - now apply dmag_lt_bound.
Qed.

(** A result between 1 and 10 whose exponent is at most [1 - prec] has
    exactly [prec] digits. *)
Lemma full_precision (c : context) (r : decimal) :
  valid_context c -> canonical c r -> dexp r <= 1 - prec c ->
  (1 <= dval r < 10)%Q ->
  dsign r = false /\ 0 < dcoef r /\ ndigits (dcoef r) = prec c /\
  dexp r = 1 - prec c.
Proof.
  intros Hv Hc He [H1 H10].
  destruct (dval_pos_inv r (canonical_wf _ _ Hc) ltac:(lra)) as [Hs Hm].
  unfold dval in H1, H10. rewrite Hs in H1, H10. unfold dmag in H1, H10.
  pose proof (adjusted_small _ _ Hm H10).
  pose proof (adjusted_big _ _ Hm H1).
  destruct (canonical_inv c r Hv Hc) as [[E _]|(_ & Hn & _)]; [lia|].
  repeat split; try done; lia.
Qed.

Lemma pow10_mod3 (s : Z) : 0 <= s -> 10 ^ s mod 3 = 1.
Proof.
  intros H. pattern s. apply natlike_ind; [reflexivity| |done].
  intros x Hx IH. rewrite Z.pow_succ_r by done.
  rewrite Z.mul_mod, IH by lia. reflexivity.
Qed.

(** [Decimal(1) / 6] does not terminate: the quotient fills the
    precision. *)
Lemma sixth_exp (c : context) (a : decimal) :
  valid_context c ->
  dec_div c (Decimal 1) (Decimal 6) = Ok a -> dexp a <= 1 - prec c.
Proof.
  intros Hv Ha. pose proof Hv as (Hp & _ & _).
  pose proof (rel_unit_range c Hv) as [Pu Hu1].
  pose proof (abs_unit_range c Hv) as [Pt Htu].
  assert (Hq : ((1 # 6) * inject_Z 6 == inject_Z 1)%Q) by reflexivity.
  destruct (div_error c 1 6 (1 # 6) a Hv ltac:(lia) ltac:(lia) Hq Ha)
    as [Wa Ba].
  rewrite !Decimal_nonneg in Ha by lia.
  rewrite dec_div_fix in Ha by (simpl; lia).
  destruct (div_exact_error c 1 6 (1 # 6) Hv ltac:(lia) ltac:(lia) Hq)
    as (Hw & Hs & Hx).
  pose proof (div_exact_cases c (Dec false 1 0) (Dec false 6 0)
                ltac:(simpl; lia) ltac:(simpl; lia)) as H.
  cbv zeta in H. cbn [dcoef dexp dsign] in H.
  change (ndigits 6) with 1 in H. change (ndigits 1) with 1 in H.
  replace (1 - 1 + prec c + 1) with (prec c + 1) in H by lia.
  unfold quot_num, quot_den in H.
  destruct (Z.leb_spec 0 (prec c + 1)); [|lia].
  destruct H as (_ & _ & [(Hm0 & _)|(_ & Hex & _)]).
  - exfalso. pose proof (pow10_mod3 (prec c + 1) ltac:(lia)) as H3.
    pose proof (Z.div_mod (1 * 10 ^ (prec c + 1)) 6 ltac:(lia)) as D6.
    pose proof (Z.div_mod (10 ^ (prec c + 1)) 3 ltac:(lia)) as D3.
    rewrite Hm0 in D6. rewrite H3 in D3. lia.
  - apply (fix_exp_small c _ a Hv Hw Ha).
    + rewrite Hex. lia.
    + revert Hx. generalize (dmag (div_exact c (Dec false 1 0) (Dec false 6 0))).
      intros X Hx. lra.
    + apply dmag_lt_bound. lra.
Qed.

Lemma canonical_int (c : context) (s : bool) (m : Z) :
  valid_context c -> 1 <= m <= 9 -> canonical c (Dec s m 0).
Proof.
  intros Hv Hm. pose proof Hv as (Hp & Hmax & Hmin).
  pose proof (valid_Etiny c Hv) as (Ht0 & _ & _).
  apply (canonical_small c s m 0 1); simpl; lia.
Qed.

(** The first term has an exponent of at most [1 - prec]. *)
Lemma bbp_term0_exp (c : context) (t : decimal) :
  valid_context c -> bbp_term 0 c = (Ok t, c) -> dexp t <= 1 - prec c.
Proof.
  intros Hv Et.
  destruct (bbp_term_steps c 0 t c ltac:(lia) Et)
    as (p & a1 & a2 & s1 & a3 & s2 & a4 & s3 &
        Ep & E1 & E2 & F1 & E3 & F2 & E4 & F3 & Ft).
  change (16 ^ 0) with 1 in Ep. change (8 * 0 + 1) with 1 in E1.
  change (8 * 0 + 4) with 4 in E2. change (8 * 0 + 5) with 5 in E3.
  change (8 * 0 + 6) with 6 in E4.
  destruct (small_quotient c 1 1 Hv) as (p' & Ep' & Cp & _ & Bp & Xp);
    [lia|lia|]. rewrite Ep in Ep'. injection Ep' as <-.
  destruct (small_quotient c 4 1 Hv) as (r & Er & C1 & _ & B1 & _);
    [lia|lia|]. rewrite E1 in Er. injection Er as <-.
  destruct (small_quotient c 2 4 Hv) as (r & Er & C2 & _ & B2 & _);
    [lia|lia|]. rewrite E2 in Er. injection Er as <-.
  destruct (small_quotient c 1 5 Hv) as (r & Er & C3 & _ & B3 & _);
    [lia|lia|]. rewrite E3 in Er. injection Er as <-.
  destruct (small_quotient c 1 6 Hv) as (r & Er & C4 & _ & B4 & _);
    [lia|lia|]. rewrite E4 in Er. injection Er as <-.
  change (inject_Z 1) with 1%Q in *. change (inject_Z 4) with 4%Q in *.
  change (inject_Z 2) with 2%Q in *.
  pose proof (canonical_int c true 2 Hv ltac:(lia)) as Km2.
  pose proof (canonical_int c true 3 Hv ltac:(lia)) as Km3.
  pose proof (canonical_int c true 4 Hv ltac:(lia)) as Km4.
  pose proof (canonical_int c false 4 Hv ltac:(lia)) as K4.
  assert (Vm2 : (dval (Dec true 2 0) == - 2)%Q) by reflexivity.
  assert (Vm3 : (dval (Dec true 3 0) == - 3)%Q) by reflexivity.
  assert (Vm4 : (dval (Dec true 4 0) == - 4)%Q) by reflexivity.
  assert (V4 : (dval (Dec false 4 0) == 4)%Q) by reflexivity.
  destruct (sub_between c a1 a2 _ _ Hv Km2 K4) as (r & Er & D1 & G1 & _).
  { rewrite Vm2, V4. lra. }
  rewrite F1 in Er. injection Er as <-. rewrite Vm2, V4 in G1.
  destruct (sub_between c s1 a3 _ _ Hv Km3 K4) as (r & Er & D2 & G2 & _).
  { rewrite Vm3, V4. lra. }
  rewrite F2 in Er. injection Er as <-. rewrite Vm3, V4 in G2.
  destruct (sub_between c s2 a4 _ _ Hv Km4 K4) as (r & Er & D3 & G3 & _).
  { rewrite Vm4, V4. lra. }
  rewrite F3 in Er. injection Er as <-. rewrite Vm4, V4 in G3.
  pose proof (Qprod_bound (dval p) (dval s3) 1 4 ltac:(lra) ltac:(lra)) as Bx.
  destruct (mul_between c p s3 _ _ Hv (canonical_wf _ _ Cp)
              (canonical_wf _ _ D3) Km4 K4) as (r & Er & Dt & Gt & _).
  { rewrite Vm4, V4. lra. }
  rewrite Ft in Er. injection Er as <-. rewrite Vm4, V4 in Gt.
  pose proof (sixth_exp c a4 Hv E4) as X4.
  pose proof (sub_exp_small c s2 a4 s3 Hv F3 ltac:(now right)
                ltac:(lra) ltac:(lra)) as X3.
  apply (mul_exp_small c p s3 t Hv (canonical_wf _ _ Cp)
           (canonical_wf _ _ D3) Ft); [lia|lra|lra].
Qed.

(** So have all partial sums. *)
Lemma partial_sums_exp (c : context) (m : nat) (acc : decimal) :
  valid_context c -> Z.of_nat m + 2 <= prec c ->
  for_fold bbp_step (seqZ 0 (Z.of_nat (S m))) (Decimal 0) c = (Ok acc, c) ->
  dexp acc <= 1 - prec c.
Proof.
  intros Hv. revert acc. induction m as [|m IH]; intros acc Hp Ea.
  - destruct (bbp_term0_bounds c Hv) as (t & Et & Ct & Xt & Bt); [lia|].
    assert (Hpos : 0 < dcoef t).
    { apply dval_pos_coef; [now apply canonical_wf in Ct|lra]. }
    rewrite (serial_snoc c 0 (Decimal 0) t eq_refl Et) in Ea.
    rewrite add_zero_l in Ea by (done || lia).
    destruct (pos_canonical c t Hv Ct) as (p & Ep & _ & _ & Hp' & _).
    rewrite Ep, (Hp' Hpos) in Ea. injection Ea as <-.
    now apply bbp_term0_exp.
  - destruct (partial_sums_bounded c m Hv) as (a & Ea' & Ca & Xa & Ba); [lia|].
    specialize (IH a ltac:(lia) Ea').
    destruct (partial_sums_bounded c (S m) Hv) as (a' & Ea'' & Ca' & _ & Ba');
      [lia|]. rewrite Ea in Ea''. injection Ea'' as <-.
    destruct (bbp_term_bounded c (Z.of_nat (S m)) Hv)
      as (t & Et & Ct & Xt & Bt); [lia|].
    rewrite (serial_snoc c (S m) a t Ea' Et) in Ea. injection Ea as Ea.
    destruct (term_scale_range c (Z.of_nat (S m)) Hv ltac:(lia)) as [[Hs0 _] _].
    pose proof (q10_le_1 _ Hs0) as H1. pose proof (q10_pos (- term_scale c (Z.of_nat (S m)))) as P1.
    rewrite sum_lo_val, sum_hi_val in Ba, Ba' by lia.
    pose proof (q10_pos (- Z.of_nat (S m))) as P2.
    pose proof (q10_pos (- Z.of_nat (S (S m)))) as P3.
    revert Bt H1 P1 Ba Ba' P2 P3.
    generalize (10 ^ (- term_scale c (Z.of_nat (S m))))%Q
      (10 ^ (- Z.of_nat (S m)))%Q (10 ^ (- Z.of_nat (S (S m))))%Q.
    intros x y z Bt H1 P1 Ba Ba' P2 P3.
    apply (add_exp_small c a t acc Hv Ea); [now left|lra|lra].
Qed.

(** ** The length of the rendering *)

Lemma length_app_string (s1 s2 : string) :
  String.length (s1 ++ s2) = (String.length s1 + String.length s2)%nat.
Proof. induction s1 as [|a s1 IH]; simpl; [done|]. now rewrite IH. Qed.

Lemma length_substring (n m : nat) (s : string) :
  String.length (substring n m s) = Nat.min m (String.length s - n).
Proof.
  revert n m. induction s as [|a s IH]; intros n m.
  - destruct n, m; reflexivity.
  - destruct n as [|n]; simpl.
    + destruct m as [|m]; simpl; [done|]. rewrite IH. f_equal.
      f_equal. lia.
    + apply IH.
Qed.

Lemma length_slice_to (n : Z) (s : string) :
  0 <= n <= Z.of_nat (String.length s) ->
  String.length (slice_to n s) = Z.to_nat n.
Proof.
  intros H. unfold slice_to. destruct (Z.ltb_spec n 0); [lia|].
  rewrite length_substring. lia.
Qed.

Lemma length_slice_from (n : Z) (s : string) :
  0 <= n <= Z.of_nat (String.length s) ->
  String.length (slice_from n s) = (String.length s - Z.to_nat n)%nat.
Proof. intros H. unfold slice_from. rewrite length_substring. lia. Qed.

Lemma ndigits_small (c : Z) : 0 < c < 10 -> ndigits c = 1.
Proof. intros H. apply ndigits_unique; simpl; lia. Qed.

Lemma ndigits_div10 (c : Z) : 10 <= c -> ndigits c = ndigits (c / 10) + 1.
Proof.
  intros H. assert (Hq : 0 < c / 10) by (apply Z.div_str_pos; lia).
  pose proof (ndigits_spec (c / 10) Hq) as [Hlo Hhi].
  pose proof (ndigits_pos (c / 10)) as Hn.
  pose proof (Z.div_mod c 10 ltac:(lia)) as Hd.
  pose proof (Z.mod_pos_bound c 10 ltac:(lia)) as Hm.
  apply ndigits_unique; [|lia].
  replace (ndigits (c / 10) + 1 - 1) with (1 + (ndigits (c / 10) - 1)) by lia.
  replace (ndigits (c / 10) + 1) with (1 + ndigits (c / 10)) by lia.
  rewrite !Z.pow_add_r by lia. change (10 ^ 1) with 10. lia.
Qed.

(** The decimal rendering of a positive integer has as many characters
    as the integer has digits. *)
Lemma length_digits_aux (fuel : nat) (c : Z) (acc : string) :
  0 < c < 10 ^ (Z.of_nat fuel + 1) ->
  String.length (digits_aux fuel c acc)
  = (Z.to_nat (ndigits c) + String.length acc)%nat.
Proof.
  revert c acc. induction fuel as [|f IH]; intros c acc Hc.
  - simpl in *. rewrite ndigits_small by lia. reflexivity.
  - cbn [digits_aux]. destruct (Z.ltb_spec c 10).
    + rewrite ndigits_small by lia. reflexivity.
    + rewrite IH.
      * rewrite (ndigits_div10 c) by done. pose proof (ndigits_pos (c / 10)).
        simpl. lia.
      * split; [apply Z.div_str_pos; lia|].
        apply Z.div_lt_upper_bound; [lia|].
        replace (Z.of_nat (S f) + 1) with (1 + (Z.of_nat f + 1)) in Hc by lia.
        rewrite Z.pow_add_r in Hc by lia. change (10 ^ 1) with 10 in Hc. lia.
Qed.

Lemma length_str_nat (c : Z) :
  0 < c -> String.length (str_nat c) = Z.to_nat (ndigits c).
Proof.
  intros H. unfold str_nat. rewrite length_digits_aux; [simpl; lia|].
  split; [done|]. pose proof (Z.log2_spec c H) as [_ Hhi].
  pose proof (Z.log2_nonneg c).
  rewrite Z2Nat.id by done.
  eapply Z.lt_le_trans; [exact Hhi|].
  replace (Z.succ (Z.log2 c)) with (Z.log2 c + 1) by lia.
  apply Z.pow_le_mono_l. lia.
Qed.

(** A positive number of [n >= 2] digits with one digit before the point
    is rendered as that digit, the point and [n - 1] decimals. *)
Lemma length_dec_str (d : decimal) :
  dsign d = false -> 0 < dcoef d -> 2 <= ndigits (dcoef d) ->
  dexp d = 1 - ndigits (dcoef d) ->
  String.length (dec_str d) = Z.to_nat (ndigits (dcoef d) + 1).
Proof.
  intros Hs Hm Hn He. unfold dec_str. rewrite Hs, He.
  set (n := ndigits (dcoef d)) in *.
  replace (1 - n + n) with 1 by lia.
  destruct (Z.leb_spec (1 - n) 0); [|lia]. change (-6 <? 1) with true.
  cbn [andb]. change (1 <=? 0) with false. cbv iota.
  destruct (Z.leb_spec n 1); [lia|]. change (1 =? 1) with true. cbv iota.
  pose proof (length_str_nat (dcoef d) Hm) as Hl. fold n in Hl.
  rewrite !length_app_string, length_slice_to, length_slice_from by lia.
  simpl. lia.
Qed.

(** ** The serial sum against the exact one *)

(** A sum is within half a relative unit of any bound [M] of it, or half
    the spacing of the smallest numbers. *)
Lemma add_error (c : context) (a b r : decimal) (M : Q) :
  valid_context c -> dec_add c a b = Ok r ->
  (- M <= dval a + dval b <= M)%Q ->
  (- ((1 # 2) * (rel_unit c * M + abs_unit c))
   <= dval r - (dval a + dval b)
   <= (1 # 2) * (rel_unit c * M + abs_unit c))%Q.
Proof.
  intros Hv Hr HM. rewrite dec_add_fix in Hr.
  pose proof (add_exact_wf a b) as [Hw _].
  pose proof (add_exact_val a b) as Hval.
  destruct (fix_error c _ r M Hv Hw Hr) as [Hwr He].
  - apply dmag_le_bound. rewrite Hval. lra.
  - rewrite Hval in He. lra.
Qed.

Lemma pow16_succ (n : nat) :
  (1 / inject_Z (16 ^ Z.of_nat (S n))
   == (1 # 16) * (1 / inject_Z (16 ^ Z.of_nat n)))%Q.
Proof.
  rewrite Nat2Z.inj_succ, Z.pow_succ_r by lia.
  pose proof (pow16_pos (Z.of_nat n) ltac:(lia)) as H.
  pose proof (inject_Z_pos _ H) as P.
  rewrite inject_Z_mult. change (inject_Z 16) with 16%Q. field. lra.
Qed.

Lemma pow16_range (n : nat) : (0 < 1 / inject_Z (16 ^ Z.of_nat n) <= 1)%Q.
Proof.
  pose proof (pow16_pos (Z.of_nat n) ltac:(lia)) as H.
  destruct (Qdiv_range 1 (16 ^ Z.of_nat n) 1 ltac:(lra) ltac:(lia)) as [P L].
  change (inject_Z 1) with 1%Q in L. split; lra.
Qed.

(** The error of the sum of the first [m + 1] terms: that of the terms,
    which add up to a geometric sum, and that of the additions. *)
Lemma partial_sum_error (c : context) (m : nat) (acc : decimal) :
  valid_context c -> Z.of_nat m + 2 <= prec c ->
  for_fold bbp_step (seqZ 0 (Z.of_nat (S m))) (Decimal 0) c = (Ok acc, c) ->
  (Qabs (dval acc - bbp_sum_exact (S m))
   <= (320 # 3) * rel_unit c * (1 - 1 / inject_Z (16 ^ Z.of_nat (S m)))
      + inject_Z (Z.of_nat (S m)) * (4 * rel_unit c + 101 * abs_unit c))%Q.
Proof.
  intros Hv. revert acc. induction m as [|m IH]; intros acc Hp Ea.
  - destruct (bbp_term0_bounds c Hv) as (t & Et & Ct & Xt & Bt); [lia|].
    assert (Hpos : 0 < dcoef t).
    { apply dval_pos_coef; [now apply canonical_wf in Ct|lra]. }
    rewrite (serial_snoc c 0 (Decimal 0) t eq_refl Et) in Ea.
    rewrite add_zero_l in Ea by (done || lia).
    destruct (pos_canonical c t Hv Ct) as (p & Ep & _ & _ & Hp' & _).
    rewrite Ep, (Hp' Hpos) in Ea. injection Ea as <-.
    pose proof (bbp_term_error c 0 t c Hv ltac:(lia) Et) as He.
    pose proof (rel_unit_range c Hv) as [Pu _].
    pose proof (abs_unit_range c Hv) as [Pt _].
    apply Qabs_Qle_condition in He. apply Qabs_Qle_condition.
    cbn [bbp_sum_exact]. change (Z.of_nat 0) with 0 in *.
    change (Z.of_nat 1) with 1.
    change (1 / inject_Z (16 ^ 0))%Q with 1%Q in He.
    change (1 / inject_Z (16 ^ 1))%Q with (1 # 16)%Q.
    change (inject_Z 1) with 1%Q.
    revert He Pu Pt.
    generalize (bbp_term_exact 0) (dval t) (rel_unit c) (abs_unit c).
    intros x y u e He Pu Pt. split; lra.
  - destruct (partial_sums_bounded c m Hv) as (a & Ea' & Ca & Xa & Ba); [lia|].
    specialize (IH a ltac:(lia) Ea').
    destruct (bbp_term_bounded c (Z.of_nat (S m)) Hv)
      as (t & Et & Ct & Xt & Bt); [lia|].
    rewrite (serial_snoc c (S m) a t Ea' Et) in Ea. injection Ea as Ea.
    pose proof (bbp_term_error c (Z.of_nat (S m)) t c Hv ltac:(lia) Et) as He.
    destruct (term_scale_range c (Z.of_nat (S m)) Hv ltac:(lia)) as [[Hs0 _] _].
    pose proof (q10_le_1 _ Hs0) as H1.
    pose proof (q10_pos (- term_scale c (Z.of_nat (S m)))) as P1.
    rewrite sum_lo_val, sum_hi_val in Ba by lia.
    pose proof (q10_pos (- Z.of_nat (S m))) as P2.
    assert (HM : (- 8 <= dval a + dval t <= 8)%Q).
    { revert Bt H1 P1 Ba P2.
      generalize (10 ^ (- term_scale c (Z.of_nat (S m))))%Q
        (10 ^ (- Z.of_nat (S m)))%Q. intros x y Bt H1 P1 Ba P2. lra. }
    pose proof (add_error c a t acc 8 Hv Ea HM) as Hadd.
    pose proof (rel_unit_range c Hv) as [Pu _].
    pose proof (abs_unit_range c Hv) as [Pt _].
    pose proof (pow16_succ (S m)) as E16.
    pose proof (pow16_range (S m)) as [PP _].
    apply Qabs_Qle_condition in He, IH. apply Qabs_Qle_condition.
    change (bbp_sum_exact (S (S m)))
      with (bbp_sum_exact (S m) + bbp_term_exact (Z.of_nat (S m)))%Q.
    rewrite E16.
    replace (Z.of_nat (S (S m))) with (Z.of_nat (S m) + 1) by lia.
    rewrite inject_Z_plus. change (inject_Z 1) with 1%Q.
    assert (Pn : (0 <= inject_Z (Z.of_nat (S m)))%Q)
      by (apply inject_Z_nonneg; lia).
    revert He IH Hadd PP Pn Pu Pt.
    generalize (1 / inject_Z (16 ^ Z.of_nat (S m)))%Q
      (bbp_sum_exact (S m)) (bbp_term_exact (Z.of_nat (S m)))
      (inject_Z (Z.of_nat (S m))) (dval acc) (dval a) (dval t)
      (rel_unit c) (abs_unit c).
    intros P S T n x y z u e He IH Hadd PP Pn Pu Pt.
    assert (E1 : ((320 # 3) * u * (1 - P) == (320 # 3) * u - (320 # 3) * (u * P))%Q)
      by ring.
    assert (E2 : ((320 # 3) * u * (1 - (1 # 16) * P)
                  == (320 # 3) * u - (20 # 3) * (u * P))%Q) by ring.
    assert (E3 : (n * (4 * u + 101 * e)
                  == 4 * (n * u) + 101 * (n * e))%Q) by ring.
    assert (E4 : ((n + 1) * (4 * u + 101 * e)
                  == 4 * (n * u) + 101 * (n * e)
                     + 4 * u + 101 * e)%Q) by ring.
    assert (E5 : (100 * (u * P + e) == 100 * (u * P) + 100 * e)%Q) by ring.
    rewrite E1, E3 in IH. rewrite E5 in He. rewrite E2, E4.
    revert He IH Hadd. generalize (u * P)%Q (n * u)%Q (n * e)%Q.
    intros uP nu ne He IH Hadd. split; lra.
Qed.

(** ** The characters that are returned *)

Lemma append_cons (a : ascii) (s1 s2 : string) :
  (String a s1 ++ s2)%string = String a (s1 ++ s2).
Proof. reflexivity. Qed.

Lemma app_assoc_string (s1 s2 s3 : string) :
  ((s1 ++ s2) ++ s3 = s1 ++ (s2 ++ s3))%string.
Proof.
  induction s1 as [|a s1 IH]; [reflexivity|].
  rewrite !append_cons. f_equal. exact IH.
Qed.

Lemma append_nil_r (s : string) : (s ++ "")%string = s.
Proof.
  induction s as [|a s IH]; [reflexivity|]. rewrite append_cons. now f_equal.
Qed.

Lemma substring_all (s : string) : substring 0 (String.length s) s = s.
Proof. induction s as [|a s IH]; simpl; [done|]. now rewrite IH. Qed.

Lemma substring_app_l (n : nat) (s1 s2 : string) :
  (n <= String.length s1)%nat ->
  substring 0 n (s1 ++ s2) = substring 0 n s1.
Proof.
  revert n. induction s1 as [|a s1 IH]; intros n Hn; simpl in Hn.
  - assert (n = 0%nat) as -> by lia. now destruct s2.
  - rewrite append_cons. destruct n as [|n]; [done|]. cbn [substring].
    rewrite IH by lia. done.
Qed.

Lemma slice_to_nonneg (n : Z) (s : string) :
  0 <= n -> slice_to n s = substring 0 (Z.to_nat n) s.
Proof. intros H. unfold slice_to. now destruct (Z.ltb_spec n 0); [lia|]. Qed.

Lemma digits_aux_app (fuel : nat) (c : Z) (acc : string) :
  digits_aux fuel c acc = (digits_aux fuel c EmptyString ++ acc)%string.
Proof.
  revert c acc. induction fuel as [|f IH]; intros c acc; [done|].
  cbn [digits_aux]. destruct (c <? 10); [done|].
  rewrite IH, (IH _ (String _ EmptyString)), app_assoc_string. done.
Qed.

(** More fuel than the digits need changes nothing. *)
Lemma digits_aux_fuel_S (f : nat) (c : Z) (acc : string) :
  0 <= c < 10 ^ (Z.of_nat f + 1) ->
  digits_aux (S f) c acc = digits_aux f c acc.
Proof.
  revert c acc. induction f as [|f IH]; intros c acc Hc.
  - simpl in Hc. cbn [digits_aux]. destruct (Z.ltb_spec c 10); [|lia].
    now rewrite Z.mod_small by lia.
  - cbn [digits_aux]. destruct (Z.ltb_spec c 10) as [|Hge]; [done|].
    fold (digits_aux (S f) (c / 10)
            (String (digit_char (c mod 10)) acc)).
    change (if c / 10 <? 10
            then String (digit_char (c / 10))
                   (String (digit_char (c mod 10)) acc)
            else digits_aux f (c / 10 / 10)
                   (String (digit_char (c / 10 mod 10))
                      (String (digit_char (c mod 10)) acc)))
      with (digits_aux (S f) (c / 10) (String (digit_char (c mod 10)) acc)).
    apply IH. split; [apply Z.div_pos; lia|].
    apply Z.div_lt_upper_bound; [lia|].
    replace (Z.of_nat (S f) + 1) with (1 + (Z.of_nat f + 1)) in Hc by lia.
    rewrite Z.pow_add_r in Hc by lia. change (10 ^ 1) with 10 in Hc. lia.
Qed.

Lemma digits_aux_fuel (f1 f2 : nat) (c : Z) (acc : string) :
  0 <= c < 10 ^ (Z.of_nat f1 + 1) -> (f1 <= f2)%nat ->
  digits_aux f2 c acc = digits_aux f1 c acc.
Proof.
  intros Hc Hle. induction Hle as [|f2 Hle IH]; [done|].
  rewrite digits_aux_fuel_S; [done|].
  split; [lia|]. eapply Z.lt_le_trans; [apply Hc|].
  apply Z.pow_le_mono_r; lia.
Qed.

Lemma log2_fuel (c : Z) :
  0 < c -> c < 10 ^ (Z.of_nat (Z.to_nat (Z.log2 c)) + 1).
Proof.
  intros H. pose proof (Z.log2_spec c H) as [_ Hhi].
  pose proof (Z.log2_nonneg c). rewrite Z2Nat.id by done.
  eapply Z.lt_le_trans; [exact Hhi|].
  replace (Z.succ (Z.log2 c)) with (Z.log2 c + 1) by lia.
  apply Z.pow_le_mono_l. lia.
Qed.

(** The rendering of an integer is that of its tenth followed by its
    last digit. *)
Lemma str_nat_step (c : Z) :
  10 <= c ->
  str_nat c
  = (str_nat (c / 10) ++ String (digit_char (c mod 10)) EmptyString)%string.
Proof.
  intros Hc. unfold str_nat.
  assert (Hq : 0 < c / 10) by (apply Z.div_str_pos; lia).
  assert (Hl : 1 <= Z.log2 c).
  { apply Z.log2_le_pow2; [lia|]. simpl. lia. }
  destruct (Z.to_nat (Z.log2 c)) as [|f] eqn:Ef; [lia|].
  cbn [digits_aux]. destruct (Z.ltb_spec c 10); [lia|].
  rewrite digits_aux_app. f_equal.
  apply digits_aux_fuel; [split; [lia|now apply log2_fuel]|].
  assert (Hd : Z.log2 (2 * (c / 10)) <= Z.log2 c).
  { apply Z.log2_le_mono. pose proof (Z.mul_div_le c 10 ltac:(lia)). lia. }
  rewrite Z.log2_double in Hd by done. lia.
Qed.

Lemma length_str_nat_pos (c : Z) : 0 < c -> (0 < String.length (str_nat c))%nat.
Proof.
  intros H. rewrite length_str_nat by done. pose proof (ndigits_pos c). lia.
Qed.

(** Dropping the last [k] characters of the rendering of an integer
    renders its quotient by [10^k]. *)
Lemma str_nat_prefix (k : nat) (c : Z) :
  10 ^ Z.of_nat k <= c ->
  substring 0 (String.length (str_nat c) - k) (str_nat c)
  = str_nat (c / 10 ^ Z.of_nat k).
Proof.
  revert c. induction k as [|k IH]; intros c Hc.
  - rewrite Nat.sub_0_r, substring_all. simpl. now rewrite Z.div_1_r.
  - rewrite Nat2Z.inj_succ, Z.pow_succ_r in * by lia.
    pose proof (Z.pow_pos_nonneg 10 (Z.of_nat k) ltac:(lia) ltac:(lia)) as Hp.
    assert (H10 : 10 <= c) by lia.
    assert (Hq : 10 ^ Z.of_nat k <= c / 10)
      by (apply Z.div_le_lower_bound; lia).
    rewrite (str_nat_step c H10) at 2.
    rewrite (str_nat_step c H10) at 1.
    rewrite length_app_string. simpl String.length.
    replace (String.length (str_nat (c / 10)) + 1 - S k)%nat
      with (String.length (str_nat (c / 10)) - k)%nat by lia.
    rewrite substring_app_l by lia.
    rewrite IH by done. rewrite Z.div_div by lia. done.
Qed.

(** The rendering of a positive number with one digit before the point:
    the first digit, the point, the other digits. *)
Lemma dec_str_shape (d : decimal) :
  dsign d = false -> 0 < dcoef d -> 2 <= ndigits (dcoef d) ->
  dexp d = 1 - ndigits (dcoef d) ->
  exists a rest,
    str_nat (dcoef d) = String a rest /\
    dec_str d = String a (String "." rest).
Proof.
  intros Hs Hm Hn He.
  pose proof (length_str_nat (dcoef d) Hm) as Hl.
  destruct (str_nat (dcoef d)) as [|a rest] eqn:Es; [simpl in Hl; lia|].
  exists a, rest. split; [done|].
  unfold dec_str. rewrite Hs, He, Es.
  set (n := ndigits (dcoef d)) in *.
  replace (1 - n + n) with 1 by lia.
  destruct (Z.leb_spec (1 - n) 0); [|lia]. change (-6 <? 1) with true.
  cbn [andb]. change (1 <=? 0) with false. cbv iota.
  destruct (Z.leb_spec n 1); [lia|]. change (1 =? 1) with true. cbv iota.
  rewrite slice_to_nonneg by lia. unfold slice_from.
  change (Z.to_nat 1) with 1%nat. simpl String.length.
  cbn [substring]. replace (S (String.length rest) - 1)%nat
    with (String.length rest) by lia.
  rewrite substring_all.
  assert (substring 0 0 rest = EmptyString) as -> by now destruct rest.
  rewrite append_nil_r. reflexivity.
Qed.

(** Cutting the rendering after [n] decimals renders the number
    truncated to [n] decimals. *)
Lemma dec_str_truncated (d : decimal) (n : Z) :
  dsign d = false -> 0 < dcoef d ->
  dexp d = 1 - ndigits (dcoef d) ->
  1 <= n -> n + 1 <= ndigits (dcoef d) ->
  slice_to (n + 2) (dec_str d)
  = dec_str (Dec false (dcoef d / 10 ^ (ndigits (dcoef d) - 1 - n)) (- n)).
Proof.
  intros Hs Hm He Hn Hle.
  set (len := ndigits (dcoef d)) in *.
  set (k := len - 1 - n).
  pose proof (ndigits_spec (dcoef d) Hm) as [Hlo Hhi]. fold len in Hlo, Hhi.
  assert (Hk : 0 <= k) by (unfold k; lia).
  assert (Hp : 0 < 10 ^ k) by (apply Z.pow_pos_nonneg; lia).
  assert (Hq : 10 ^ n <= dcoef d / 10 ^ k < 10 ^ (n + 1)).
  { split.
    - apply Z.div_le_lower_bound; [done|].
      rewrite <- Z.pow_add_r by lia.
      replace (k + n) with (len - 1) by (unfold k; lia). done.
    - apply Z.div_lt_upper_bound; [done|].
      rewrite <- Z.pow_add_r by lia.
      replace (k + (n + 1)) with len by (unfold k; lia). done. }
  assert (Hpn : 0 < 10 ^ n) by (apply Z.pow_pos_nonneg; lia).
  assert (Hnd : ndigits (dcoef d / 10 ^ k) = n + 1).
  { apply ndigits_unique; [|lia]. replace (n + 1 - 1) with n by lia. done. }
  destruct (dec_str_shape d Hs Hm ltac:(fold len; lia) He)
    as (a & rest & Es & ->).
  destruct (dec_str_shape (Dec false (dcoef d / 10 ^ k) (- n)))
    as (a' & rest' & Es' & ->); cbn [dsign dcoef dexp]; try done; try lia.
  pose proof (str_nat_prefix (Z.to_nat k) (dcoef d)) as Hpre.
  rewrite Z2Nat.id in Hpre by done.
  specialize (Hpre ltac:(
    eapply Z.le_trans; [|exact Hlo]; apply Z.pow_le_mono_r; unfold k; lia)).
  pose proof (length_str_nat (dcoef d) Hm) as Hl. fold len in Hl.
  cbn [dsign dcoef dexp] in Es'.
  rewrite Es in Hpre, Hl. rewrite Es' in Hpre. simpl String.length in *.
  replace (S (String.length rest) - Z.to_nat k)%nat
    with (S (Z.to_nat n)) in Hpre by (unfold k; lia).
  cbn [substring] in Hpre. injection Hpre as <- <-.
  rewrite slice_to_nonneg by lia.
  replace (Z.to_nat (n + 2)) with (S (S (Z.to_nat n))) by lia.
  reflexivity.
Qed.

Section RealSeries.
Import Reals Qreals Lra.
Local Open Scope R_scope.

(** ** The series and the number pi *)

Lemma D_pow (m : nat) (y : R) :
  derivable_pt_lim (fun x => x ^ S m / INR (S m)) y (y ^ m).
Proof.
  assert (Hn : INR (S m) <> 0) by (apply not_0_INR; lia).
  apply (derivable_pt_lim_ext (mult_real_fct (/ INR (S m)) (fun x => x ^ S m))).
  - intros z. unfold mult_real_fct. field. exact Hn.
  - replace (y ^ m) with (/ INR (S m) * (INR (S m) * y ^ pred (S m))).
    + apply derivable_pt_lim_scal, derivable_pt_lim_pow.
    + simpl pred. field. exact Hn.
Qed.

Lemma bbp_R_deriv (k : nat) (y : R) :
  derivable_pt_lim (bbp_R k) y (bbp_R' k y).
Proof.
  unfold bbp_R'.
  pose (F1 := fun x : R => x ^ S (8 * k) / INR (S (8 * k))).
  pose (F2 := fun x : R => x ^ S (8 * k + 3) / INR (S (8 * k + 3))).
  pose (F3 := fun x : R => x ^ S (8 * k + 4) / INR (S (8 * k + 4))).
  pose (F4 := fun x : R => x ^ S (8 * k + 5) / INR (S (8 * k + 5))).
  apply (derivable_pt_lim_ext
           (mult_real_fct ((/ 16) ^ k)
              (mult_real_fct 4 F1 - mult_real_fct 2 F2 - F3 - F4)%F)).
  - intros z. reflexivity.
  - apply derivable_pt_lim_scal.
    repeat apply derivable_pt_lim_minus;
      try apply derivable_pt_lim_scal; apply D_pow.
Qed.

Lemma bbp_sum_R_deriv (N : nat) (y : R) :
  derivable_pt_lim (bbp_sum_R N) y (bbp_sum_R' N y).
Proof.
  induction N as [|N IH].
  - apply bbp_R_deriv.
  - apply (derivable_pt_lim_ext (bbp_sum_R N + bbp_R (S N))%F).
    + intros z. reflexivity.
    + apply derivable_pt_lim_plus; [exact IH|apply bbp_R_deriv].
Qed.

(** The derivative of the partial sums in closed form. *)
Lemma bbp_sum_R'_closed (N : nat) (y : R) :
  bbp_sum_R' N y * (16 - y ^ 8)
  = 16 * (4 - 2 * y ^ 3 - y ^ 4 - y ^ 5) * (1 - (y ^ 8 / 16) ^ S N).
Proof.
  induction N as [|N IH].
  - unfold bbp_sum_R', bbp_R'. simpl. field.
  - unfold bbp_sum_R' in *. cbn [sum_f_R0]. rewrite Rmult_plus_distr_r, IH.
    unfold bbp_R'.
    replace (y ^ (8 * S N + 3)) with (y ^ (8 * S N) * y ^ 3)
      by (now rewrite pow_add).
    replace (y ^ (8 * S N + 4)) with (y ^ (8 * S N) * y ^ 4)
      by (now rewrite pow_add).
    replace (y ^ (8 * S N + 5)) with (y ^ (8 * S N) * y ^ 5)
      by (now rewrite pow_add).
    replace (y ^ (8 * S N)) with ((y ^ 8) ^ S N) by (now rewrite pow_mult).
    replace ((y ^ 8 / 16) ^ S (S N)) with ((y ^ 8 / 16) ^ S N * (y ^ 8 / 16))
      by (simpl; ring).
    replace ((y ^ 8 / 16) ^ S N) with ((/ 16) ^ S N * (y ^ 8) ^ S N).
    + generalize ((/ 16) ^ S N) ((y ^ 8) ^ S N). intros a b. field.
    + unfold Rdiv. rewrite Rpow_mult_distr. ring.
Qed.

Lemma D_sq (y : R) : derivable_pt_lim (fun x => x ^ 2) y (2 * y).
Proof.
  replace (2 * y) with (INR 2 * y ^ pred 2) by (simpl; ring).
  apply derivable_pt_lim_pow.
Qed.

Lemma D_p1 (y : R) : derivable_pt_lim (fun x => 2 - x ^ 2) y (- (2 * y)).
Proof.
  apply (derivable_pt_lim_ext (fct_cte 2 - (fun x => x ^ 2))%F).
  - intros z. reflexivity.
  - replace (- (2 * y)) with (0 - 2 * y) by ring.
    apply derivable_pt_lim_minus; [apply derivable_pt_lim_const|apply D_sq].
Qed.

Lemma D_p2 (y : R) :
  derivable_pt_lim (fun x => x ^ 2 - 2 * x + 2) y (2 * y - 2).
Proof.
  apply (derivable_pt_lim_ext
           ((fun x => x ^ 2) - mult_real_fct 2 id + fct_cte 2)%F).
  - intros z. reflexivity.
  - replace (2 * y - 2) with (2 * y - 2 * 1 + 0) by ring.
    apply derivable_pt_lim_plus; [|apply derivable_pt_lim_const].
    apply derivable_pt_lim_minus; [apply D_sq|].
    apply derivable_pt_lim_scal, derivable_pt_lim_id.
Qed.

Lemma D_p3 (y : R) : derivable_pt_lim (fun x => x - 1) y 1.
Proof.
  apply (derivable_pt_lim_ext (id - fct_cte 1)%F).
  - intros z. reflexivity.
  - replace 1 with (1 - 0) at 2 by ring.
    apply derivable_pt_lim_minus;
      [apply derivable_pt_lim_id|apply derivable_pt_lim_const].
Qed.

Lemma bbp_H_deriv (y : R) :
  0 <= y <= 1 -> derivable_pt_lim bbp_H y (bbp_H' y).
Proof.
  intros Hy.
  assert (P1 : 0 < 2 - y ^ 2) by nra.
  assert (P2 : 0 < y ^ 2 - 2 * y + 2) by nra.
  pose (L1 := comp ln (fun x => 2 - x ^ 2)).
  pose (L2 := comp ln (fun x => x ^ 2 - 2 * x + 2)).
  pose (L3 := comp atan (fun x => x - 1)).
  apply (derivable_pt_lim_ext
           (mult_real_fct 2 L1 - mult_real_fct 2 L2 + mult_real_fct 4 L3)%F).
  - intros z. reflexivity.
  - unfold bbp_H'.
    apply derivable_pt_lim_plus; [apply derivable_pt_lim_minus|];
      apply derivable_pt_lim_scal.
    + apply (derivable_pt_lim_comp (fun x => 2 - x ^ 2) ln);
        [apply D_p1|now apply derivable_pt_lim_ln].
    + apply (derivable_pt_lim_comp (fun x => x ^ 2 - 2 * x + 2) ln);
        [apply D_p2|now apply derivable_pt_lim_ln].
    + apply (derivable_pt_lim_comp (fun x => x - 1) atan);
        [apply D_p3|apply derivable_pt_lim_atan].
Qed.

Lemma bbp_H_1 : bbp_H 1 = 0.
Proof.
  unfold bbp_H.
  replace (2 - 1 ^ 2) with 1 by ring.
  replace (1 ^ 2 - 2 * 1 + 2) with 1 by ring.
  replace (1 - 1) with 0 by ring.
  rewrite ln_1, atan_0. ring.
Qed.

Lemma bbp_H_0 : bbp_H 0 = - PI.
Proof.
  unfold bbp_H.
  replace (2 - 0 ^ 2) with 2 by ring.
  replace (0 ^ 2 - 2 * 0 + 2) with 2 by ring.
  replace (0 - 1) with (Ropp 1) by ring.
  rewrite atan_opp, atan_1. field.
Qed.

Lemma bbp_R_0 (k : nat) : bbp_R k 0 = 0.
Proof.
  unfold bbp_R. rewrite !pow_i by lia. unfold Rdiv. ring.
Qed.

Lemma bbp_sum_R_0 (N : nat) : bbp_sum_R N 0 = 0.
Proof.
  unfold bbp_sum_R. induction N as [|N IH]; simpl.
  - apply bbp_R_0.
  - rewrite IH, bbp_R_0. ring.
Qed.

(** The difference of the two derivatives. *)
Lemma bbp_gap (N : nat) (y : R) :
  0 <= y <= 1 ->
  0 <= bbp_H' y - bbp_sum_R' N y <= 4 * (/ 16) ^ S N.
Proof.
  intros Hy.
  assert (P1 : 0 < 2 - y ^ 2) by nra.
  assert (P2 : 0 < y ^ 2 - 2 * y + 2) by nra.
  assert (P3 : 0 < 1 + (y - 1) ^ 2) by nra.
  assert (Y8 : 0 <= y ^ 8 <= 1).
  { split; [apply pow_le; lra|]. rewrite <- (pow1 8). apply pow_incr. lra. }
  assert (P4 : 0 < 16 - y ^ 8) by lra.
  pose proof (bbp_sum_R'_closed N y) as Hc.
  set (P := 4 - 2 * y ^ 3 - y ^ 4 - y ^ 5) in *.
  set (q := y ^ 8 / 16) in *.
  assert (HH : bbp_H' y * (16 - y ^ 8) = 16 * P).
  { unfold bbp_H', P. field. lra. }
  assert (Hq : 0 <= q <= / 16) by (unfold q; lra).
  assert (Hqn : 0 <= q ^ S N <= (/ 16) ^ S N).
  { split; [apply pow_le; lra|apply pow_incr; lra]. }
  assert (HP : 0 <= 16 * P <= 4 * (16 - y ^ 8)).
  { assert (E : P = (1 - y) * (y ^ 2 + 2) * (y ^ 2 + 2 * y + 2))
      by (unfold P; ring).
    assert (Y3 : 0 <= y ^ 3 <= 1).
    { split; [apply pow_le; lra|]. rewrite <- (pow1 3). apply pow_incr. lra. }
    assert (Y5 : 0 <= y ^ 5) by (apply pow_le; lra).
    assert (Y4 : 0 <= y ^ 4) by (apply pow_le; lra).
    assert (Y83 : y ^ 8 <= y ^ 3).
    { replace (y ^ 8) with (y ^ 3 * y ^ 5) by ring.
      assert (y ^ 5 <= 1) by (rewrite <- (pow1 5); apply pow_incr; lra).
      nra. }
    split.
    - rewrite E. apply Rmult_le_pos; [lra|].
      apply Rmult_le_pos; [apply Rmult_le_pos|]; nra.
    - unfold P. lra. }
  assert (Hd : (bbp_H' y - bbp_sum_R' N y) * (16 - y ^ 8)
               = 16 * P * q ^ S N).
  { rewrite Rmult_minus_distr_r, HH, Hc. ring. }
  set (d := bbp_H' y - bbp_sum_R' N y) in *.
  assert (B1 : 0 <= 16 * P * q ^ S N) by (apply Rmult_le_pos; lra).
  assert (B2 : 16 * P * q ^ S N <= 4 * (16 - y ^ 8) * (/ 16) ^ S N).
  { apply Rmult_le_compat; lra. }
  rewrite <- Hd in B1, B2.
  split.
  - nra.
  - assert (d * (16 - y ^ 8) <= (4 * (/ 16) ^ S N) * (16 - y ^ 8)) by lra.
    nra.
Qed.

(** The partial sums of the series increase to [PI], and the sum of the
    first [N + 1] summands is within [4 / 16^(N+1)] of it. *)
Lemma bbp_tail (N : nat) :
  0 <= PI - bbp_sum_R N 1 <= 4 * (/ 16) ^ S N.
Proof.
  destruct (MVT_cor2 (fun y => bbp_H y - bbp_sum_R N y)
              (fun y => bbp_H' y - bbp_sum_R' N y) 0 1 ltac:(lra))
    as (c & Hc & Hin).
  - intros y Hy.
    apply (derivable_pt_lim_ext (bbp_H - bbp_sum_R N)%F).
    + intros z. reflexivity.
    + apply derivable_pt_lim_minus;
        [now apply bbp_H_deriv|apply bbp_sum_R_deriv].
  - rewrite bbp_H_1, bbp_H_0, bbp_sum_R_0 in Hc.
    pose proof (bbp_gap N c ltac:(lra)) as Hg.
    replace (PI - bbp_sum_R N 1) with (0 - bbp_sum_R N 1 - (- PI - 0))
      by ring.
    rewrite Hc. lra.
Qed.

Lemma Q2R_inject_Z (z : Z) : Q2R (inject_Z z) = IZR z.
Proof. unfold Q2R. simpl. field. Qed.

Lemma inject_Z_neq0 (z : Z) : (0 < z)%Z -> ~ (inject_Z z == 0)%Q.
Proof. intros H E. apply inject_Z_pos in H. rewrite E in H. now apply Qlt_irrefl in H. Qed.

(** The rational summand is the real one. *)
Lemma bbp_term_exact_R (k : nat) :
  Q2R (bbp_term_exact (Z.of_nat k)) = bbp_R k 1.
Proof.
  unfold bbp_term_exact, bbp_R.
  pose proof (pow16_pos (Z.of_nat k) ltac:(lia)) as H16.
  rewrite Q2R_mult, !Q2R_minus, !Q2R_div by (apply inject_Z_neq0; lia).
  rewrite !Q2R_inject_Z, !pow1.
  replace (Q2R 1) with 1 by (unfold Q2R; simpl; field).
  replace (Q2R 4) with 4 by (unfold Q2R; simpl; field).
  replace (Q2R 2) with 2 by (unfold Q2R; simpl; field).
  rewrite <- pow_IZR, pow_inv.
  replace (IZR (8 * Z.of_nat k + 1)) with (INR (S (8 * k)))
    by (rewrite INR_IZR_INZ; f_equal; lia).
  replace (IZR (8 * Z.of_nat k + 4)) with (INR (S (8 * k + 3)))
    by (rewrite INR_IZR_INZ; f_equal; lia).
  replace (IZR (8 * Z.of_nat k + 5)) with (INR (S (8 * k + 4)))
    by (rewrite INR_IZR_INZ; f_equal; lia).
  replace (IZR (8 * Z.of_nat k + 6)) with (INR (S (8 * k + 5)))
    by (rewrite INR_IZR_INZ; f_equal; lia).
  unfold Rdiv. ring.
Qed.

Lemma bbp_sum_exact_R (N : nat) :
  Q2R (bbp_sum_exact (S N)) = bbp_sum_R N 1.
Proof.
  unfold bbp_sum_R. induction N as [|N IH].
  - cbn [bbp_sum_exact sum_f_R0]. rewrite Q2R_plus, bbp_term_exact_R.
    replace (Q2R 0) with 0 by (unfold Q2R; simpl; field). ring.
  - change (bbp_sum_exact (S (S N)))
      with (bbp_sum_exact (S N) + bbp_term_exact (Z.of_nat (S N)))%Q.
    rewrite Q2R_plus, IH, bbp_term_exact_R. reflexivity.
Qed.

(** The exact sum of the first [n >= 1] summands is below [PI], by at
    most [4 / 16^n]. *)
Lemma bbp_sum_exact_pi (N : nat) :
  0 <= PI - Q2R (bbp_sum_exact (S N)) <= 4 * (/ 16) ^ S N.
Proof. rewrite bbp_sum_exact_R. apply bbp_tail. Qed.

End RealSeries.

(** ** The value of the characters that are returned *)

(** The error bound of [partial_sum_error] in one unit: [u] is the relative
    unit, [y] the spacing of the smallest numbers, [x] is [16^-n]. *)
Lemma sum_error_arith (u y x n e : Q) :
  (0 < u)%Q -> (0 < y <= u)%Q -> (0 < x <= 1)%Q -> (1 <= n)%Q ->
  (e <= (320 # 3) * u * (1 - x) + n * (4 * u + 101 * y))%Q ->
  (e <= (107 + 105 * n) * u)%Q.
Proof.
  intros Hu Hy Hx Hn He.
  assert (u * (1 - x) <= u)%Q by nra.
  assert (n * y <= n * u)%Q by nra.
  nra.
Qed.

(** Dropping the last nine digits of a coefficient lowers the value by less
    than one unit of the digit that is kept last. *)
Lemma drop9_error (m digits : Z) :
  0 <= m ->
  (0 <= inject_Z m * 10 ^ (- (digits + 9))
        - inject_Z (m / 10 ^ 9) * 10 ^ (- digits)
   <= 10 ^ (- digits))%Q.
Proof.
  intros Hm.
  pose proof (Z.div_mod m (10 ^ 9) ltac:(lia)) as E.
  pose proof (Z.mod_pos_bound m (10 ^ 9) ltac:(lia)) as [R0 R1].
  assert (Eu : (10 ^ (- digits) == inject_Z (10 ^ 9) * 10 ^ (- (digits + 9)))%Q).
  { rewrite q10_inject by lia. rewrite <- q10_add. now replace (9 + - (digits + 9)) with (- digits) by lia. }
  assert (Em : (inject_Z m == inject_Z (10 ^ 9) * inject_Z (m / 10 ^ 9)
                               + inject_Z (m mod 10 ^ 9))%Q).
  { rewrite E at 1. now rewrite inject_Z_plus, inject_Z_mult. }
  rewrite Eu, Em. clear Em.
  pose proof (q10_pos (- (digits + 9))) as Pu.
  pose proof (inject_Z_nonneg _ R0) as Q0.
  assert (Q1 : (inject_Z (m mod 10 ^ 9) <= inject_Z (10 ^ 9))%Q)
    by (rewrite <- Zle_Qle; lia).
  revert Pu Q0 Q1.
  generalize (10 ^ (- (digits + 9)))%Q (inject_Z (m mod 10 ^ 9))
             (inject_Z (10 ^ 9)) (inject_Z (m / 10 ^ 9)).
  intros u r p q Pu Q0 Q1.
  assert (0 <= r * u)%Q by nra. assert (r * u <= p * u)%Q by nra.
  split; lra.
Qed.

(** The characters that [bbp_serial] returns are those of a number with
    [digits] decimals, which is the sum of the loop without its last nine
    digits; the sum of the loop is the sum of the series up to the
    rounding of [digits] terms and [digits] additions. *)
Lemma bbp_serial_value (c : context) (digits : Z) :
  0 <= Emax c -> Emin c <= 0 -> 1 <= digits -> digits + 10 <= MAX_PREC ->
  exists m,
    bbp_serial digits c
    = (Ok (dec_str (Dec false m (- digits))),
       Ctx (digits + 10) (Emax c) (Emin c)) /\
    10 ^ digits <= m < 4 * 10 ^ digits /\
    String.length (dec_str (Dec false m (- digits))) = Z.to_nat (digits + 2) /\
    (Qabs (dval (Dec false m (- digits)) - bbp_sum_exact (Z.to_nat digits))
     <= 10 ^ (- digits)
        + (107 + 105 * inject_Z digits) * 10 ^ (- (digits + 9)))%Q.
Proof.
  intros Hmax Hmin Hd Hp.
  destruct (bbp_serial_eval c digits Hmax Hmin Hd Hp)
    as (acc & Ea & Ca & _ & Hm & Es).
  remember (Ctx (digits + 10) (Emax c) (Emin c)) as c' eqn:Ec.
  assert (Hv : valid_context c') by (subst c'; unfold valid_context; cbn; lia).
  assert (Hpr : prec c' = digits + 10) by now subst c'.
  assert (Hn : Z.of_nat (S (Z.to_nat (digits - 1))) = digits) by lia.
  assert (Hn' : S (Z.to_nat (digits - 1)) = Z.to_nat digits) by lia.
  destruct (partial_sums_bounded c' (Z.to_nat (digits - 1)) Hv)
    as (acc' & Ea' & _ & _ & Ba); [lia|].
  pose proof (partial_sums_exp c' (Z.to_nat (digits - 1)) acc Hv ltac:(lia))
    as He.
  pose proof (partial_sum_error c' (Z.to_nat (digits - 1)) acc Hv ltac:(lia))
    as Herr.
  rewrite Hn in *. rewrite Hn' in Herr.
  rewrite Ea in Ea'. injection Ea' as <-.
  specialize (He Ea). specialize (Herr Ea).
  rewrite sum_lo_val, sum_hi_val in Ba by lia.
  pose proof (q10_pos (- digits)) as Pd.
  pose proof (q10_le_1 digits ltac:(lia)) as Ld.
  destruct (full_precision c' acc Hv Ca He ltac:(split; lra))
    as (Hs & _ & Hnd & Hex).
  rewrite Hpr in Hnd, Hex.
  pose proof (dec_str_truncated acc digits Hs Hm ltac:(lia) Hd ltac:(lia))
    as Htr.
  rewrite Hnd in Htr. replace (digits + 10 - 1 - digits) with 9 in Htr by lia.
  set (m := dcoef acc / 10 ^ 9) in *.
  assert (Eacc : (dval acc == inject_Z (dcoef acc) * 10 ^ (- (digits + 9)))%Q).
  { unfold dval, dmag. rewrite Hs, Hex.
    now replace (1 - (digits + 10)) with (- (digits + 9)) by lia. }
  pose proof (drop9_error (dcoef acc) digits ltac:(lia)) as Hdrop.
  fold m in Hdrop. rewrite <- Eacc in Hdrop.
  assert (Hmr : 10 ^ digits <= m < 4 * 10 ^ digits).
  { assert (P : 0 < 10 ^ digits) by (apply Z.pow_pos_nonneg; lia).
    assert (Hlo : (1 <= inject_Z m * 10 ^ (- digits) + 10 ^ (- digits))%Q) by lra.
    assert (Hhi : (inject_Z m * 10 ^ (- digits) < 4)%Q) by lra.
    pose proof (q10_neg_mul digits) as Eq.
    pose proof (q10_pos digits) as Pq.
    pose proof (q10_inject digits ltac:(lia)) as Ei.
    assert (H1 : (inject_Z (10 ^ digits) <= inject_Z m + 1)%Q).
    { rewrite Ei. revert Hlo Eq Pq Pd.
      generalize (10 ^ (- digits))%Q (10 ^ digits)%Q (inject_Z m).
      intros a b z Hlo Eq Pq Pa. nra. }
    assert (H2 : (inject_Z m < inject_Z (4 * 10 ^ digits))%Q).
    { rewrite inject_Z_mult, Ei. change (inject_Z 4) with 4%Q.
      revert Hhi Eq Pq Pd.
      generalize (10 ^ (- digits))%Q (10 ^ digits)%Q (inject_Z m).
      intros a b z Hhi Eq Pq Pa. nra. }
    change 1%Q with (inject_Z 1) in H1. rewrite <- inject_Z_plus in H1.
    rewrite <- Zle_Qle in H1. rewrite <- Zlt_Qlt in H2.
    split; [|done].
    (* the sum is at least 1.8, so the coefficient is not below 10^digits *)
    assert (Hlo' : (18 # 10 <= inject_Z m * 10 ^ (- digits) + 10 ^ (- digits))%Q)
      by lra.
    assert (H3 : (inject_Z (10 ^ digits) < inject_Z m + 1)%Q).
    { rewrite Ei. revert Hlo' Eq Pq Pd.
      generalize (10 ^ (- digits))%Q (10 ^ digits)%Q (inject_Z m).
      intros a b z Hlo' Eq Pq Pa. nra. }
    change 1%Q with (inject_Z 1) in H3. rewrite <- inject_Z_plus in H3.
    rewrite <- Zlt_Qlt in H3. lia. }
  assert (Hndm : ndigits m = digits + 1).
  { apply ndigits_unique; [|lia]. replace (digits + 1 - 1) with digits by lia.
    rewrite Z.pow_add_r by lia. lia. }
  exists m. split; [|split; [done|split]].
  - rewrite Es, Htr. reflexivity.
  - rewrite length_dec_str; cbn [dsign dcoef dexp]; rewrite ?Hndm; lia.
  - rewrite dval_pos_dec.
    assert (Hb : (Qabs (dval acc - bbp_sum_exact (Z.to_nat digits))
                  <= (107 + 105 * inject_Z digits) * 10 ^ (- (digits + 9)))%Q).
    { pose proof (rel_unit_range c' Hv) as [Ru _].
      pose proof (abs_unit_range c' Hv) as Ry.
      pose proof (pow16_range (Z.to_nat digits)) as Rx.
      rewrite Z2Nat.id in Rx by lia.
      assert (Rn : (1 <= inject_Z digits)%Q)
        by (change 1%Q with (inject_Z 1); rewrite <- Zle_Qle; lia).
      pose proof (sum_error_arith _ _ _ _ _ Ru Ry Rx Rn Herr) as Hb.
      unfold rel_unit in Hb. rewrite Hpr in Hb.
      now replace (1 - (digits + 10)) with (- (digits + 9)) in Hb by lia. }
    revert Hb Hdrop.
    generalize ((107 + 105 * inject_Z digits) * 10 ^ (- (digits + 9)))%Q
               (bbp_sum_exact (Z.to_nat digits)) (dval acc)
               (inject_Z m * 10 ^ (- digits))%Q (10 ^ (- digits))%Q.
    intros B S a t d Hb Hdrop.
    apply Qabs_Qle_condition in Hb. apply Qabs_Qle_condition. split; lra.
Qed.

Section SerialDigits.
Import Reals Qreals Lra.
Local Open Scope R_scope.

Lemma Q2R_q10_neg (n : nat) : Q2R (10 ^ (- Z.of_nat n)) = (/ 10) ^ n.
Proof.
  induction n as [|n IH].
  - unfold Q2R. simpl. field.
  - assert (E : (10 ^ (- Z.of_nat (S n)) == (1 # 10) * 10 ^ (- Z.of_nat n))%Q).
    { replace (- Z.of_nat (S n))%Z with (-1 + - Z.of_nat n)%Z by lia.
      now rewrite q10_add, tenth. }
    rewrite (Qeq_eqR _ _ E), Q2R_mult, IH. cbn [pow].
    replace (Q2R (1 # 10)) with (/ 10) by (unfold Q2R; simpl; field).
    reflexivity.
Qed.

Lemma Q2R_q10_neg_Z (z : Z) :
  (0 <= z)%Z -> Q2R (10 ^ (- z)) = (/ 10) ^ Z.to_nat z.
Proof. intros H. rewrite <- Q2R_q10_neg, Z2Nat.id by done. reflexivity. Qed.

Lemma Rabs_bounds (x a : R) : Rabs x <= a -> - a <= x <= a.
Proof. intros H. unfold Rabs in H. destruct (Rcase_abs x); lra. Qed.

Lemma Qabs_Rabs (a b : Q) : (Qabs a <= b)%Q -> Rabs (Q2R a) <= Q2R b.
Proof.
  intros [H1 H2]%Qabs_Qle_condition.
  apply Qle_Rle in H1, H2. rewrite Q2R_opp in H1.
  apply Rabs_le. split; lra.
Qed.

Lemma tail_below_tenths (n : nat) :
  4 * (/ 16) ^ S n <= (5 / 2) * (/ 10) ^ S n.
Proof.
  induction n as [|n IH]; [simpl; lra|].
  change ((/ 16) ^ S (S n)) with (/ 16 * (/ 16) ^ S n).
  change ((/ 10) ^ S (S n)) with (/ 10 * (/ 10) ^ S n).
  assert (0 < (/ 10) ^ S n) by (apply pow_lt; lra).
  lra.
Qed.

Lemma tenths_pos (n : nat) : 0 < (/ 10) ^ n.
Proof. apply pow_lt. lra. Qed.

(** Up to sixty million digits the guaranteed distance is below one unit
    of the last significant digit. *)
Lemma serial_bound_small (digits : Z) :
  (1 <= digits <= 60000000)%Z ->
  serial_bound digits < 10 * (/ 10) ^ Z.to_nat digits.
Proof.
  intros Hd. unfold serial_bound.
  destruct (Z.to_nat digits) as [|n] eqn:En; [lia|].
  pose proof (tail_below_tenths n) as Ht.
  pose proof (tenths_pos (S n)) as Hx.
  rewrite pow_add.
  replace ((/ 10) ^ 9) with (/ 1000000000) by (simpl; field).
  assert (Hr : IZR digits <= 60000000) by (apply IZR_le; lia).
  assert (Hr1 : 1 <= IZR digits) by (apply IZR_le; lia).
  revert Ht Hx Hr Hr1. generalize ((/ 10) ^ S n) ((/ 16) ^ S n) (IZR digits).
  intros x y d Ht Hx Hr Hr1.
  assert (d * x <= 60000000 * x) by (apply Rmult_le_compat_r; lra).
  lra.
Qed.

(** A number with [digits] decimals within [e] of pi has the first
    [digits] significant digits of pi, when pi is [e] away from the numbers
    with that many digits. *)
Lemma digits_agree (m q : Z) (n : nat) (e : R) :
  Rabs (IZR m * (/ 10) ^ n - PI) <= e ->
  IZR (10 * q) * (/ 10) ^ n + e <= PI ->
  PI < IZR (10 * (q + 1)) * (/ 10) ^ n - e ->
  (m / 10 = q)%Z.
Proof.
  intros Hm Hlo Hhi. pose proof (tenths_pos n) as Hx.
  apply Rabs_bounds in Hm as [H1 H2].
  assert (L : IZR (10 * q) * (/ 10) ^ n <= IZR m * (/ 10) ^ n) by lra.
  assert (U : IZR m * (/ 10) ^ n < IZR (10 * (q + 1)) * (/ 10) ^ n) by lra.
  apply Rmult_le_reg_r in L; [|done]. apply Rmult_lt_reg_r in U; [|done].
  apply le_IZR in L. apply lt_IZR in U.
  symmetry. apply (Z.div_unique m 10 q (m - 10 * q)); lia.
Qed.

(** C1, as the code has it.  The examples of the claim have one character
    less than the code returns, and a [digits] above [MAX_PREC - 10] is
    refused.  For every other [digits >= 1], whatever the precision of the
    caller, [bbp_serial(digits)] returns the [digits + 2] characters of a
    number [m * 10^-digits] whose distance from pi is at most
    [serial_bound digits]: below one unit of the last of [digits]
    significant digits up to sixty million digits.  The first [digits]
    significant digits of the result are those of pi when pi is that far
    from the numbers of [digits] significant digits.  Started from the
    default exponent limits, the characters are the first [digits + 2] of
    the decimal expansion of pi for [digits] up to 40: ["3.14159"] for 5
    and ["3.1415926535"] for 10. *)
Theorem serial_digits_of_pi (c : context) :
  (0 <= Emax c)%Z -> (Emin c <= 0)%Z ->
  (forall digits, (1 <= digits)%Z -> (digits + 10 <= MAX_PREC)%Z ->
     exists m : Z,
       fst (bbp_serial digits c) = Ok (dec_str (Dec false m (- digits))) /\
       String.length (dec_str (Dec false m (- digits)))
       = Z.to_nat (digits + 2) /\
       Rabs (Q2R (dval (Dec false m (- digits))) - PI)
       <= serial_bound digits /\
       ((digits <= 60000000)%Z ->
        Rabs (Q2R (dval (Dec false m (- digits))) - PI)
        < 10 * (/ 10) ^ Z.to_nat digits) /\
       (forall q : Z,
          IZR (10 * q) * (/ 10) ^ Z.to_nat digits + serial_bound digits
          <= PI ->
          PI < IZR (10 * (q + 1)) * (/ 10) ^ Z.to_nat digits
               - serial_bound digits ->
          (m / 10 = q)%Z)) /\
  (Emax c = 999999%Z -> Emin c = (-999999)%Z ->
   (forall digits, (1 <= digits <= 40)%Z ->
      fst (bbp_serial digits c) = Ok (slice_to (digits + 2) pi_expansion)) /\
   fst (bbp_serial 5 c) = Ok "3.14159"%string /\
   fst (bbp_serial 10 c) = Ok "3.1415926535"%string).
Proof.
  intros Hmax Hmin. split.
  - intros digits Hd Hp.
    destruct (bbp_serial_value c digits Hmax Hmin Hd Hp)
      as (m & Es & Hm & Hl & He).
    exists m. split; [now rewrite Es|]. split; [done|].
    assert (Hv : Q2R (dval (Dec false m (- digits)))
                 = IZR m * (/ 10) ^ Z.to_nat digits).
    { rewrite (Qeq_eqR _ _ (dval_pos_dec m (- digits))), Q2R_mult.
      now rewrite Q2R_inject_Z, Q2R_q10_neg_Z by lia. }
    assert (Hb : Rabs (Q2R (dval (Dec false m (- digits))) - PI)
                 <= serial_bound digits).
    { apply Qabs_Rabs in He.
      rewrite Q2R_minus, Q2R_plus, Q2R_mult, Q2R_plus, Q2R_mult in He.
      rewrite Q2R_inject_Z, !Q2R_q10_neg_Z in He by lia.
      replace (Q2R 107) with 107 in He by (unfold Q2R; simpl; field).
      replace (Q2R 105) with 105 in He by (unfold Q2R; simpl; field).
      replace (Z.to_nat (digits + 9)) with (Z.to_nat digits + 9)%nat in He
        by lia.
      destruct (Z.to_nat digits) as [|n] eqn:En; [lia|].
      pose proof (bbp_sum_exact_pi n) as Hpi.
      unfold serial_bound. rewrite En.
      apply Rabs_bounds in He. apply Rabs_le. split; lra. }
    split; [done|]. split.
    + intros Hs. eapply Rle_lt_trans; [exact Hb|].
      apply serial_bound_small. lia.
    + intros q Hlo Hhi. rewrite Hv in Hb.
      exact (digits_agree m q _ _ Hb Hlo Hhi).
  - intros Ex En.
    assert (H : forall digits, (1 <= digits <= 40)%Z ->
              fst (bbp_serial digits c)
              = Ok (slice_to (digits + 2) pi_expansion)).
    { intros digits Hd. pose proof serial_digits_checked as Hall.
      rewrite forallb_forall in Hall.
      specialize (Hall digits ltac:(apply list_elem_of_In, elem_of_seqZ; lia)).
      apply result_is_spec in Hall. rewrite <- Hall.
      apply set_prec_forgets; [apply bbp_serial_body_keeps|done|done]. }
    split; [done|]. split.
    + now rewrite (H 5%Z) by lia.
    + now rewrite (H 10%Z) by lia.
Qed.

(** Seven digits from the default context: the characters, and their
    distance from pi. *)
Lemma serial_digits_of_pi_witness :
  fst (bbp_serial 7 DefaultContext) = Ok "3.1415926"%string /\
  exists m : Z,
    fst (bbp_serial 7 DefaultContext) = Ok (dec_str (Dec false m (- (7)))) /\
    Rabs (Q2R (dval (Dec false m (- (7)))) - PI) < 10 * (/ 10) ^ 7.
Proof.
  destruct (serial_digits_of_pi DefaultContext) as [Hg Hd];
    [vm_compute; discriminate|vm_compute; discriminate|].
  split.
  - destruct (Hd eq_refl eq_refl) as (H & _). now rewrite (H 7%Z) by lia.
  - destruct (Hg 7%Z) as (m & Es & _ & _ & Hs & _);
      [lia|vm_compute; discriminate|].
    exists m. split; [exact Es|]. apply Hs. lia.
Defined.

End SerialDigits.
